(** * Open hypergraphs: composition algebra and optic object mapping

    A shallow embedding of [open_hypergraphs/open_hypergraph.py] and of the
    object part of [open_hypergraphs/functor/optic.py].

    The array substrate ([FiniteFunction], [IndexedCoproduct], [Hypergraph])
    lives in modules of the package that are outside the files embedded here;
    those three modules are modelled from the specification and every such
    definition says so in its comment.  The classes [OpenHypergraph] and
    [Optic] are transcribed from the Python text line by line. *)

From Stdlib Require Import List Arith Lia Bool PeanoNat Permutation.
Import ListNotations.

Set Implicit Arguments.

(** ** Failures

    Python exceptions become values of [error]; the names are those of the
    specification's taxonomy.  The [ValueError] of [__post_init__] is
    [DtypeMismatch], the assertion of [compose] is [TypeMismatch], the
    [ValueError]s of [identity] and [twist] are [InvalidArgument], those of
    [singleton] are [ArityMismatch], the one of [interleave_blocks] is
    [LengthMismatch] and the assertion of [map_objects] is
    [StructuralMismatch]. *)

Inductive error : Type :=
| TypeMismatch
| DtypeMismatch
| ArityMismatch
| LengthMismatch
| InvalidArgument
| StructuralMismatch.

Inductive result (A : Type) : Type :=
| Ok (a : A)
| Err (e : error).

Arguments Ok {A} a.
Arguments Err {A} e.

Definition bind {A B : Type} (c : result A) (k : A -> result B) : result B :=
  match c with
  | Ok a => k a
  | Err e => Err e
  end.

Notation "x <- c ;; k" := (bind c (fun x => k))
  (at level 61, c at next level, right associativity).

(** [require e b] is a guard: it passes when [b] holds and fails with [e].
    A Python [assert b] and a Python [if not b: raise ...] are both guards. *)
Definition require (e : error) (b : bool) : result unit :=
  if b then Ok tt else Err e.

Notation "'check' b 'else' e ;; k" := (bind (require e b) (fun _ => k))
  (at level 61, b at level 0, e at level 0, right associativity).

(** The integer width of an index array, as a tag: 32 for int32 and so on. *)
Definition DType : Type := nat.

Definition opt_eqb (a b : option nat) : bool :=
  match a, b with
  | Some n, Some m => n =? m
  | None, None => true
  | _, _ => false
  end.

Fixpoint list_eqb (l r : list nat) : bool :=
  match l, r with
  | [], [] => true
  | a :: l', b :: r' => (a =? b) && list_eqb l' r'
  | _, _ => false
  end.

Definition sum_list (l : list nat) : nat := fold_right Nat.add 0 l.

(** [set_nth k v l] is the array [l] after the store [l[k] = v]. *)
Fixpoint set_nth (k v : nat) (l : list nat) {struct l} : list nat :=
  match l, k with
  | [], _ => []
  | _ :: l', 0 => v :: l'
  | a :: l', S k' => a :: set_nth k' v l'
  end.

(** [scatter kvs u] is the array [u] after the stores [u[k] = v] for the pairs
    [(k, v)] of [kvs] from left to right: a later store to a key wins. *)
Definition scatter (kvs : list (nat * nat)) (u : list nat) : list nat :=
  fold_left (fun u kv => set_nth (fst kv) (snd kv) u) kvs u.

(** ** FiniteFunction (collaborator) *)

Module FiniteFunction.

(** Modelled from the spec: the class [FiniteFunction] of the module
    [finite_function], which is not among the embedded files.  A finite
    function [n -> m] is its array of [n] target indices, the codomain size
    [m] and the integer width shared by a computation.  The codomain is
    [None] for an array that has no bound (the block sizes of an indexed
    coproduct), as in [FiniteFunction(None, ...)] of [Optic.map_objects]. *)
Record FiniteFunction : Type := mk {
  target : option nat;
  table : list nat;
  dtype : DType
}.

(** [f.source] and [len(f)]. *)
Definition source (f : FiniteFunction) : nat := length (table f).

(** Data-model invariant: every entry is an index in [[0, m)]. *)
Definition wf (f : FiniteFunction) : Prop :=
  match target f with
  | Some m => Forall (fun i => i < m) (table f)
  | None => True
  end.

(** Modelled from the spec: equality of finite functions, on all three
    components, so that functions of different widths never compare equal. *)
Definition eqb (f g : FiniteFunction) : bool :=
  opt_eqb (target f) (target g) && list_eqb (table f) (table g)
  && (dtype f =? dtype g).

(** Modelled from the spec: [identity(n, dtype)]. *)
Definition identity (n : nat) (d : DType) : FiniteFunction :=
  mk (Some n) (seq 0 n) d.

(** Modelled from the spec: [initial(m, dtype)], the empty function into [m]. *)
Definition initial (m : option nat) (d : DType) : FiniteFunction :=
  mk m [] d.

(** Modelled from the spec: [f.to_initial()], the empty function into the
    codomain of [f]. *)
Definition to_initial (f : FiniteFunction) : FiniteFunction :=
  initial (target f) (dtype f).

(** Modelled from the spec: composition [f >> g], defined when the codomain
    of [f] is the domain of [g] and the widths agree.  The entries of a
    well-formed [f] are positions of the array of [g]. *)
Definition compose (f g : FiniteFunction) : result FiniteFunction :=
  check (opt_eqb (target f) (Some (source g))) else TypeMismatch ;;
  check (dtype f =? dtype g) else DtypeMismatch ;;
  Ok (mk (target g) (map (fun i => nth i (table g) 0) (table f)) (dtype f)).

(** Modelled from the spec: the coproduct [f + g] of two functions into the
    same codomain: the two arrays one after the other. *)
Definition coproduct (f g : FiniteFunction) : result FiniteFunction :=
  check (opt_eqb (target f) (target g)) else TypeMismatch ;;
  check (dtype f =? dtype g) else DtypeMismatch ;;
  Ok (mk (target f) (table f ++ table g) (dtype f)).

(** Modelled from the spec: the tensor [f @ g] (disjoint sum): the entries of
    [g] are shifted past the codomain of [f]. *)
Definition tensor (f g : FiniteFunction) : result FiniteFunction :=
  match target f, target g with
  | Some m, Some k =>
      check (dtype f =? dtype g) else DtypeMismatch ;;
      Ok (mk (Some (m + k)) (table f ++ map (fun i => i + m) (table g)) (dtype f))
  | _, _ => Err TypeMismatch
  end.

(** Modelled from the spec: [inj0(a, b, dtype) : a -> a + b]. *)
Definition inj0 (a b : nat) (d : DType) : FiniteFunction :=
  mk (Some (a + b)) (seq 0 a) d.

(** Modelled from the spec: [inj1(a, b, dtype) : b -> a + b]. *)
Definition inj1 (a b : nat) (d : DType) : FiniteFunction :=
  mk (Some (a + b)) (seq a b) d.

(** Modelled from the spec: [f.inject0(b)], that is [f >> inj0(f.target, b)]. *)
Definition inject0 (f : FiniteFunction) (b : nat) : result FiniteFunction :=
  match target f with
  | Some a => compose f (inj0 a b (dtype f))
  | None => Err TypeMismatch
  end.

(** Modelled from the spec: [f.inject1(a)], that is [f >> inj1(a, f.target)]. *)
Definition inject1 (f : FiniteFunction) (a : nat) : result FiniteFunction :=
  match target f with
  | Some b => compose f (inj1 a b (dtype f))
  | None => Err TypeMismatch
  end.

(** Modelled from the spec: [twist(a, b, dtype) : a + b -> b + a], the
    permutation that carries the first block behind the second. *)
Definition twist (a b : nat) (d : DType) : FiniteFunction :=
  mk (Some (a + b)) (seq b a ++ seq 0 b) d.

(** Modelled from the spec: [transpose(a, b, dtype)], the permutation of
    [a * b] that reads a matrix with [a] columns column by column; for
    [a = 2] position [2 i] is sent to [i] and position [2 i + 1] to [b + i]. *)
Definition transpose (a b : nat) (d : DType) : FiniteFunction :=
  mk (Some (a * b)) (map (fun i => (i mod a) * b + i / a) (seq 0 (a * b))) d.

(** Merging of two classes: the larger representative is renamed to the
    smaller one everywhere. *)
Definition relabel (hi lo : nat) (lab : list nat) : list nat :=
  map (fun l => if l =? hi then lo else l) lab.

Definition merge (lab : list nat) (e : nat * nat) : list nat :=
  let la := nth (fst e) lab 0 in
  let lb := nth (snd e) lab 0 in
  relabel (Nat.max la lb) (Nat.min la lb) lab.

(** [components n es] labels every vertex below [n] with the least element
    of its class in the graph with edges [es]. *)
Definition components (n : nat) (es : list (nat * nat)) : list nat :=
  fold_left merge es (seq 0 n).

Definition roots (lab : list nat) : list nat :=
  filter (fun i => nth i lab 0 =? i) (seq 0 (length lab)).

Definition rank (rs : list nat) (l : nat) : nat :=
  length (filter (fun r => r <? l) rs).

(** Modelled from the spec: [f.coequalizer(g)] for parallel [f, g : A -> B]:
    the quotient map [q : B -> Q] onto the classes of the least equivalence
    that relates [f(i)] and [g(i)] for every [i]; classes are numbered in the
    order of their least elements. *)
Definition coequalizer (f g : FiniteFunction) : result FiniteFunction :=
  check (source f =? source g) else TypeMismatch ;;
  match target f with
  | Some n =>
      check (opt_eqb (target g) (Some n)) else TypeMismatch ;;
      check (dtype f =? dtype g) else DtypeMismatch ;;
      let lab := components n (combine (table f) (table g)) in
      let rs := roots lab in
      Ok (mk (Some (length rs)) (map (rank rs) lab) (dtype f))
  | None => Err TypeMismatch
  end.

(** Modelled from the spec: the map [u : Q -> C] induced on the quotient by
    a labelling [f : B -> C], computed as the scatter [u[q.table] = f.table]
    into an array of zeros. *)
Definition universal (q f : FiniteFunction) : result FiniteFunction :=
  match target q with
  | Some Q =>
      check (source q =? source f) else TypeMismatch ;;
      check (dtype q =? dtype f) else DtypeMismatch ;;
      Ok (mk (target f)
             (scatter (combine (table q) (table f)) (repeat 0 Q))
             (dtype f))
  | None => Err TypeMismatch
  end.

(** Start of block [k] in the concatenation of blocks of sizes [s]. *)
Definition offset (s : list nat) (k : nat) : nat := sum_list (firstn k s).

(** Modelled from the spec: [s.injections(a)] for block sizes [s : N -> K]
    and [a : A -> N]: the positions, inside the concatenation of all blocks,
    of the blocks [a(0), a(1), ...] in this order. *)
Definition injections (s a : FiniteFunction) : result FiniteFunction :=
  check (opt_eqb (target a) (Some (source s))) else TypeMismatch ;;
  check (dtype a =? dtype s) else DtypeMismatch ;;
  Ok (mk (Some (sum_list (table s)))
         (flat_map (fun k => seq (offset (table s) k) (nth k (table s) 0)) (table a))
         (dtype a)).

End FiniteFunction.

(** ** IndexedCoproduct (collaborator) *)

Module IndexedCoproduct.

(** Modelled from the spec: the class [IndexedCoproduct] of the module
    [finite_function]: [N] finite functions packed as the array [sources] of
    their [N] domain sizes and the concatenation [values] of their arrays. *)
Record IndexedCoproduct : Type := mk {
  sources : FiniteFunction.FiniteFunction;
  values : FiniteFunction.FiniteFunction
}.

(** [len(A)]: the number of blocks. *)
Definition len (A : IndexedCoproduct) : nat :=
  FiniteFunction.source (sources A).

(** Modelled from the spec: [A.dtype], the width of the packed arrays. *)
Definition dtype (A : IndexedCoproduct) : DType :=
  FiniteFunction.dtype (values A).

(** Data-model invariant: the block sizes add up to the domain of [values],
    and both arrays have one width. *)
Definition wf (A : IndexedCoproduct) : Prop :=
  sum_list (FiniteFunction.table (sources A)) = FiniteFunction.source (values A)
  /\ FiniteFunction.dtype (sources A) = FiniteFunction.dtype (values A)
  /\ FiniteFunction.wf (values A).

(** Two indexed coproducts of one computation: one width, one codomain. *)
Definition compatible (A B : IndexedCoproduct) : Prop :=
  FiniteFunction.target (sources A) = FiniteFunction.target (sources B)
  /\ FiniteFunction.target (values A) = FiniteFunction.target (values B)
  /\ dtype A = dtype B.

(** Modelled from the spec: [initial(n, dtype)], no block at all, into [n]. *)
Definition initial (n : nat) (d : DType) : IndexedCoproduct :=
  mk (FiniteFunction.initial None d) (FiniteFunction.initial (Some n) d).

(** Modelled from the spec: [singleton(f, dtype)], the one block [f]. *)
Definition singleton (f : FiniteFunction.FiniteFunction) (d : DType)
  : IndexedCoproduct :=
  mk (FiniteFunction.mk None [FiniteFunction.source f] d) f.

(** Modelled from the spec: block-wise [A + B], the blocks of [A] followed by
    the blocks of [B], all into one codomain. *)
Definition coproduct (A B : IndexedCoproduct) : result IndexedCoproduct :=
  so <- FiniteFunction.coproduct (sources A) (sources B) ;;
  va <- FiniteFunction.coproduct (values A) (values B) ;;
  Ok (mk so va).

(** Modelled from the spec: [A @ B], the blocks of [A] followed by the blocks
    of [B] with codomains side by side. *)
Definition tensor (A B : IndexedCoproduct) : result IndexedCoproduct :=
  so <- FiniteFunction.coproduct (sources A) (sources B) ;;
  va <- FiniteFunction.tensor (values A) (values B) ;;
  Ok (mk so va).

(** Modelled from the spec: [A.map_values(q)], every block followed by [q]. *)
Definition map_values (A : IndexedCoproduct) (q : FiniteFunction.FiniteFunction)
  : result IndexedCoproduct :=
  va <- FiniteFunction.compose (values A) q ;;
  Ok (mk (sources A) va).

(** Modelled from the spec: [A.map_indexes(p)], the blocks
    [A[p(0)], A[p(1)], ...] in this order. *)
Definition map_indexes (A : IndexedCoproduct) (p : FiniteFunction.FiniteFunction)
  : result IndexedCoproduct :=
  so <- FiniteFunction.compose p (sources A) ;;
  inj <- FiniteFunction.injections (sources A) p ;;
  va <- FiniteFunction.compose inj (values A) ;;
  Ok (mk so va).

(** The blocks of [A] as a list of arrays. *)
Fixpoint split_blocks (sizes : list nat) (l : list nat) : list (list nat) :=
  match sizes with
  | [] => []
  | k :: sizes' => firstn k l :: split_blocks sizes' (skipn k l)
  end.

Definition blocks (A : IndexedCoproduct) : list (list nat) :=
  split_blocks (FiniteFunction.table (sources A)) (FiniteFunction.table (values A)).

(** The per-index pairing [(A0 + B0), (A1 + B1), ...] of two block lists. *)
Definition paired_blocks (l r : list (list nat)) : list (list nat) :=
  map (fun ab => fst ab ++ snd ab) (combine l r).

End IndexedCoproduct.

(** ** Hypergraph (collaborator) *)

Module Hypergraph.

(** Modelled from the spec: the class [Hypergraph] of the module
    [hypergraph]: wire labels [w : W -> Sigma0], operation labels
    [x : X -> Sigma1] and, per hyperedge, its source and target wires. *)
Record Hypergraph : Type := mk {
  s : IndexedCoproduct.IndexedCoproduct;
  t : IndexedCoproduct.IndexedCoproduct;
  w : FiniteFunction.FiniteFunction;
  x : FiniteFunction.FiniteFunction
}.

(** [H.W] and [H.X]: the numbers of wires and of hyperedges. *)
Definition W (G : Hypergraph) : nat := FiniteFunction.source (w G).
Definition X (G : Hypergraph) : nat := FiniteFunction.source (x G).

(** Modelled from the spec: [H.dtype], the width of the incidence arrays. *)
Definition dtype (G : Hypergraph) : DType := IndexedCoproduct.dtype (s G).

(** Data-model invariant: one block of sources and of targets per hyperedge,
    every incidence index below [W], labels in range, one width. *)
Definition wf (G : Hypergraph) : Prop :=
  IndexedCoproduct.wf (s G) /\ IndexedCoproduct.wf (t G)
  /\ IndexedCoproduct.len (s G) = X G /\ IndexedCoproduct.len (t G) = X G
  /\ FiniteFunction.target (IndexedCoproduct.values (s G)) = Some (W G)
  /\ FiniteFunction.target (IndexedCoproduct.values (t G)) = Some (W G)
  /\ FiniteFunction.target (IndexedCoproduct.sources (s G)) = None
  /\ FiniteFunction.target (IndexedCoproduct.sources (t G)) = None
  /\ FiniteFunction.wf (w G) /\ FiniteFunction.wf (x G)
  /\ IndexedCoproduct.dtype (t G) = dtype G
  /\ FiniteFunction.dtype (w G) = dtype G
  /\ FiniteFunction.dtype (x G) = dtype G.

(** Modelled from the spec: [discrete(w, x, dtype)], the hypergraph with
    wires [w] and no hyperedge; [x] only carries the operation alphabet and
    has to be empty. *)
Definition discrete (w0 x0 : FiniteFunction.FiniteFunction) (d : DType)
  : result Hypergraph :=
  check (FiniteFunction.source x0 =? 0) else InvalidArgument ;;
  Ok (mk (IndexedCoproduct.initial (FiniteFunction.source w0) d)
         (IndexedCoproduct.initial (FiniteFunction.source w0) d)
         w0 x0).

(** Modelled from the spec: [empty(w, x, dtype)], the hypergraph without
    hyperedges and without incidences; [w] and [x] carry the alphabets. *)
Definition empty (w0 x0 : FiniteFunction.FiniteFunction) (d : DType) : Hypergraph :=
  mk (IndexedCoproduct.initial 0 d) (IndexedCoproduct.initial 0 d) w0 x0.

(** Modelled from the spec: [G + H], the disjoint union. *)
Definition coproduct (G K : Hypergraph) : result Hypergraph :=
  s' <- IndexedCoproduct.tensor (s G) (s K) ;;
  t' <- IndexedCoproduct.tensor (t G) (t K) ;;
  w' <- FiniteFunction.coproduct (w G) (w K) ;;
  x' <- FiniteFunction.coproduct (x G) (x K) ;;
  Ok (mk s' t' w' x').

(** Modelled from the spec: [G.coequalize_vertices(q)]: the incidence maps
    are followed by [q] and the wire labels descend to the quotient; a [q]
    that merges wires of different labels is refused. *)
Definition coequalize_vertices (G : Hypergraph) (q : FiniteFunction.FiniteFunction)
  : result Hypergraph :=
  check (W G =? FiniteFunction.source q) else TypeMismatch ;;
  u <- FiniteFunction.universal q (w G) ;;
  qu <- FiniteFunction.compose q u ;;
  check (FiniteFunction.eqb qu (w G)) else StructuralMismatch ;;
  s' <- IndexedCoproduct.map_values (s G) q ;;
  t' <- IndexedCoproduct.map_values (t G) q ;;
  Ok (mk s' t' u (x G)).

End Hypergraph.

(** ** OpenHypergraph ([open_hypergraph.py]) *)

Module OpenHypergraph.

(** [class OpenHypergraph]: a cospan of discrete feet, fields [s], [t], [H]. *)
Record OpenHypergraph : Type := mk {
  s : FiniteFunction.FiniteFunction;
  t : FiniteFunction.FiniteFunction;
  H : Hypergraph.Hypergraph
}.

(** The constructor call [cls(s, t, H)]: the dataclass initialiser followed
    by [__post_init__], which raises when
    [s.dtype != t.dtype or t.dtype != H.dtype]. *)
Definition new (s0 t0 : FiniteFunction.FiniteFunction) (H0 : Hypergraph.Hypergraph)
  : result OpenHypergraph :=
  check ((FiniteFunction.dtype s0 =? FiniteFunction.dtype t0)
         && (FiniteFunction.dtype t0 =? Hypergraph.dtype H0))
    else DtypeMismatch ;;
  Ok (mk s0 t0 H0).

(** The values of the class are the records that pass [__post_init__]. *)
Definition constructed (f : OpenHypergraph) : Prop :=
  new (s f) (t f) (H f) = Ok f.

(** Property [dtype]. *)
Definition dtype (f : OpenHypergraph) : DType := FiniteFunction.dtype (s f).

(** Data-model invariant: the two interfaces are finite functions into the
    wires of a well-formed hypergraph. *)
Definition wf (f : OpenHypergraph) : Prop :=
  constructed f
  /\ FiniteFunction.target (s f) = Some (Hypergraph.W (H f))
  /\ FiniteFunction.target (t f) = Some (Hypergraph.W (H f))
  /\ FiniteFunction.wf (s f) /\ FiniteFunction.wf (t f)
  /\ Hypergraph.wf (H f).

(** Two open hypergraphs of one computation: one width and one pair of
    label alphabets [Sigma0], [Sigma1]. *)
Definition same_signature (f g : OpenHypergraph) : Prop :=
  dtype f = dtype g
  /\ FiniteFunction.target (Hypergraph.w (H f)) = FiniteFunction.target (Hypergraph.w (H g))
  /\ FiniteFunction.target (Hypergraph.x (H f)) = FiniteFunction.target (Hypergraph.x (H g)).

(** Property [source]: [self.s >> self.H.w]. *)
Definition source (f : OpenHypergraph) : result FiniteFunction.FiniteFunction :=
  FiniteFunction.compose (s f) (Hypergraph.w (H f)).

(** Property [target]: [self.t >> self.H.w]. *)
Definition target (f : OpenHypergraph) : result FiniteFunction.FiniteFunction :=
  FiniteFunction.compose (t f) (Hypergraph.w (H f)).

(** [signature(self)]: the two label alphabets, as empty functions. *)
Definition signature (f : OpenHypergraph)
  : FiniteFunction.FiniteFunction * FiniteFunction.FiniteFunction :=
  (FiniteFunction.to_initial (Hypergraph.w (H f)),
   FiniteFunction.to_initial (Hypergraph.x (H f))).

(** [identity(cls, w, x, dtype)]. *)
Definition identity (w x : FiniteFunction.FiniteFunction) (dtype : DType)
  : result OpenHypergraph :=
  check (FiniteFunction.source x =? 0) else InvalidArgument ;;
  let s0 := FiniteFunction.identity (FiniteFunction.source w) dtype in
  H0 <- Hypergraph.discrete w x dtype ;;
  new s0 s0 H0.

(** [tensor(f, g)], also written [f @ g]. *)
Definition tensor (f g : OpenHypergraph) : result OpenHypergraph :=
  s0 <- FiniteFunction.tensor (s f) (s g) ;;
  t0 <- FiniteFunction.tensor (t f) (t g) ;;
  H0 <- Hypergraph.coproduct (H f) (H g) ;;
  new s0 t0 H0.

(** [compose(f, g)], also written [f >> g]. *)
Definition compose (f g : OpenHypergraph) : result OpenHypergraph :=
  ft <- target f ;;
  gs <- source g ;;
  check (FiniteFunction.eqb ft gs) else TypeMismatch ;;
  h <- tensor f g ;;
  q0 <- FiniteFunction.inject0 (t f) (Hypergraph.W (H g)) ;;
  q1 <- FiniteFunction.inject1 (s g) (Hypergraph.W (H f)) ;;
  q <- FiniteFunction.coequalizer q0 q1 ;;
  s0 <- FiniteFunction.inject0 (s f) (Hypergraph.W (H g)) ;;
  s1 <- FiniteFunction.compose s0 q ;;
  t0 <- FiniteFunction.inject1 (t g) (Hypergraph.W (H f)) ;;
  t1 <- FiniteFunction.compose t0 q ;;
  H1 <- Hypergraph.coequalize_vertices (H h) q ;;
  new s1 t1 H1.

(** [unit(cls, w, x, dtype)]: the empty open hypergraph; the two assertions
    are guards. *)
Definition unit (w x : FiniteFunction.FiniteFunction) (dtype : DType)
  : result OpenHypergraph :=
  check (FiniteFunction.source w =? 0) else InvalidArgument ;;
  check (FiniteFunction.source x =? 0) else InvalidArgument ;;
  let e := FiniteFunction.initial (Some 0) dtype in
  new e e (Hypergraph.empty w x dtype).

(** [unit_of(self)]: the unit over the signature of [self], in the width of
    [self.s]. *)
Definition unit_of (f : OpenHypergraph) : result OpenHypergraph :=
  let dtype := FiniteFunction.dtype (s f) in
  unit (FiniteFunction.to_initial (Hypergraph.w (H f)))
       (FiniteFunction.to_initial (Hypergraph.x (H f))) dtype.

(** [twist(cls, a, b, x, dtype)]. *)
Definition twist (a b x : FiniteFunction.FiniteFunction) (dtype : DType)
  : result OpenHypergraph :=
  check (FiniteFunction.source x =? 0) else InvalidArgument ;;
  let s0 := FiniteFunction.twist (FiniteFunction.source a) (FiniteFunction.source b) dtype in
  let t0 := FiniteFunction.identity (FiniteFunction.source a + FiniteFunction.source b) dtype in
  ba <- FiniteFunction.coproduct b a ;;
  H0 <- Hypergraph.discrete ba x dtype ;;
  new s0 t0 H0.

(** [dagger(self)]. *)
Definition dagger (f : OpenHypergraph) : result OpenHypergraph :=
  new (t f) (s f) (H f).

(** [dtype or s.table.dtype]: a width that is given wins, [None] falls back
    to the width of [s]. *)
Definition dtype_or (dtype : option DType) (s0 : FiniteFunction.FiniteFunction)
  : DType :=
  match dtype with
  | Some d => d
  | None => FiniteFunction.dtype s0
  end.

(** [spider(cls, s, t, w, x, dtype=None)]. *)
Definition spider (s0 t0 w x : FiniteFunction.FiniteFunction) (dtype : option DType)
  : result OpenHypergraph :=
  let dtype := dtype_or dtype s0 in
  H0 <- Hypergraph.discrete w x dtype ;;
  new s0 t0 H0.

(** [tensor_operations(cls, x, a, b, dtype)]: [N] operations side by side.
    The first [ValueError] (targets or widths of [a] and [b] differ) is
    [TypeMismatch], the second (lengths differ) is [LengthMismatch]; the local
    [w] of the source is never used. *)
Definition tensor_operations (x : FiniteFunction.FiniteFunction)
           (a b : IndexedCoproduct.IndexedCoproduct) (dtype : DType)
  : result OpenHypergraph :=
  check (opt_eqb (FiniteFunction.target (IndexedCoproduct.values b))
                 (FiniteFunction.target (IndexedCoproduct.values a))
         && (FiniteFunction.dtype (IndexedCoproduct.values b)
             =? FiniteFunction.dtype (IndexedCoproduct.values a)))
    else TypeMismatch ;;
  let w := FiniteFunction.to_initial (IndexedCoproduct.values a) in
  check ((FiniteFunction.source x =? IndexedCoproduct.len a)
         && (FiniteFunction.source x =? IndexedCoproduct.len b))
    else LengthMismatch ;;
  let s0 := FiniteFunction.inj0 (FiniteFunction.source (IndexedCoproduct.values a))
                                (FiniteFunction.source (IndexedCoproduct.values b)) dtype in
  let t0 := FiniteFunction.inj1 (FiniteFunction.source (IndexedCoproduct.values a))
                                (FiniteFunction.source (IndexedCoproduct.values b)) dtype in
  ab <- FiniteFunction.coproduct (IndexedCoproduct.values a) (IndexedCoproduct.values b) ;;
  let H0 := Hypergraph.mk (IndexedCoproduct.mk (IndexedCoproduct.sources a) s0)
                          (IndexedCoproduct.mk (IndexedCoproduct.sources b) t0)
                          ab x in
  new s0 t0 H0.

Section Defaults.

(** The constant [DTYPE] imported from [finite_function]: the width that a
    call takes when it passes none. *)
Variable DTYPE : DType.

(** Modelled from the spec: a width argument that reaches the array
    substrate as [None] selects the default width. *)
Definition width (dtype : option DType) : DType :=
  match dtype with
  | Some d => d
  | None => DTYPE
  end.

(** [half_spider(cls, s, w, x, dtype=None)]; the identity is built by
    [identity(len(w))], without a width. *)
Definition half_spider (s0 w x : FiniteFunction.FiniteFunction)
           (dtype : option DType) : result OpenHypergraph :=
  let dtype := dtype_or dtype s0 in
  let t0 := FiniteFunction.identity (FiniteFunction.source w) DTYPE in
  spider s0 t0 w x (Some dtype).

(** [singleton(cls, x, a, b, dtype=None)]. *)
Definition singleton (x a b : FiniteFunction.FiniteFunction)
           (dtype : option DType) : result OpenHypergraph :=
  check (FiniteFunction.source x =? 1) else ArityMismatch ;;
  check (opt_eqb (FiniteFunction.target a) (FiniteFunction.target b))
    else ArityMismatch ;;
  let s0 := FiniteFunction.inj0 (FiniteFunction.source a) (FiniteFunction.source b)
                                (width dtype) in
  let t0 := FiniteFunction.inj1 (FiniteFunction.source a) (FiniteFunction.source b)
                                (width dtype) in
  ab <- FiniteFunction.coproduct a b ;;
  let H0 := Hypergraph.mk (IndexedCoproduct.singleton s0 (width dtype))
                          (IndexedCoproduct.singleton t0 (width dtype))
                          ab x in
  new s0 t0 H0.

End Defaults.

End OpenHypergraph.

(** ** Optic ([functor/optic.py]), object part and block interleaving *)

Module Optic.

(** Entry-wise sum of two arrays, numpy's [+]; the two arrays have one length
    where it is used, after the assertion [len(FA) == len(RA)]. *)
Definition add_arrays (l r : list nat) : list nat :=
  map (fun ab => fst ab + snd ab) (combine l r).

(** [interleave_blocks(self, A, B, x)]. *)
Definition interleave_blocks (A B : IndexedCoproduct.IndexedCoproduct)
           (x : FiniteFunction.FiniteFunction)
  : result OpenHypergraph.OpenHypergraph :=
  check (IndexedCoproduct.len A =? IndexedCoproduct.len B) else LengthMismatch ;;
  AB <- IndexedCoproduct.coproduct A B ;;
  let dtype := IndexedCoproduct.dtype AB in
  let s0 := FiniteFunction.identity
              (FiniteFunction.source (IndexedCoproduct.values AB)) dtype in
  t0 <- FiniteFunction.injections (IndexedCoproduct.sources AB)
          (FiniteFunction.transpose 2 (IndexedCoproduct.len A) dtype) ;;
  OpenHypergraph.spider s0 t0 (IndexedCoproduct.values AB) x None.

Section Functors.

(** The forward and the reverse functor of the optic, [self.F] and
    [self.R]; only their object maps are used here. *)
Variable F_map_objects :
  FiniteFunction.FiniteFunction -> DType -> result IndexedCoproduct.IndexedCoproduct.
Variable R_map_objects :
  FiniteFunction.FiniteFunction -> DType -> result IndexedCoproduct.IndexedCoproduct.

(** [map_objects(self, A, dtype)]. *)
Definition map_objects (A : FiniteFunction.FiniteFunction) (dtype : DType)
  : result IndexedCoproduct.IndexedCoproduct :=
  FA <- F_map_objects A dtype ;;
  RA <- R_map_objects A dtype ;;
  check (IndexedCoproduct.len FA =? IndexedCoproduct.len RA) else StructuralMismatch ;;
  let n := IndexedCoproduct.len FA in
  paired <- IndexedCoproduct.coproduct FA RA ;;
  let p := FiniteFunction.transpose 2 n dtype in
  let sources :=
    FiniteFunction.mk None
      (add_arrays (FiniteFunction.table (IndexedCoproduct.sources FA))
                  (FiniteFunction.table (IndexedCoproduct.sources RA)))
      dtype in
  mapped <- IndexedCoproduct.map_indexes paired p ;;
  Ok (IndexedCoproduct.mk sources (IndexedCoproduct.values mapped)).

End Functors.

End Optic.

(** ** Vocabulary of the statements *)

(** The half spider in the words of the specification: the spider whose [t] is
    the identity on [len(w)], in the width of the call. *)
Definition half_spider_as_specified (s w x : FiniteFunction.FiniteFunction)
           (dtype : option DType) : result OpenHypergraph.OpenHypergraph :=
  OpenHypergraph.spider s
    (FiniteFunction.identity (FiniteFunction.source w) (OpenHypergraph.dtype_or dtype s))
    w x dtype.

(** [lab] labels the [n] vertices by representatives: the label of a vertex is
    a vertex, it is its own label, and [phi] does not tell the two apart. *)
Definition labelled (n : nat) (phi : nat -> nat) (lab : list nat) : Prop :=
  length lab = n
  /\ forall i, i < n ->
       nth i lab 0 < n
       /\ nth (nth i lab 0) lab 0 = nth i lab 0
       /\ phi (nth i lab 0) = phi i.

(** An edge between two of the [n] vertices on whose ends [phi] agrees. *)
Definition respected (n : nat) (phi : nat -> nat) (e : nat * nat) : Prop :=
  fst e < n /\ snd e < n /\ phi (fst e) = phi (snd e).

(** The two ends of an edge carry one label. *)
Definition joined (lab : list nat) (e : nat * nat) : Prop :=
  nth (fst e) lab 0 = nth (snd e) lab 0.

(** ** Sample values

    Small concrete diagrams over an alphabet of five wire types and seven
    operations, on which the statements below are exercised. *)

Module Samples.

Definition int32 : DType := 32.
Definition int64 : DType := 64.

Definition fn (m : nat) (l : list nat) : FiniteFunction.FiniteFunction :=
  FiniteFunction.mk (Some m) l int64.

Definition sizes (l : list nat) : FiniteFunction.FiniteFunction :=
  FiniteFunction.mk None l int64.

Definition no_ops : FiniteFunction.FiniteFunction := fn 7 [].
Definition one_op : FiniteFunction.FiniteFunction := fn 7 [3].
Definition a : FiniteFunction.FiniteFunction := fn 5 [1; 2].
Definition b : FiniteFunction.FiniteFunction := fn 5 [3; 4; 0].
Definition c : FiniteFunction.FiniteFunction := fn 5 [1].
Definition c' : FiniteFunction.FiniteFunction := fn 6 [1].

(** One operation of type [a -> b]. *)
Definition f : OpenHypergraph.OpenHypergraph :=
  OpenHypergraph.mk (fn 5 [0; 1]) (fn 5 [2; 3; 4])
    (Hypergraph.mk
       (IndexedCoproduct.mk (sizes [2]) (fn 5 [0; 1]))
       (IndexedCoproduct.mk (sizes [3]) (fn 5 [2; 3; 4]))
       (fn 5 [1; 2; 3; 4; 0]) one_op).

(** One operation of type [b -> c]. *)
Definition g : OpenHypergraph.OpenHypergraph :=
  OpenHypergraph.mk (fn 4 [0; 1; 2]) (fn 4 [3])
    (Hypergraph.mk
       (IndexedCoproduct.mk (sizes [3]) (fn 4 [0; 1; 2]))
       (IndexedCoproduct.mk (sizes [1]) (fn 4 [3]))
       (fn 5 [3; 4; 0; 1]) (fn 7 [4])).

(** The composite [f >> g]: the three wires of type [b] are shared. *)
Definition fg : OpenHypergraph.OpenHypergraph :=
  OpenHypergraph.mk (fn 6 [0; 1]) (fn 6 [5])
    (Hypergraph.mk
       (IndexedCoproduct.mk (sizes [2; 3]) (fn 6 [0; 1; 2; 3; 4]))
       (IndexedCoproduct.mk (sizes [3; 1]) (fn 6 [2; 3; 4; 5]))
       (fn 5 [1; 2; 3; 4; 0; 1]) (fn 7 [3; 4])).

(** Two blocks of sizes 1 and 2, and two blocks of sizes 2 and 0. *)
Definition A : IndexedCoproduct.IndexedCoproduct :=
  IndexedCoproduct.mk (sizes [1; 2]) (fn 5 [0; 1; 2]).
Definition B : IndexedCoproduct.IndexedCoproduct :=
  IndexedCoproduct.mk (sizes [2; 0]) (fn 5 [3; 4]).
(** No block at all. *)
Definition E : IndexedCoproduct.IndexedCoproduct :=
  IndexedCoproduct.mk (sizes []) (fn 5 []).
(** Three blocks. *)
Definition C : IndexedCoproduct.IndexedCoproduct :=
  IndexedCoproduct.mk (sizes [1; 1; 1]) (fn 5 [0; 1; 2]).

(** No wire: the empty type list. *)
Definition nothing : FiniteFunction.FiniteFunction := fn 5 [].

(** The identity on one wire of a type alphabet with six letters. *)
Definition k : OpenHypergraph.OpenHypergraph :=
  OpenHypergraph.mk (fn 1 [0]) (fn 1 [0])
    (Hypergraph.mk
       (IndexedCoproduct.mk (sizes []) (fn 1 []))
       (IndexedCoproduct.mk (sizes []) (fn 1 []))
       c' no_ops).

(** The identity on one wire of type 1, in the width 32. *)
Definition f32 : OpenHypergraph.OpenHypergraph :=
  OpenHypergraph.mk (FiniteFunction.mk (Some 1) [0] int32) (FiniteFunction.mk (Some 1) [0] int32)
    (Hypergraph.mk
       (IndexedCoproduct.mk (FiniteFunction.mk None [] int32) (FiniteFunction.mk (Some 1) [] int32))
       (IndexedCoproduct.mk (FiniteFunction.mk None [] int32) (FiniteFunction.mk (Some 1) [] int32))
       (FiniteFunction.mk (Some 5) [1] int32) (FiniteFunction.mk (Some 7) [] int32)).

(** Arrays in the width 32. *)
Definition s32 : FiniteFunction.FiniteFunction := FiniteFunction.mk (Some 1) [0; 0] int32.
Definition w32 : FiniteFunction.FiniteFunction := FiniteFunction.mk (Some 5) [1] int32.
Definition x32 : FiniteFunction.FiniteFunction := FiniteFunction.mk (Some 7) [] int32.

End Samples.

(** * Properties *)

(** ** The error monad and the comparisons *)

Lemma bind_Ok_inv (A B : Type) (c : result A) (k : A -> result B) (b : B) :
  bind c k = Ok b -> exists a, c = Ok a /\ k a = Ok b.
Proof.
  destruct c as [a|e]; simpl; intros E; [eauto | discriminate].
Qed.

Lemma require_Ok_inv (e : error) (b : bool) (u : unit) :
  require e b = Ok u -> b = true.
Proof.
  destruct b; simpl; [reflexivity | discriminate].
Qed.

Lemma opt_eqb_eq (a b : option nat) : opt_eqb a b = true <-> a = b.
Proof.
  destruct a as [n|], b as [m|]; simpl; split; intros E;
    try discriminate; try reflexivity.
  - apply Nat.eqb_eq in E. now subst.
  - injection E as ->. apply Nat.eqb_refl.
Qed.

Lemma opt_eqb_refl (a : option nat) : opt_eqb a a = true.
Proof. now apply opt_eqb_eq. Qed.

Lemma list_eqb_eq (l r : list nat) : list_eqb l r = true <-> l = r.
Proof.
  revert r; induction l as [|a l IH]; intros [|b r]; simpl; split; intros E;
    try discriminate; try reflexivity.
  - apply andb_true_iff in E as [E1 E2].
    apply Nat.eqb_eq in E1. apply IH in E2. now subst.
  - injection E as -> ->. rewrite Nat.eqb_refl. simpl. now apply IH.
Qed.

Lemma ff_eqb_eq (f g : FiniteFunction.FiniteFunction) :
  FiniteFunction.eqb f g = true <-> f = g.
Proof.
  unfold FiniteFunction.eqb. destruct f as [tf lf df], g as [tg lg dg]; simpl.
  rewrite !andb_true_iff, opt_eqb_eq, list_eqb_eq, Nat.eqb_eq.
  split.
  - intros [[-> ->] ->]. reflexivity.
  - intros E. injection E as -> -> ->. auto.
Qed.

Lemma ff_eqb_refl (f : FiniteFunction.FiniteFunction) : FiniteFunction.eqb f f = true.
Proof. now apply ff_eqb_eq. Qed.

Lemma ff_eqb_neq (f g : FiniteFunction.FiniteFunction) :
  f <> g -> FiniteFunction.eqb f g = false.
Proof.
  intros N. destruct (FiniteFunction.eqb f g) eqn:E; [|reflexivity].
  apply ff_eqb_eq in E. contradiction.
Qed.

(** The constructor succeeds exactly on three equal widths. *)
Lemma new_Ok (s t : FiniteFunction.FiniteFunction) (H : Hypergraph.Hypergraph) :
  FiniteFunction.dtype s = FiniteFunction.dtype t ->
  FiniteFunction.dtype t = Hypergraph.dtype H ->
  OpenHypergraph.new s t H = Ok (OpenHypergraph.mk s t H).
Proof.
  intros E1 E2. unfold OpenHypergraph.new.
  rewrite E1, E2, !Nat.eqb_refl. reflexivity.
Qed.

Lemma new_Ok_inv (s t : FiniteFunction.FiniteFunction) (H : Hypergraph.Hypergraph)
      (f : OpenHypergraph.OpenHypergraph) :
  OpenHypergraph.new s t H = Ok f ->
  f = OpenHypergraph.mk s t H
  /\ FiniteFunction.dtype s = FiniteFunction.dtype t
  /\ FiniteFunction.dtype t = Hypergraph.dtype H.
Proof.
  unfold OpenHypergraph.new. intros E.
  apply bind_Ok_inv in E as [u [E1 E2]].
  apply require_Ok_inv in E1. apply andb_true_iff in E1 as [E1 E3].
  apply Nat.eqb_eq in E1. apply Nat.eqb_eq in E3.
  injection E2 as <-. auto.
Qed.

Lemma new_Err (s t : FiniteFunction.FiniteFunction) (H : Hypergraph.Hypergraph) :
  FiniteFunction.dtype s <> FiniteFunction.dtype t
  \/ FiniteFunction.dtype t <> Hypergraph.dtype H ->
  OpenHypergraph.new s t H = Err DtypeMismatch.
Proof.
  intros N. unfold OpenHypergraph.new.
  destruct N as [N|N]; apply Nat.eqb_neq in N; rewrite N;
    [|rewrite andb_false_r]; reflexivity.
Qed.

Lemma constructed_dtypes (f : OpenHypergraph.OpenHypergraph) :
  OpenHypergraph.constructed f ->
  FiniteFunction.dtype (OpenHypergraph.s f) = FiniteFunction.dtype (OpenHypergraph.t f)
  /\ FiniteFunction.dtype (OpenHypergraph.t f) = Hypergraph.dtype (OpenHypergraph.H f).
Proof.
  intros C. apply new_Ok_inv in C. tauto.
Qed.

(** ** Dagger *)

(** C6: for an open hypergraph [f], [f.dagger()] has [s] and [t] exchanged and
    the same [H], and the dagger of the dagger is [f] again. *)
Theorem dagger_involution (f : OpenHypergraph.OpenHypergraph) :
  OpenHypergraph.constructed f ->
  exists g,
    OpenHypergraph.dagger f = Ok g
    /\ OpenHypergraph.s g = OpenHypergraph.t f
    /\ OpenHypergraph.t g = OpenHypergraph.s f
    /\ OpenHypergraph.H g = OpenHypergraph.H f
    /\ OpenHypergraph.dagger g = Ok f.
Proof.
  intros C. destruct (constructed_dtypes C) as [E1 E2].
  destruct f as [s t H]; simpl in *.
  exists (OpenHypergraph.mk t s H). unfold OpenHypergraph.dagger; simpl.
  repeat split.
  - apply new_Ok; congruence.
  - apply new_Ok; congruence.
Qed.

(** ** Array look-ups along an interval *)

Lemma map_nth_seq_app (l1 l2 : list nat) :
  map (fun i => nth i (l1 ++ l2) 0) (seq (length l1) (length l2)) = l2.
Proof.
  revert l1; induction l2 as [|a l2 IH]; intros l1; simpl; [reflexivity|].
  rewrite nth_middle. f_equal.
  specialize (IH (l1 ++ [a])).
  rewrite <- app_assoc, length_app in IH. simpl in IH.
  rewrite Nat.add_1_r in IH. exact IH.
Qed.

Lemma map_nth_seq (l : list nat) :
  map (fun i => nth i l 0) (seq 0 (length l)) = l.
Proof. exact (map_nth_seq_app [] l). Qed.

Lemma map_nth_app_l (l1 l2 js : list nat) :
  Forall (fun i => i < length l1) js ->
  map (fun i => nth i (l1 ++ l2) 0) js = map (fun i => nth i l1 0) js.
Proof.
  intros F. apply map_ext_in. intros i Hi.
  rewrite Forall_forall in F. apply app_nth1. now apply F.
Qed.

Lemma map_nth_seq_app_l (l1 l2 : list nat) :
  map (fun i => nth i (l1 ++ l2) 0) (seq 0 (length l1)) = l1.
Proof.
  rewrite map_nth_app_l.
  - apply map_nth_seq.
  - apply Forall_forall. intros i Hi. apply in_seq in Hi. lia.
Qed.

(** ** Identity *)

(** C10: [identity(w, x, dtype)] raises when [x.source != 0]; otherwise it
    returns the open hypergraph whose two interfaces are the identity on
    [len(w)] wires, over the discrete hypergraph on [w]. *)
Theorem identity_spec (w x : FiniteFunction.FiniteFunction) (dtype : DType) :
  (FiniteFunction.source x <> 0 ->
   OpenHypergraph.identity w x dtype = Err InvalidArgument)
  /\ (FiniteFunction.source x = 0 ->
      exists H0,
        Hypergraph.discrete w x dtype = Ok H0
        /\ Hypergraph.w H0 = w
        /\ Hypergraph.X H0 = 0
        /\ IndexedCoproduct.len (Hypergraph.s H0) = 0
        /\ IndexedCoproduct.len (Hypergraph.t H0) = 0
        /\ OpenHypergraph.identity w x dtype
           = Ok (OpenHypergraph.mk
                   (FiniteFunction.identity (FiniteFunction.source w) dtype)
                   (FiniteFunction.identity (FiniteFunction.source w) dtype)
                   H0)).
Proof.
  unfold OpenHypergraph.identity, Hypergraph.discrete. split.
  - intros N. apply Nat.eqb_neq in N. rewrite N. reflexivity.
  - intros E. rewrite E. simpl.
    eexists. split; [reflexivity|]. simpl.
    unfold Hypergraph.X; simpl.
    repeat split; try assumption.
    apply new_Ok; reflexivity.
Qed.

(** ** Twist *)

Lemma coproduct_Ok (a b : FiniteFunction.FiniteFunction) :
  FiniteFunction.target a = FiniteFunction.target b ->
  FiniteFunction.dtype a = FiniteFunction.dtype b ->
  FiniteFunction.coproduct a b
  = Ok (FiniteFunction.mk (FiniteFunction.target a)
          (FiniteFunction.table a ++ FiniteFunction.table b)
          (FiniteFunction.dtype a)).
Proof.
  intros E1 E2. unfold FiniteFunction.coproduct.
  rewrite E1, E2, opt_eqb_refl, Nat.eqb_refl. reflexivity.
Qed.

Lemma compose_Ok (f g : FiniteFunction.FiniteFunction) :
  FiniteFunction.target f = Some (FiniteFunction.source g) ->
  FiniteFunction.dtype f = FiniteFunction.dtype g ->
  FiniteFunction.compose f g
  = Ok (FiniteFunction.mk (FiniteFunction.target g)
          (map (fun i => nth i (FiniteFunction.table g) 0) (FiniteFunction.table f))
          (FiniteFunction.dtype f)).
Proof.
  intros E1 E2. unfold FiniteFunction.compose.
  rewrite E1, E2, opt_eqb_refl, Nat.eqb_refl. reflexivity.
Qed.

(** C8: [twist(a, b, x)] raises when [len(x) != 0]; otherwise, for [a] and [b]
    typed over one alphabet in the width of the call, it returns an open
    hypergraph without hyperedges whose source type sequence is [a ++ b] and
    whose target type sequence is [b ++ a], and it swaps the two blocks: it
    has exactly [len(a) + len(b)] wires, each at one target position, the
    [i]-th source position of the block [a] is the wire at target position
    [len(b) + i], and the [j]-th source position of the block [b] is the
    wire at target position [j]. *)
Theorem twist_spec (a b x : FiniteFunction.FiniteFunction) (dtype : DType) :
  (FiniteFunction.source x <> 0 ->
   OpenHypergraph.twist a b x dtype = Err InvalidArgument)
  /\ (FiniteFunction.source x = 0 ->
      FiniteFunction.target a = FiniteFunction.target b ->
      FiniteFunction.dtype a = dtype ->
      FiniteFunction.dtype b = dtype ->
      exists f,
        OpenHypergraph.twist a b x dtype = Ok f
        /\ Hypergraph.X (OpenHypergraph.H f) = 0
        /\ IndexedCoproduct.len (Hypergraph.s (OpenHypergraph.H f)) = 0
        /\ IndexedCoproduct.len (Hypergraph.t (OpenHypergraph.H f)) = 0
        /\ OpenHypergraph.source f = FiniteFunction.coproduct a b
        /\ OpenHypergraph.target f = FiniteFunction.coproduct b a
        /\ FiniteFunction.source (OpenHypergraph.s f)
           = FiniteFunction.source a + FiniteFunction.source b
        /\ Hypergraph.W (OpenHypergraph.H f)
           = FiniteFunction.source a + FiniteFunction.source b
        /\ FiniteFunction.table (OpenHypergraph.t f)
           = seq 0 (FiniteFunction.source a + FiniteFunction.source b)
        /\ (forall i, i < FiniteFunction.source a ->
              nth i (FiniteFunction.table (OpenHypergraph.s f)) 0
              = nth (FiniteFunction.source b + i) (FiniteFunction.table (OpenHypergraph.t f)) 0)
        /\ (forall j, j < FiniteFunction.source b ->
              nth (FiniteFunction.source a + j) (FiniteFunction.table (OpenHypergraph.s f)) 0
              = nth j (FiniteFunction.table (OpenHypergraph.t f)) 0)).
Proof.
  unfold OpenHypergraph.twist, Hypergraph.discrete. split.
  - intros N. apply Nat.eqb_neq in N. rewrite N. reflexivity.
  - intros E Et Ea Eb. rewrite E.
    assert (Et' : FiniteFunction.target b = FiniteFunction.target a) by congruence.
    assert (Ed : FiniteFunction.dtype b = FiniteFunction.dtype a) by congruence.
    eexists. split.
    { rewrite (coproduct_Ok b a Et' Ed). simpl. apply new_Ok; reflexivity. }
    unfold OpenHypergraph.source, OpenHypergraph.target, Hypergraph.X, Hypergraph.W,
      FiniteFunction.source; simpl.
    split; [assumption|]. split; [reflexivity|]. split; [reflexivity|].
    split; [|split; [|split; [|split; [|split; [reflexivity|split]]]]].
    + rewrite compose_Ok; simpl.
      * rewrite coproduct_Ok by congruence.
        rewrite map_app, map_nth_seq_app.
        rewrite map_nth_seq_app_l. rewrite <- Et', Ea. reflexivity.
      * unfold FiniteFunction.source; simpl.
        rewrite length_app. f_equal. lia.
      * congruence.
    + rewrite compose_Ok; simpl.
      * rewrite (coproduct_Ok b a Et' Ed).
        replace (length (FiniteFunction.table a) + length (FiniteFunction.table b))
          with (length (FiniteFunction.table b ++ FiniteFunction.table a)).
        -- rewrite map_nth_seq. now rewrite Eb.
        -- rewrite length_app. lia.
      * unfold FiniteFunction.source; simpl. rewrite length_app. f_equal. lia.
      * congruence.
    + rewrite length_app, !length_seq. lia.
    + rewrite length_app. lia.
    + intros i Hi. rewrite app_nth1 by (rewrite length_seq; exact Hi).
      rewrite !seq_nth by lia. reflexivity.
    + intros j Hj.
      replace (length (FiniteFunction.table a) + j)
        with (length (seq (length (FiniteFunction.table b)) (length (FiniteFunction.table a))) + j)
        by (now rewrite length_seq).
      rewrite app_nth2_plus, !seq_nth by lia. reflexivity.
Qed.

(** ** Singleton *)

(** C9: [singleton(x, a, b)] raises when [len(x) != 1] or when
    [a.target != b.target]; otherwise, for [a] and [b] of one width, it returns
    an open hypergraph with exactly one hyperedge, labelled [x], whose source
    interface has [len(a)] entries and whose target interface has [len(b)]. *)
Theorem singleton_spec (DTYPE : DType) (x a b : FiniteFunction.FiniteFunction)
        (dtype : option DType) :
  (FiniteFunction.source x <> 1
   \/ FiniteFunction.target a <> FiniteFunction.target b ->
   OpenHypergraph.singleton DTYPE x a b dtype = Err ArityMismatch)
  /\ (FiniteFunction.source x = 1 ->
      FiniteFunction.target a = FiniteFunction.target b ->
      FiniteFunction.dtype a = FiniteFunction.dtype b ->
      exists f,
        OpenHypergraph.singleton DTYPE x a b dtype = Ok f
        /\ Hypergraph.x (OpenHypergraph.H f) = x
        /\ Hypergraph.X (OpenHypergraph.H f) = 1
        /\ IndexedCoproduct.len (Hypergraph.s (OpenHypergraph.H f)) = 1
        /\ IndexedCoproduct.len (Hypergraph.t (OpenHypergraph.H f)) = 1
        /\ FiniteFunction.source (OpenHypergraph.s f) = FiniteFunction.source a
        /\ FiniteFunction.source (OpenHypergraph.t f) = FiniteFunction.source b
        /\ IndexedCoproduct.blocks (Hypergraph.s (OpenHypergraph.H f))
           = [FiniteFunction.table (OpenHypergraph.s f)]
        /\ IndexedCoproduct.blocks (Hypergraph.t (OpenHypergraph.H f))
           = [FiniteFunction.table (OpenHypergraph.t f)]).
Proof.
  unfold OpenHypergraph.singleton. split.
  - intros [N|N].
    + apply Nat.eqb_neq in N. rewrite N. reflexivity.
    + destruct (FiniteFunction.source x =? 1); [|reflexivity]. simpl.
      destruct (opt_eqb (FiniteFunction.target a) (FiniteFunction.target b)) eqn:E;
        [|reflexivity].
      apply opt_eqb_eq in E. contradiction.
  - intros E Et Ed. rewrite E, Et, opt_eqb_refl. simpl.
    rewrite coproduct_Ok by congruence. simpl.
    eexists. split; [apply new_Ok; reflexivity|].
    unfold Hypergraph.X, IndexedCoproduct.blocks, IndexedCoproduct.len; simpl.
    unfold FiniteFunction.source in *; simpl.
    rewrite !length_seq, !firstn_all2 by (rewrite length_seq; lia).
    repeat split; assumption.
Qed.

(** ** Half spider *)

(** The code's half spider is the spider whose [t] is the identity in the
    default width, whatever the width of the call. *)
Lemma half_spider_unfold (DTYPE : DType) (s w x : FiniteFunction.FiniteFunction)
      (dtype : option DType) :
  OpenHypergraph.half_spider DTYPE s w x dtype
  = OpenHypergraph.spider s
      (FiniteFunction.identity (FiniteFunction.source w) DTYPE) w x dtype.
Proof.
  unfold OpenHypergraph.half_spider, OpenHypergraph.spider.
  destruct dtype; reflexivity.
Qed.

(** In the default width the code and the specified half spider agree. *)
Lemma half_spider_default (DTYPE : DType) (s w x : FiniteFunction.FiniteFunction)
      (dtype : option DType) :
  OpenHypergraph.dtype_or dtype s = DTYPE ->
  OpenHypergraph.half_spider DTYPE s w x dtype = half_spider_as_specified s w x dtype.
Proof.
  intros E. rewrite half_spider_unfold. unfold half_spider_as_specified.
  now rewrite E.
Qed.

(** C7: in a width other than the default the code fails where the specified
    half spider is defined: the identity is built in the default width, and the
    constructor refuses the mixed widths. *)
Theorem half_spider_width_slip (DTYPE : DType) (s w x : FiniteFunction.FiniteFunction)
        (dtype : option DType) :
  FiniteFunction.source x = 0 ->
  FiniteFunction.dtype s = OpenHypergraph.dtype_or dtype s ->
  OpenHypergraph.dtype_or dtype s <> DTYPE ->
  OpenHypergraph.half_spider DTYPE s w x dtype = Err DtypeMismatch
  /\ exists f,
      half_spider_as_specified s w x dtype = Ok f
      /\ OpenHypergraph.t f
         = FiniteFunction.identity (FiniteFunction.source w) (OpenHypergraph.dtype_or dtype s).
Proof.
  intros Ex Es N.
  unfold OpenHypergraph.half_spider, half_spider_as_specified, OpenHypergraph.spider,
    Hypergraph.discrete.
  rewrite Ex. simpl. split.
  - apply new_Err. simpl. left. congruence.
  - eexists. split; [apply new_Ok; simpl; [exact Es | reflexivity]|].
    reflexivity.
Qed.

(** ** Well-formedness through the array operations *)

Lemma sum_list_app (l r : list nat) : sum_list (l ++ r) = sum_list l + sum_list r.
Proof.
  induction l as [|a l IH]; simpl; [reflexivity|]. rewrite IH. lia.
Qed.

Lemma tensor_Ok (f g : FiniteFunction.FiniteFunction) (m k : nat) :
  FiniteFunction.target f = Some m ->
  FiniteFunction.target g = Some k ->
  FiniteFunction.dtype f = FiniteFunction.dtype g ->
  FiniteFunction.tensor f g
  = Ok (FiniteFunction.mk (Some (m + k))
          (FiniteFunction.table f ++ map (fun i => i + m) (FiniteFunction.table g))
          (FiniteFunction.dtype f)).
Proof.
  intros E1 E2 E3. unfold FiniteFunction.tensor.
  rewrite E1, E2, E3, Nat.eqb_refl. reflexivity.
Qed.

Lemma wf_Some (f : FiniteFunction.FiniteFunction) (m : nat) :
  FiniteFunction.target f = Some m ->
  FiniteFunction.wf f <-> Forall (fun i => i < m) (FiniteFunction.table f).
Proof.
  intros E. unfold FiniteFunction.wf. rewrite E. tauto.
Qed.

Lemma tensor_table_wf (l r : list nat) (m k : nat) :
  Forall (fun i => i < m) l -> Forall (fun i => i < k) r ->
  Forall (fun i => i < m + k) (l ++ map (fun i => i + m) r).
Proof.
  intros Fl Fr. apply Forall_app. split.
  - eapply Forall_impl; [|exact Fl]. simpl. intros; lia.
  - apply Forall_map. eapply Forall_impl; [|exact Fr]. simpl. intros; lia.
Qed.

Lemma coproduct_table_wf (f g : FiniteFunction.FiniteFunction) :
  FiniteFunction.target f = FiniteFunction.target g ->
  FiniteFunction.wf f -> FiniteFunction.wf g ->
  FiniteFunction.wf
    (FiniteFunction.mk (FiniteFunction.target f)
       (FiniteFunction.table f ++ FiniteFunction.table g) (FiniteFunction.dtype f)).
Proof.
  unfold FiniteFunction.wf. intros E Wf Wg. simpl. rewrite <- E in Wg.
  destruct (FiniteFunction.target f); [|exact I].
  apply Forall_app. now split.
Qed.

Lemma compose_table_wf (l : list nat) (g : FiniteFunction.FiniteFunction) :
  Forall (fun i => i < FiniteFunction.source g) l ->
  FiniteFunction.wf g ->
  FiniteFunction.wf
    (FiniteFunction.mk (FiniteFunction.target g)
       (map (fun i => nth i (FiniteFunction.table g) 0) l) (FiniteFunction.dtype g)).
Proof.
  unfold FiniteFunction.wf, FiniteFunction.source. intros Fl Wg. simpl.
  destruct (FiniteFunction.target g) as [m|]; [|exact I].
  apply Forall_map. eapply Forall_impl; [|exact Fl]. simpl.
  intros i Hi. rewrite Forall_forall in Wg. apply Wg. now apply nth_In.
Qed.

(** Every array of a well-formed open hypergraph has the width of the whole. *)
Lemma wf_dtypes (f : OpenHypergraph.OpenHypergraph) :
  OpenHypergraph.wf f ->
  FiniteFunction.dtype (OpenHypergraph.t f) = OpenHypergraph.dtype f
  /\ Hypergraph.dtype (OpenHypergraph.H f) = OpenHypergraph.dtype f
  /\ FiniteFunction.dtype (IndexedCoproduct.values (Hypergraph.s (OpenHypergraph.H f)))
     = OpenHypergraph.dtype f
  /\ FiniteFunction.dtype (IndexedCoproduct.sources (Hypergraph.s (OpenHypergraph.H f)))
     = OpenHypergraph.dtype f
  /\ FiniteFunction.dtype (IndexedCoproduct.values (Hypergraph.t (OpenHypergraph.H f)))
     = OpenHypergraph.dtype f
  /\ FiniteFunction.dtype (IndexedCoproduct.sources (Hypergraph.t (OpenHypergraph.H f)))
     = OpenHypergraph.dtype f
  /\ FiniteFunction.dtype (Hypergraph.w (OpenHypergraph.H f)) = OpenHypergraph.dtype f
  /\ FiniteFunction.dtype (Hypergraph.x (OpenHypergraph.H f)) = OpenHypergraph.dtype f.
Proof.
  intros [C [_ [_ [_ [_ WH]]]]].
  destruct (constructed_dtypes C) as [E1 E2].
  destruct WH as [[_ [Ds _]] [[_ [Dt _]] [_ [_ [_ [_ [_ [_ [_ [_ [D1 [D2 D3]]]]]]]]]]]].
  unfold OpenHypergraph.dtype, Hypergraph.dtype, IndexedCoproduct.dtype in *.
  repeat split; congruence.
Qed.

(** ** Disjoint union of hypergraphs and tensor of open hypergraphs *)

Lemma ic_tensor_Ok (A B : IndexedCoproduct.IndexedCoproduct) (m k : nat) :
  FiniteFunction.target (IndexedCoproduct.sources A)
  = FiniteFunction.target (IndexedCoproduct.sources B) ->
  FiniteFunction.dtype (IndexedCoproduct.sources A)
  = FiniteFunction.dtype (IndexedCoproduct.sources B) ->
  FiniteFunction.target (IndexedCoproduct.values A) = Some m ->
  FiniteFunction.target (IndexedCoproduct.values B) = Some k ->
  FiniteFunction.dtype (IndexedCoproduct.values A)
  = FiniteFunction.dtype (IndexedCoproduct.values B) ->
  IndexedCoproduct.tensor A B
  = Ok (IndexedCoproduct.mk
          (FiniteFunction.mk (FiniteFunction.target (IndexedCoproduct.sources A))
             (FiniteFunction.table (IndexedCoproduct.sources A)
              ++ FiniteFunction.table (IndexedCoproduct.sources B))
             (FiniteFunction.dtype (IndexedCoproduct.sources A)))
          (FiniteFunction.mk (Some (m + k))
             (FiniteFunction.table (IndexedCoproduct.values A)
              ++ map (fun i => i + m) (FiniteFunction.table (IndexedCoproduct.values B)))
             (FiniteFunction.dtype (IndexedCoproduct.values A)))).
Proof.
  intros E1 E2 E3 E4 E5. unfold IndexedCoproduct.tensor.
  rewrite (coproduct_Ok _ _ E1 E2). simpl.
  rewrite (tensor_Ok _ _ E3 E4 E5). reflexivity.
Qed.

Lemma ic_tensor_wf (A B : IndexedCoproduct.IndexedCoproduct) (m k : nat)
      (st : option nat) :
  IndexedCoproduct.wf A -> IndexedCoproduct.wf B ->
  FiniteFunction.target (IndexedCoproduct.values A) = Some m ->
  FiniteFunction.target (IndexedCoproduct.values B) = Some k ->
  IndexedCoproduct.wf
    (IndexedCoproduct.mk
       (FiniteFunction.mk st
          (FiniteFunction.table (IndexedCoproduct.sources A)
           ++ FiniteFunction.table (IndexedCoproduct.sources B))
          (FiniteFunction.dtype (IndexedCoproduct.sources A)))
       (FiniteFunction.mk (Some (m + k))
          (FiniteFunction.table (IndexedCoproduct.values A)
           ++ map (fun i => i + m) (FiniteFunction.table (IndexedCoproduct.values B)))
          (FiniteFunction.dtype (IndexedCoproduct.values A)))).
Proof.
  intros [SA [DA WA]] [SB [DB WB]] EA EB.
  unfold IndexedCoproduct.wf, FiniteFunction.source in *; simpl.
  repeat split.
  - rewrite sum_list_app, length_app, length_map. congruence.
  - exact DA.
  - unfold FiniteFunction.wf; simpl.
    apply tensor_table_wf; [now apply (wf_Some _ EA) | now apply (wf_Some _ EB)].
Qed.

Lemma hg_coproduct_spec (G K : Hypergraph.Hypergraph) :
  Hypergraph.wf G -> Hypergraph.wf K ->
  Hypergraph.dtype G = Hypergraph.dtype K ->
  FiniteFunction.target (Hypergraph.w G) = FiniteFunction.target (Hypergraph.w K) ->
  FiniteFunction.target (Hypergraph.x G) = FiniteFunction.target (Hypergraph.x K) ->
  exists H0,
    Hypergraph.coproduct G K = Ok H0
    /\ Hypergraph.wf H0
    /\ Hypergraph.dtype H0 = Hypergraph.dtype G
    /\ Hypergraph.W H0 = Hypergraph.W G + Hypergraph.W K
    /\ Hypergraph.X H0 = Hypergraph.X G + Hypergraph.X K
    /\ Hypergraph.w H0
       = FiniteFunction.mk (FiniteFunction.target (Hypergraph.w G))
           (FiniteFunction.table (Hypergraph.w G) ++ FiniteFunction.table (Hypergraph.w K))
           (FiniteFunction.dtype (Hypergraph.w G))
    /\ Hypergraph.x H0
       = FiniteFunction.mk (FiniteFunction.target (Hypergraph.x G))
           (FiniteFunction.table (Hypergraph.x G) ++ FiniteFunction.table (Hypergraph.x K))
           (FiniteFunction.dtype (Hypergraph.x G)).
Proof.
  intros WG WK Ed Ew Ex.
  pose proof WG as [sG [tG [lsG [ltG [vsG [vtG [ssG [stG [wG [xG [d1G [d2G d3G]]]]]]]]]]]].
  pose proof WK as [sK [tK [lsK [ltK [vsK [vtK [ssK [stK [wK [xK [d1K [d2K d3K]]]]]]]]]]]].
  pose proof sG as [_ [dsG _]]. pose proof tG as [_ [dtG _]].
  pose proof sK as [_ [dsK _]]. pose proof tK as [_ [dtK _]].
  unfold Hypergraph.dtype, IndexedCoproduct.dtype in *.
  unfold Hypergraph.coproduct.
  rewrite (@ic_tensor_Ok (Hypergraph.s G) (Hypergraph.s K) (Hypergraph.W G) (Hypergraph.W K))
    by congruence.
  rewrite (@ic_tensor_Ok (Hypergraph.t G) (Hypergraph.t K) (Hypergraph.W G) (Hypergraph.W K))
    by congruence.
  rewrite (coproduct_Ok (Hypergraph.w G) (Hypergraph.w K)) by congruence.
  rewrite (coproduct_Ok (Hypergraph.x G) (Hypergraph.x K)) by congruence.
  simpl. eexists. split; [reflexivity|].
  split; [|unfold Hypergraph.W, Hypergraph.X, Hypergraph.dtype, IndexedCoproduct.dtype,
            FiniteFunction.source; simpl; rewrite !length_app; repeat split; reflexivity].
  unfold Hypergraph.wf, Hypergraph.dtype, IndexedCoproduct.dtype; simpl.
  split; [apply ic_tensor_wf; assumption|].
  split; [apply ic_tensor_wf; assumption|].
  unfold IndexedCoproduct.len, Hypergraph.X, Hypergraph.W, FiniteFunction.source in *.
  simpl. rewrite !length_app.
  repeat split; try congruence.
  - apply coproduct_table_wf; assumption.
  - apply coproduct_table_wf; assumption.
Qed.

(** The tensor of two open hypergraphs of one computation. *)
Lemma tensor_defined (f g : OpenHypergraph.OpenHypergraph) :
  OpenHypergraph.wf f -> OpenHypergraph.wf g ->
  OpenHypergraph.same_signature f g ->
  exists s0 t0 H0,
    FiniteFunction.tensor (OpenHypergraph.s f) (OpenHypergraph.s g) = Ok s0
    /\ FiniteFunction.tensor (OpenHypergraph.t f) (OpenHypergraph.t g) = Ok t0
    /\ Hypergraph.coproduct (OpenHypergraph.H f) (OpenHypergraph.H g) = Ok H0
    /\ OpenHypergraph.tensor f g = Ok (OpenHypergraph.mk s0 t0 H0)
    /\ Hypergraph.W H0
       = Hypergraph.W (OpenHypergraph.H f) + Hypergraph.W (OpenHypergraph.H g)
    /\ FiniteFunction.table (Hypergraph.w H0)
       = FiniteFunction.table (Hypergraph.w (OpenHypergraph.H f))
         ++ FiniteFunction.table (Hypergraph.w (OpenHypergraph.H g))
    /\ OpenHypergraph.wf (OpenHypergraph.mk s0 t0 H0).
Proof.
  intros Wf Wg [Sd [Sw Sx]].
  destruct (wf_dtypes Wf) as [Dtf [DHf _]].
  destruct (wf_dtypes Wg) as [Dtg [DHg _]].
  pose proof Wf as [_ [Tsf [Ttf [Fsf [Ftf WHf]]]]].
  pose proof Wg as [_ [Tsg [Ttg [Fsg [Ftg WHg]]]]].
  unfold OpenHypergraph.dtype in *.
  destruct (hg_coproduct_spec WHf WHg) as [H0 [EH [WH0 [DH0 [W0 [X0 [w0 x0]]]]]]];
    try congruence.
  set (s0 := FiniteFunction.mk
            (Some (Hypergraph.W (OpenHypergraph.H f) + Hypergraph.W (OpenHypergraph.H g)))
            (FiniteFunction.table (OpenHypergraph.s f)
             ++ map (fun i => i + Hypergraph.W (OpenHypergraph.H f))
                    (FiniteFunction.table (OpenHypergraph.s g)))
            (FiniteFunction.dtype (OpenHypergraph.s f))).
  set (t0 := FiniteFunction.mk
            (Some (Hypergraph.W (OpenHypergraph.H f) + Hypergraph.W (OpenHypergraph.H g)))
            (FiniteFunction.table (OpenHypergraph.t f)
             ++ map (fun i => i + Hypergraph.W (OpenHypergraph.H f))
                    (FiniteFunction.table (OpenHypergraph.t g)))
            (FiniteFunction.dtype (OpenHypergraph.t f))).
  exists s0, t0, H0.
  assert (Es : FiniteFunction.tensor (OpenHypergraph.s f) (OpenHypergraph.s g) = Ok s0)
    by (apply tensor_Ok; assumption).
  assert (Et' : FiniteFunction.tensor (OpenHypergraph.t f) (OpenHypergraph.t g) = Ok t0)
    by (apply tensor_Ok; congruence).
  assert (En : OpenHypergraph.new s0 t0 H0 = Ok (OpenHypergraph.mk s0 t0 H0))
    by (apply new_Ok; simpl; congruence).
  split; [exact Es|]. split; [exact Et'|]. split; [exact EH|].
  split; [unfold OpenHypergraph.tensor; rewrite Es, Et', EH; simpl; exact En|].
  split; [exact W0|]. split; [rewrite w0; reflexivity|].
  unfold OpenHypergraph.wf, OpenHypergraph.constructed; simpl.
  split; [exact En|]. rewrite W0.
  split; [reflexivity|]. split; [reflexivity|].
  split; [|split; [|exact WH0]].
  - unfold FiniteFunction.wf; simpl. apply tensor_table_wf.
    + now apply (wf_Some _ Tsf).
    + now apply (wf_Some _ Tsg).
  - unfold FiniteFunction.wf; simpl. apply tensor_table_wf.
    + now apply (wf_Some _ Ttf).
    + now apply (wf_Some _ Ttg).
Qed.

(** A tensor that is returned was taken over one width and one pair of
    label alphabets. *)
Lemma tensor_Ok_signature (f g h : OpenHypergraph.OpenHypergraph) :
  OpenHypergraph.tensor f g = Ok h -> OpenHypergraph.same_signature f g.
Proof.
  unfold OpenHypergraph.tensor. intros E.
  apply bind_Ok_inv in E as [s0 [Es E]].
  apply bind_Ok_inv in E as [t0 [_ E]].
  apply bind_Ok_inv in E as [H0 [EH _]].
  unfold OpenHypergraph.same_signature, OpenHypergraph.dtype.
  split; [|split].
  - unfold FiniteFunction.tensor in Es.
    destruct (FiniteFunction.target (OpenHypergraph.s f)); [|discriminate].
    destruct (FiniteFunction.target (OpenHypergraph.s g)); [|discriminate].
    apply bind_Ok_inv in Es as [u [Ed _]]. apply require_Ok_inv in Ed.
    now apply Nat.eqb_eq in Ed.
  - unfold Hypergraph.coproduct in EH.
    apply bind_Ok_inv in EH as [s' [_ EH]].
    apply bind_Ok_inv in EH as [t' [_ EH]].
    apply bind_Ok_inv in EH as [w' [Ew _]].
    unfold FiniteFunction.coproduct in Ew.
    apply bind_Ok_inv in Ew as [u [Et _]]. apply require_Ok_inv in Et.
    now apply opt_eqb_eq in Et.
  - unfold Hypergraph.coproduct in EH.
    apply bind_Ok_inv in EH as [s' [_ EH]].
    apply bind_Ok_inv in EH as [t' [_ EH]].
    apply bind_Ok_inv in EH as [w' [_ EH]].
    apply bind_Ok_inv in EH as [x' [Ex _]].
    unfold FiniteFunction.coproduct in Ex.
    apply bind_Ok_inv in Ex as [u [Et _]]. apply require_Ok_inv in Et.
    now apply opt_eqb_eq in Et.
Qed.

(** C3: the tensor [f @ g] is not defined for every pair: operands that
    differ in width or in one of the two label alphabets are refused.  For
    two well-formed open hypergraphs of one computation (one width, one pair
    of label alphabets) it is defined; its interfaces are the tensors of the
    interfaces, its hypergraph is the disjoint union, and no wire is merged:
    the wires of the result are those of [f] followed by those of [g]. *)
Theorem tensor_spec (f g : OpenHypergraph.OpenHypergraph) :
  (~ OpenHypergraph.same_signature f g ->
   exists e, OpenHypergraph.tensor f g = Err e)
  /\ (OpenHypergraph.wf f -> OpenHypergraph.wf g ->
      OpenHypergraph.same_signature f g ->
      exists h,
        OpenHypergraph.tensor f g = Ok h
        /\ FiniteFunction.tensor (OpenHypergraph.s f) (OpenHypergraph.s g)
           = Ok (OpenHypergraph.s h)
        /\ FiniteFunction.tensor (OpenHypergraph.t f) (OpenHypergraph.t g)
           = Ok (OpenHypergraph.t h)
        /\ Hypergraph.coproduct (OpenHypergraph.H f) (OpenHypergraph.H g)
           = Ok (OpenHypergraph.H h)
        /\ Hypergraph.W (OpenHypergraph.H h)
           = Hypergraph.W (OpenHypergraph.H f) + Hypergraph.W (OpenHypergraph.H g)
        /\ FiniteFunction.table (Hypergraph.w (OpenHypergraph.H h))
           = FiniteFunction.table (Hypergraph.w (OpenHypergraph.H f))
             ++ FiniteFunction.table (Hypergraph.w (OpenHypergraph.H g))
        /\ OpenHypergraph.wf h).
Proof.
  split.
  - intros N. destruct (OpenHypergraph.tensor f g) as [h|e] eqn:E.
    + exfalso. apply N. exact (tensor_Ok_signature _ _ E).
    + exists e. reflexivity.
  - intros Wf Wg Sig.
    destruct (tensor_defined Wf Wg Sig) as [s0 [t0 [H0 [Es [Et [EH [E [W0 [w0 Wh]]]]]]]]].
    exists (OpenHypergraph.mk s0 t0 H0). simpl.
    split; [exact E|]. split; [exact Es|]. split; [exact Et|].
    split; [exact EH|]. split; [exact W0|]. split; [exact w0 | exact Wh].
Qed.

(** The tensor is partial: a well-formed identity over six wire types, and
    one in the width 32, do not tensor with the sample operation [f] over
    five wire types in the width 64. *)
Lemma tensor_spec_counterexample :
  OpenHypergraph.wf Samples.f
  /\ OpenHypergraph.wf Samples.k
  /\ OpenHypergraph.tensor Samples.f Samples.k = Err TypeMismatch
  /\ OpenHypergraph.wf Samples.f32
  /\ OpenHypergraph.tensor Samples.f Samples.f32 = Err DtypeMismatch.
Proof.
  assert (W : forall h, OpenHypergraph.new (OpenHypergraph.s h) (OpenHypergraph.t h)
                          (OpenHypergraph.H h) = Ok h ->
                        FiniteFunction.target (OpenHypergraph.s h)
                        = Some (Hypergraph.W (OpenHypergraph.H h)) ->
                        FiniteFunction.target (OpenHypergraph.t h)
                        = Some (Hypergraph.W (OpenHypergraph.H h)) ->
                        FiniteFunction.wf (OpenHypergraph.s h) ->
                        FiniteFunction.wf (OpenHypergraph.t h) ->
                        Hypergraph.wf (OpenHypergraph.H h) ->
                        OpenHypergraph.wf h).
  { intros h C Ts Tt Fs Ft WH. unfold OpenHypergraph.wf, OpenHypergraph.constructed.
    do 5 (split; [assumption|]). assumption. }
  split; [|split; [|split; [reflexivity|split; [|reflexivity]]]];
    apply W; try reflexivity;
    unfold Hypergraph.wf, IndexedCoproduct.wf, FiniteFunction.wf; cbn;
    repeat split; repeat constructor.
Qed.

(** ** The coequalizer: labels of connected components *)

Lemma nth_map_in (f : nat -> nat) (l : list nat) (i : nat) :
  i < length l -> nth i (map f l) 0 = f (nth i l 0).
Proof.
  intros Hi. rewrite (nth_indep _ 0 (f 0)) by (now rewrite length_map).
  apply map_nth.
Qed.

Lemma filter_length_lt (p q : nat -> bool) (l : list nat) (x : nat) :
  (forall y, p y = true -> q y = true) ->
  In x l -> p x = false -> q x = true ->
  length (filter p l) < length (filter q l).
Proof.
  intros Hpq. induction l as [|a l IH]; simpl; [contradiction|].
  assert (Hle : length (filter p l) <= length (filter q l)).
  { clear IH. induction l as [|b l IHl]; simpl; [lia|].
    destruct (p b) eqn:Pb.
    - rewrite (Hpq _ Pb). simpl. lia.
    - destruct (q b); simpl; lia. }
  intros [->|Hin] Px Qx.
  - rewrite Px, Qx. simpl. lia.
  - specialize (IH Hin Px Qx). destruct (p a) eqn:Pa.
    + rewrite (Hpq _ Pa). simpl. lia.
    + destruct (q a); simpl; lia.
Qed.

Lemma rank_lt (rs : list nat) (l : nat) :
  In l rs -> FiniteFunction.rank rs l < length rs.
Proof.
  intros Hin. unfold FiniteFunction.rank.
  rewrite <- (filter_true rs) at 2.
  apply filter_length_lt with (x := l); auto.
  apply Nat.ltb_irrefl.
Qed.

Lemma rank_lt_mono (rs : list nat) (l1 l2 : nat) :
  In l1 rs -> l1 < l2 -> FiniteFunction.rank rs l1 < FiniteFunction.rank rs l2.
Proof.
  intros Hin Hlt. unfold FiniteFunction.rank.
  apply filter_length_lt with (x := l1); auto.
  - intros y Hy. apply Nat.ltb_lt in Hy. apply Nat.ltb_lt. lia.
  - apply Nat.ltb_irrefl.
  - now apply Nat.ltb_lt.
Qed.

Lemma rank_inj (rs : list nat) (l1 l2 : nat) :
  In l1 rs -> In l2 rs ->
  FiniteFunction.rank rs l1 = FiniteFunction.rank rs l2 -> l1 = l2.
Proof.
  intros H1 H2 E.
  destruct (Nat.lt_trichotomy l1 l2) as [L|[L|L]]; [|exact L|].
  - pose proof (rank_lt_mono rs H1 L). lia.
  - pose proof (rank_lt_mono rs H2 L). lia.
Qed.

Section Components.

(** [n] vertices, and a map [phi] that takes one value on the two ends of
    every edge. *)
Variable n : nat.
Variable phi : nat -> nat.

Lemma labelled_seq : labelled n phi (seq 0 n).
Proof.
  split; [apply length_seq|]. intros i Hi.
  repeat (rewrite seq_nth by lia; simpl). auto.
Qed.

Lemma labelled_merge (lab : list nat) (e : nat * nat) :
  labelled n phi lab -> respected n phi e -> labelled n phi (FiniteFunction.merge lab e).
Proof.
  intros [L Hlab] [Ha [Hb Hphi]].
  unfold FiniteFunction.merge, FiniteFunction.relabel.
  set (la := nth (fst e) lab 0). set (lb := nth (snd e) lab 0).
  destruct (Hlab _ Ha) as [La [Ia Pa]]. destruct (Hlab _ Hb) as [Lb [Ib Pb]].
  fold la in La, Ia, Pa. fold lb in Lb, Ib, Pb.
  set (hi := Nat.max la lb). set (lo := Nat.min la lb).
  assert (Hlo : lo < n /\ nth lo lab 0 = lo /\ phi lo = phi hi).
  { unfold lo, hi. destruct (Nat.le_ge_cases la lb) as [C|C].
    - rewrite Nat.min_l, Nat.max_r by exact C. repeat split; congruence.
    - rewrite Nat.min_r, Nat.max_l by exact C. repeat split; congruence. }
  destruct Hlo as [Llo [Ilo Plo]].
  split; [now rewrite length_map|].
  intros i Hi. destruct (Hlab _ Hi) as [Li [Ii Pi]].
  rewrite nth_map_in by lia.
  destruct (nth i lab 0 =? hi) eqn:C.
  - apply Nat.eqb_eq in C. split; [exact Llo|]. split.
    + rewrite nth_map_in by lia. rewrite Ilo.
      destruct (lo =? hi); reflexivity.
    + congruence.
  - split; [exact Li|]. split.
    + rewrite nth_map_in by lia. rewrite Ii, C. reflexivity.
    + exact Pi.
Qed.

Lemma labelled_fold (es : list (nat * nat)) (lab : list nat) :
  labelled n phi lab -> Forall (respected n phi) es ->
  labelled n phi (fold_left FiniteFunction.merge es lab).
Proof.
  revert lab; induction es as [|e es IH]; intros lab Hlab Hes; simpl.
  - exact Hlab.
  - inversion Hes; subst. apply IH; [|assumption].
    now apply labelled_merge.
Qed.

Lemma labelled_components (es : list (nat * nat)) :
  Forall (respected n phi) es -> labelled n phi (FiniteFunction.components n es).
Proof.
  intros Hes. apply labelled_fold; [apply labelled_seq | exact Hes].
Qed.

Lemma labelled_root (lab : list nat) (i : nat) :
  labelled n phi lab -> i < n -> In (nth i lab 0) (FiniteFunction.roots lab).
Proof.
  intros [L Hlab] Hi. destruct (Hlab _ Hi) as [Li [Ii _]].
  unfold FiniteFunction.roots. apply filter_In. split.
  - apply in_seq. lia.
  - now apply Nat.eqb_eq.
Qed.

(** The quotient map sends two vertices to one class only when [phi] does
    not tell them apart, and every class number is below the class count. *)
Lemma labelled_quotient (lab : list nat) :
  labelled n phi lab ->
  let q := map (FiniteFunction.rank (FiniteFunction.roots lab)) lab in
  length q = n
  /\ Forall (fun c => c < length (FiniteFunction.roots lab)) q
  /\ forall i j, i < n -> j < n -> nth i q 0 = nth j q 0 -> phi i = phi j.
Proof.
  intros Hl. pose proof Hl as [L Hlab]. simpl.
  split; [now rewrite length_map|]. split.
  - apply Forall_map. apply Forall_forall. intros l Hin.
    apply (In_nth _ _ 0) in Hin as [i [Hi <-]].
    apply rank_lt. apply labelled_root; [exact Hl | lia].
  - intros i j Hi Hj E.
    rewrite !nth_map_in in E by lia.
    apply rank_inj in E; try (apply labelled_root; assumption).
    destruct (Hlab _ Hi) as [_ [_ Pi]]. destruct (Hlab _ Hj) as [_ [_ Pj]].
    congruence.
Qed.

End Components.

(** The quotient really glues: the two ends of every edge get one label. *)

Lemma length_merge (lab : list nat) (e : nat * nat) :
  length (FiniteFunction.merge lab e) = length lab.
Proof.
  unfold FiniteFunction.merge, FiniteFunction.relabel. apply length_map.
Qed.

Lemma length_fold_merge (es : list (nat * nat)) (lab : list nat) :
  length (fold_left FiniteFunction.merge es lab) = length lab.
Proof.
  revert lab; induction es as [|e es IH]; intros lab; simpl; [reflexivity|].
  now rewrite IH, length_merge.
Qed.

Lemma merge_keeps (lab : list nat) (e e' : nat * nat) :
  fst e < length lab -> snd e < length lab ->
  joined lab e -> joined (FiniteFunction.merge lab e') e.
Proof.
  unfold joined, FiniteFunction.merge, FiniteFunction.relabel. intros Ha Hb J.
  rewrite !nth_map_in by assumption. now rewrite J.
Qed.

Lemma merge_joins (lab : list nat) (e : nat * nat) :
  fst e < length lab -> snd e < length lab ->
  joined (FiniteFunction.merge lab e) e.
Proof.
  unfold joined, FiniteFunction.merge, FiniteFunction.relabel. intros Ha Hb.
  rewrite !nth_map_in by assumption.
  set (la := nth (fst e) lab 0). set (lb := nth (snd e) lab 0).
  destruct (Nat.le_ge_cases la lb) as [C|C].
  - rewrite Nat.max_r, Nat.min_l by exact C. rewrite Nat.eqb_refl.
    destruct (la =? lb); reflexivity.
  - rewrite Nat.max_l, Nat.min_r by exact C. rewrite Nat.eqb_refl.
    destruct (lb =? la) eqn:E; [|reflexivity].
    apply Nat.eqb_eq in E. now rewrite E.
Qed.

Lemma fold_keeps (es : list (nat * nat)) (lab : list nat) (e : nat * nat) :
  fst e < length lab -> snd e < length lab ->
  joined lab e -> joined (fold_left FiniteFunction.merge es lab) e.
Proof.
  revert lab; induction es as [|e' es IH]; intros lab Ha Hb J; simpl; [exact J|].
  apply IH; rewrite ?length_merge; try assumption.
  now apply merge_keeps.
Qed.

Lemma fold_joins (es : list (nat * nat)) (lab : list nat) (e : nat * nat) :
  Forall (fun e => fst e < length lab /\ snd e < length lab) es ->
  In e es -> joined (fold_left FiniteFunction.merge es lab) e.
Proof.
  revert lab; induction es as [|e' es IH]; intros lab F Hin; [contradiction|].
  inversion F as [|? ? [Ha Hb] F']; subst. simpl. destruct Hin as [->|Hin].
  - apply fold_keeps; rewrite ?length_merge; try assumption.
    now apply merge_joins.
  - apply IH; [|exact Hin].
    eapply Forall_impl; [|exact F']. simpl. intros ? ?. now rewrite length_merge.
Qed.

(** ** The induced labelling: a scatter into the quotient *)

Lemma length_set_nth (k v : nat) (l : list nat) : length (set_nth k v l) = length l.
Proof.
  revert k; induction l as [|a l IH]; intros [|k]; simpl; auto.
Qed.

Lemma nth_set_nth (k k' v : nat) (l : list nat) :
  nth k (set_nth k' v l) 0
  = if (k =? k') && (k <? length l) then v else nth k l 0.
Proof.
  revert k k'; induction l as [|a l IH]; intros k k'; simpl.
  - rewrite andb_false_r. destruct k; reflexivity.
  - destruct k' as [|k'], k as [|k]; simpl; try reflexivity.
    rewrite IH. reflexivity.
Qed.

Lemma length_scatter (kvs : list (nat * nat)) (u : list nat) :
  length (scatter kvs u) = length u.
Proof.
  revert u; induction kvs as [|kv kvs IH]; intros u; simpl; [reflexivity|].
  unfold scatter in *. simpl. rewrite IH. apply length_set_nth.
Qed.

(** An entry of the result is the old entry or a value that was stored. *)
Lemma scatter_lookup (kvs : list (nat * nat)) (u : list nat) (k : nat) :
  nth k (scatter kvs u) 0 = nth k u 0
  \/ exists v, In (k, v) kvs /\ nth k (scatter kvs u) 0 = v.
Proof.
  revert u; induction kvs as [|[k0 v0] kvs IH]; intros u; [left; reflexivity|].
  unfold scatter in *. simpl.
  destruct (IH (set_nth k0 v0 u)) as [E|[v [Hin E]]].
  - rewrite E, nth_set_nth.
    destruct ((k =? k0) && (k <? length u)) eqn:C; [|left; reflexivity].
    apply andb_true_iff in C as [C _]. apply Nat.eqb_eq in C. subst k0.
    right. exists v0. split; [now left | reflexivity].
  - right. exists v. split; [now right | exact E].
Qed.

(** When the stores agree on every key, each key holds its value. *)
Lemma scatter_stored (kvs : list (nat * nat)) (u : list nat) (k v : nat) :
  In (k, v) kvs -> k < length u ->
  (forall v', In (k, v') kvs -> v' = v) ->
  nth k (scatter kvs u) 0 = v.
Proof.
  revert u; induction kvs as [|[k0 v0] kvs IH]; intros u Hin Hk Hc; [contradiction|].
  assert (Hc' : forall v', In (k, v') kvs -> v' = v).
  { intros v' Hv'. apply Hc. now right. }
  destruct (scatter_lookup kvs (set_nth k0 v0 u) k) as [E|[v' [Hin' E]]].
  - destruct Hin as [Hin|Hin].
    + injection Hin as -> ->. change (nth k (scatter kvs (set_nth k v u)) 0 = v).
      rewrite E, nth_set_nth, Nat.eqb_refl.
      apply Nat.ltb_lt in Hk. rewrite Hk. reflexivity.
    + change (nth k (scatter kvs (set_nth k0 v0 u)) 0 = v).
      apply IH; [exact Hin | now rewrite length_set_nth | exact Hc'].
  - change (nth k (scatter kvs (set_nth k0 v0 u)) 0 = v).
    rewrite E. now apply Hc'.
Qed.

Lemma in_combine_nth (q w : list nat) (k v : nat) :
  length q = length w ->
  In (k, v) (combine q w) ->
  exists i, i < length q /\ nth i q 0 = k /\ nth i w 0 = v.
Proof.
  intros L Hin. apply (In_nth _ _ (0, 0)) in Hin as [i [Hi E]].
  rewrite length_combine in Hi. rewrite combine_nth in E by exact L.
  injection E as E1 E2. exists i. repeat split; [lia | exact E1 | exact E2].
Qed.

Lemma nth_in_combine (q w : list nat) (i : nat) :
  length q = length w -> i < length q ->
  In (nth i q 0, nth i w 0) (combine q w).
Proof.
  intros L Hi. rewrite <- combine_nth by exact L.
  apply nth_In. rewrite length_combine. lia.
Qed.

(** The scatter of [w] along [q] followed after [q] gives [w] back, when [q]
    only merges positions on which [w] agrees. *)
Lemma scatter_factor (q w : list nat) (Q : nat) :
  length q = length w ->
  Forall (fun c => c < Q) q ->
  (forall i j, i < length q -> j < length q ->
               nth i q 0 = nth j q 0 -> nth i w 0 = nth j w 0) ->
  map (fun c => nth c (scatter (combine q w) (repeat 0 Q)) 0) q = w.
Proof.
  intros L Fq Hc. apply nth_ext with (d := 0) (d' := 0).
  - now rewrite length_map.
  - intros i Hi. rewrite length_map in Hi. rewrite nth_map_in by exact Hi.
    apply scatter_stored.
    + now apply nth_in_combine.
    + rewrite repeat_length. rewrite Forall_forall in Fq. apply Fq. now apply nth_In.
    + intros v' Hv'. apply in_combine_nth in Hv' as [j [Hj [E1 E2]]]; [|exact L].
      rewrite <- E2. symmetry. now apply Hc.
Qed.

Lemma scatter_bound (q w : list nat) (Q m : nat) :
  length q = length w ->
  Q <= length q ->
  Forall (fun v => v < m) w ->
  Forall (fun v => v < m) (scatter (combine q w) (repeat 0 Q)).
Proof.
  intros L HQ Fw. apply Forall_forall. intros v Hv.
  apply (In_nth _ _ 0) in Hv as [k [Hk <-]].
  rewrite length_scatter, repeat_length in Hk.
  destruct (scatter_lookup (combine q w) (repeat 0 Q) k) as [E|[v [Hin E]]].
  - rewrite E. rewrite nth_repeat.
    destruct w as [|v0 w]; [simpl in L; lia|].
    inversion Fw; subst. lia.
  - rewrite E. apply in_combine_r in Hin. rewrite Forall_forall in Fw. now apply Fw.
Qed.

(** ** Injections into a sum, and the coequalizer of two wirings *)

Lemma map_nth_seq_shift (a b : nat) (l : list nat) :
  Forall (fun i => i < b) l ->
  map (fun i => nth i (seq a b) 0) l = map (fun i => a + i) l.
Proof.
  intros F. apply map_ext_in. intros i Hi.
  rewrite Forall_forall in F. apply seq_nth. now apply F.
Qed.

Lemma inject0_Ok (f : FiniteFunction.FiniteFunction) (a b : nat) :
  FiniteFunction.target f = Some a -> FiniteFunction.wf f ->
  FiniteFunction.inject0 f b
  = Ok (FiniteFunction.mk (Some (a + b)) (FiniteFunction.table f) (FiniteFunction.dtype f)).
Proof.
  intros E Wf. unfold FiniteFunction.inject0. rewrite E.
  rewrite compose_Ok; simpl.
  - rewrite map_nth_seq_shift by (now apply (wf_Some _ E)).
    simpl. now rewrite map_id.
  - unfold FiniteFunction.source; simpl. now rewrite length_seq.
  - reflexivity.
Qed.

Lemma inject1_Ok (f : FiniteFunction.FiniteFunction) (a b : nat) :
  FiniteFunction.target f = Some b -> FiniteFunction.wf f ->
  FiniteFunction.inject1 f a
  = Ok (FiniteFunction.mk (Some (a + b)) (map (fun i => a + i) (FiniteFunction.table f))
          (FiniteFunction.dtype f)).
Proof.
  intros E Wf. unfold FiniteFunction.inject1. rewrite E.
  rewrite compose_Ok; simpl.
  - rewrite map_nth_seq_shift by (now apply (wf_Some _ E)). reflexivity.
  - unfold FiniteFunction.source; simpl. now rewrite length_seq.
  - reflexivity.
Qed.

Lemma roots_length (lab : list nat) : length (FiniteFunction.roots lab) <= length lab.
Proof.
  unfold FiniteFunction.roots.
  etransitivity; [apply filter_length_le | now rewrite length_seq].
Qed.

(** The coequalizer of two parallel well-formed functions into [n] exists; a
    labelling [phi] of [n] that agrees on [f(k)] and [g(k)] for every [k]
    agrees on any two vertices of one class. *)
Lemma coequalizer_spec (f g : FiniteFunction.FiniteFunction) (n : nat)
      (phi : nat -> nat) :
  FiniteFunction.source f = FiniteFunction.source g ->
  FiniteFunction.target f = Some n -> FiniteFunction.target g = Some n ->
  FiniteFunction.dtype f = FiniteFunction.dtype g ->
  FiniteFunction.wf f -> FiniteFunction.wf g ->
  (forall k, k < FiniteFunction.source f ->
             phi (nth k (FiniteFunction.table f) 0) = phi (nth k (FiniteFunction.table g) 0)) ->
  exists q Q,
    FiniteFunction.coequalizer f g = Ok q
    /\ FiniteFunction.target q = Some Q
    /\ Q <= n
    /\ FiniteFunction.source q = n
    /\ FiniteFunction.dtype q = FiniteFunction.dtype f
    /\ Forall (fun c => c < Q) (FiniteFunction.table q)
    /\ forall i j, i < n -> j < n ->
         nth i (FiniteFunction.table q) 0 = nth j (FiniteFunction.table q) 0 ->
         phi i = phi j.
Proof.
  intros Es Tf Tg Ed Wf Wg Hphi.
  unfold FiniteFunction.coequalizer.
  rewrite Es, Nat.eqb_refl, Tf, Tg, opt_eqb_refl, Ed, Nat.eqb_refl. simpl.
  set (es := combine (FiniteFunction.table f) (FiniteFunction.table g)).
  assert (Hes : Forall (respected n phi) es).
  { apply Forall_forall. intros [a b] Hin.
    apply in_combine_nth in Hin as [k [Hk [<- <-]]]; [|exact Es].
    apply (wf_Some _ Tf) in Wf. apply (wf_Some _ Tg) in Wg.
    rewrite Forall_forall in Wf, Wg.
    unfold respected; simpl. repeat split.
    - apply Wf. now apply nth_In.
    - apply Wg. apply nth_In. unfold FiniteFunction.source in Es. lia.
    - now apply Hphi. }
  pose proof (labelled_components Hes) as Hl.
  destruct (labelled_quotient Hl) as [Lq [Fq Cq]].
  eexists. eexists. split; [reflexivity|]. simpl.
  split; [reflexivity|]. split.
  - destruct Hl as [L _]. rewrite <- L at 2. apply roots_length.
  - unfold FiniteFunction.source; simpl. auto.
Qed.

(** The coequalizer coequalizes: [f >> q == g >> q]. *)
Lemma coequalizer_glues (f g q : FiniteFunction.FiniteFunction) :
  FiniteFunction.wf f -> FiniteFunction.wf g ->
  FiniteFunction.coequalizer f g = Ok q ->
  exists fq,
    FiniteFunction.compose f q = Ok fq /\ FiniteFunction.compose g q = Ok fq.
Proof.
  intros Wf Wg E. unfold FiniteFunction.coequalizer in E.
  apply bind_Ok_inv in E as [u1 [E1 E]]. apply require_Ok_inv in E1.
  apply Nat.eqb_eq in E1.
  destruct (FiniteFunction.target f) as [n|] eqn:Tf; [|discriminate].
  apply bind_Ok_inv in E as [u2 [E2 E]]. apply require_Ok_inv in E2.
  apply opt_eqb_eq in E2.
  apply bind_Ok_inv in E as [u3 [E3 E]]. apply require_Ok_inv in E3.
  apply Nat.eqb_eq in E3. injection E as <-.
  set (es := combine (FiniteFunction.table f) (FiniteFunction.table g)).
  set (lab := FiniteFunction.components n es).
  apply (wf_Some _ Tf) in Wf. apply (wf_Some _ E2) in Wg.
  assert (Ll : length lab = n).
  { unfold lab, FiniteFunction.components. now rewrite length_fold_merge, length_seq. }
  assert (J : forall k, k < FiniteFunction.source f ->
                joined lab (nth k (FiniteFunction.table f) 0, nth k (FiniteFunction.table g) 0)).
  { intros k Hk. apply fold_joins.
    - apply Forall_forall. intros [a b] Hin. rewrite length_seq.
      apply in_combine_nth in Hin as [i [Hi [<- <-]]]; [|exact E1].
      rewrite Forall_forall in Wf, Wg. simpl. split.
      + apply Wf. now apply nth_In.
      + apply Wg. apply nth_In. unfold FiniteFunction.source in E1. lia.
    - now apply nth_in_combine. }
  rewrite !compose_Ok; simpl;
    try (unfold FiniteFunction.source; simpl; rewrite length_map; congruence);
    try congruence.
  eexists. split; [reflexivity|]. f_equal. f_equal; [|congruence].
  apply nth_ext with (d := 0) (d' := 0).
  - rewrite !length_map. symmetry. exact E1.
  - intros k Hk. rewrite length_map in Hk.
    rewrite Forall_forall in Wf, Wg.
    unfold FiniteFunction.source in E1.
    assert (Hkf : k < length (FiniteFunction.table f)) by lia.
    assert (Hkg : k < length (FiniteFunction.table g)) by lia.
    rewrite (nth_map_in _ _ Hkf), (nth_map_in _ _ Hkg).
    rewrite !nth_map_in
      by (rewrite Ll; first [apply Wf; now apply nth_In | apply Wg; now apply nth_In]).
    f_equal. first [exact (J k Hkf) | symmetry; exact (J k Hkf)].
Qed.

Lemma ff_eta (f : FiniteFunction.FiniteFunction) :
  FiniteFunction.mk (FiniteFunction.target f) (FiniteFunction.table f)
    (FiniteFunction.dtype f) = f.
Proof. now destruct f. Qed.

Lemma map_values_spec (A : IndexedCoproduct.IndexedCoproduct)
      (q : FiniteFunction.FiniteFunction) (Q : nat) :
  IndexedCoproduct.wf A ->
  FiniteFunction.target (IndexedCoproduct.values A) = Some (FiniteFunction.source q) ->
  FiniteFunction.dtype (IndexedCoproduct.values A) = FiniteFunction.dtype q ->
  FiniteFunction.target q = Some Q ->
  Forall (fun c => c < Q) (FiniteFunction.table q) ->
  exists A',
    IndexedCoproduct.map_values A q = Ok A'
    /\ IndexedCoproduct.wf A'
    /\ IndexedCoproduct.sources A' = IndexedCoproduct.sources A
    /\ FiniteFunction.target (IndexedCoproduct.values A') = Some Q
    /\ IndexedCoproduct.dtype A' = IndexedCoproduct.dtype A.
Proof.
  intros [SA [DA WA]] Et Ed Tq Fq.
  unfold IndexedCoproduct.map_values. rewrite (compose_Ok _ _ Et Ed). simpl.
  eexists. split; [reflexivity|].
  unfold IndexedCoproduct.wf, IndexedCoproduct.dtype, FiniteFunction.source; simpl.
  rewrite length_map. repeat split; try assumption.
  rewrite Ed. apply compose_table_wf.
  - now apply (wf_Some _ Et).
  - now apply (wf_Some _ Tq).
Qed.

(** Quotient of the wires of a hypergraph by a map that merges only wires of
    one label. *)
Lemma coequalize_vertices_spec (G : Hypergraph.Hypergraph)
      (q : FiniteFunction.FiniteFunction) (Q : nat) :
  Hypergraph.wf G ->
  FiniteFunction.source q = Hypergraph.W G ->
  FiniteFunction.target q = Some Q ->
  Q <= Hypergraph.W G ->
  Forall (fun c => c < Q) (FiniteFunction.table q) ->
  FiniteFunction.dtype q = Hypergraph.dtype G ->
  (forall i j, i < Hypergraph.W G -> j < Hypergraph.W G ->
     nth i (FiniteFunction.table q) 0 = nth j (FiniteFunction.table q) 0 ->
     nth i (FiniteFunction.table (Hypergraph.w G)) 0
     = nth j (FiniteFunction.table (Hypergraph.w G)) 0) ->
  exists H1,
    Hypergraph.coequalize_vertices G q = Ok H1
    /\ Hypergraph.wf H1
    /\ Hypergraph.W H1 = Q
    /\ Hypergraph.dtype H1 = Hypergraph.dtype G
    /\ FiniteFunction.target (Hypergraph.w H1) = FiniteFunction.target (Hypergraph.w G)
    /\ FiniteFunction.dtype (Hypergraph.w H1) = FiniteFunction.dtype (Hypergraph.w G)
    /\ map (fun c => nth c (FiniteFunction.table (Hypergraph.w H1)) 0) (FiniteFunction.table q)
       = FiniteFunction.table (Hypergraph.w G)
    /\ Hypergraph.x H1 = Hypergraph.x G.
Proof.
  intros WG Sq Tq HQ Fq Dq Hc.
  pose proof WG as [sG [tG [lsG [ltG [vsG [vtG [ssG [stG [wG [xG [d1G [d2G d3G]]]]]]]]]]]].
  assert (Lq : length (FiniteFunction.table q) = length (FiniteFunction.table (Hypergraph.w G)))
    by exact Sq.
  assert (Du : FiniteFunction.dtype q = FiniteFunction.dtype (Hypergraph.w G))
    by congruence.
  set (u := FiniteFunction.mk (FiniteFunction.target (Hypergraph.w G))
              (scatter (combine (FiniteFunction.table q) (FiniteFunction.table (Hypergraph.w G)))
                       (repeat 0 Q))
              (FiniteFunction.dtype (Hypergraph.w G))).
  assert (EU : FiniteFunction.universal q (Hypergraph.w G) = Ok u).
  { unfold FiniteFunction.universal.
    rewrite Tq, Sq. unfold Hypergraph.W. rewrite Nat.eqb_refl, Du, Nat.eqb_refl.
    reflexivity. }
  assert (Efac : map (fun c => nth c (FiniteFunction.table u) 0) (FiniteFunction.table q)
                 = FiniteFunction.table (Hypergraph.w G)).
  { apply scatter_factor; [exact Lq | exact Fq |]. intros i j Hi Hj.
    apply Hc; unfold Hypergraph.W, FiniteFunction.source; lia. }
  assert (Su : FiniteFunction.source u = Q).
  { unfold FiniteFunction.source, u; simpl. now rewrite length_scatter, repeat_length. }
  assert (EC : FiniteFunction.compose q u = Ok (Hypergraph.w G)).
  { rewrite compose_Ok; [|now rewrite Su | exact Du].
    rewrite Efac, Du. simpl. now rewrite ff_eta. }
  assert (Dvs : FiniteFunction.dtype (IndexedCoproduct.values (Hypergraph.s G))
                = FiniteFunction.dtype q)
    by (unfold Hypergraph.dtype, IndexedCoproduct.dtype in *; congruence).
  assert (Dvt : FiniteFunction.dtype (IndexedCoproduct.values (Hypergraph.t G))
                = FiniteFunction.dtype q)
    by (unfold Hypergraph.dtype, IndexedCoproduct.dtype in *; congruence).
  assert (Tvs : FiniteFunction.target (IndexedCoproduct.values (Hypergraph.s G))
                = Some (FiniteFunction.source q)) by congruence.
  assert (Tvt : FiniteFunction.target (IndexedCoproduct.values (Hypergraph.t G))
                = Some (FiniteFunction.source q)) by congruence.
  destruct (@map_values_spec _ q Q sG Tvs Dvs Tq Fq) as [s' [Es [Ws [Ss [Ts Ds]]]]].
  destruct (@map_values_spec _ q Q tG Tvt Dvt Tq Fq) as [t' [Et [Wt [St [Tt Dt]]]]].
  exists (Hypergraph.mk s' t' u (Hypergraph.x G)). split.
  { unfold Hypergraph.coequalize_vertices.
    rewrite Sq, Nat.eqb_refl, EU. simpl. rewrite EC. simpl.
    rewrite ff_eqb_refl, Es, Et. reflexivity. }
  assert (Wu : FiniteFunction.wf u).
  { unfold FiniteFunction.wf, u; simpl.
    destruct (FiniteFunction.target (Hypergraph.w G)) as [m|] eqn:Tw; [|exact I].
    apply scatter_bound; [exact Lq | unfold FiniteFunction.source in *; lia |].
    now apply (wf_Some _ Tw). }
  unfold Hypergraph.wf, Hypergraph.W, Hypergraph.X, Hypergraph.dtype,
    IndexedCoproduct.len in *; simpl.
  rewrite Su, Ss, St, Ds.
  split; [|repeat split; try assumption; try congruence].
  split; [exact Ws|]. split; [exact Wt|].
  repeat split; try assumption; try congruence.
Qed.

(** ** Sequential composition *)

Lemma source_Ok (f : OpenHypergraph.OpenHypergraph) :
  OpenHypergraph.wf f ->
  OpenHypergraph.source f
  = Ok (FiniteFunction.mk
          (FiniteFunction.target (Hypergraph.w (OpenHypergraph.H f)))
          (map (fun i => nth i (FiniteFunction.table (Hypergraph.w (OpenHypergraph.H f))) 0)
               (FiniteFunction.table (OpenHypergraph.s f)))
          (FiniteFunction.dtype (OpenHypergraph.s f))).
Proof.
  intros Wf. destruct (wf_dtypes Wf) as [_ [_ [_ [_ [_ [_ [Dw _]]]]]]].
  destruct Wf as [_ [Ts _]].
  unfold OpenHypergraph.source. apply compose_Ok; [exact Ts | now rewrite Dw].
Qed.

Lemma target_Ok (f : OpenHypergraph.OpenHypergraph) :
  OpenHypergraph.wf f ->
  OpenHypergraph.target f
  = Ok (FiniteFunction.mk
          (FiniteFunction.target (Hypergraph.w (OpenHypergraph.H f)))
          (map (fun i => nth i (FiniteFunction.table (Hypergraph.w (OpenHypergraph.H f))) 0)
               (FiniteFunction.table (OpenHypergraph.t f)))
          (FiniteFunction.dtype (OpenHypergraph.t f))).
Proof.
  intros Wf. destruct (wf_dtypes Wf) as [Dt [_ [_ [_ [_ [_ [Dw _]]]]]]].
  destruct Wf as [_ [_ [Tt _]]].
  unfold OpenHypergraph.target. apply compose_Ok; [exact Tt | congruence].
Qed.

(** An interface wired into the quotient carries the labels it had before. *)
Lemma quotient_labels (q w1 w0 l : list nat) :
  map (fun c => nth c w1 0) q = w0 ->
  Forall (fun i => i < length q) l ->
  map (fun c => nth c w1 0) (map (fun i => nth i q 0) l) = map (fun i => nth i w0 0) l.
Proof.
  intros E F. rewrite map_map. apply map_ext_in. intros i Hi.
  rewrite Forall_forall in F. specialize (F _ Hi).
  rewrite <- E. now rewrite nth_map_in.
Qed.

Lemma compose_defined (f g : OpenHypergraph.OpenHypergraph)
      (B : FiniteFunction.FiniteFunction) :
  OpenHypergraph.wf f -> OpenHypergraph.wf g ->
  FiniteFunction.target (Hypergraph.x (OpenHypergraph.H f))
  = FiniteFunction.target (Hypergraph.x (OpenHypergraph.H g)) ->
  OpenHypergraph.target f = Ok B ->
  OpenHypergraph.source g = Ok B ->
  exists h,
    OpenHypergraph.compose f g = Ok h
    /\ OpenHypergraph.wf h
    /\ OpenHypergraph.source h = OpenHypergraph.source f
    /\ OpenHypergraph.target h = OpenHypergraph.target g.
Proof.
  intros Wf Wg Sx Etf Esg.
  pose proof (target_Ok Wf) as Etf'. pose proof (source_Ok Wg) as Esg'.
  rewrite Etf in Etf'. rewrite Esg in Esg'.
  injection Etf' as EB. rewrite EB in Esg'. injection Esg' as Ew Etab Ed.
  destruct (wf_dtypes Wf) as [Dtf [DHf [_ [_ [_ [_ [Dwf _]]]]]]].
  destruct (wf_dtypes Wg) as [Dtg [DHg [_ [_ [_ [_ [Dwg _]]]]]]].
  pose proof Wf as [_ [Tsf [Ttf [Fsf [Ftf WHf]]]]].
  pose proof Wg as [_ [Tsg [Ttg [Fsg [Ftg WHg]]]]].
  unfold OpenHypergraph.dtype in *.
  assert (Sig : OpenHypergraph.same_signature f g).
  { unfold OpenHypergraph.same_signature, OpenHypergraph.dtype. repeat split; congruence. }
  destruct (tensor_defined Wf Wg Sig) as [s0 [t0 [H0 [_ [_ [EH0 [Eten [W0 [w0 Wh]]]]]]]]].
  destruct (hg_coproduct_spec WHf WHg) as [H0' [EH0' [WH0 [DH0 [_ [_ [w0' _]]]]]]];
    try congruence.
  rewrite EH0 in EH0'. injection EH0' as <-.
  set (Wf_ := Hypergraph.W (OpenHypergraph.H f)) in *.
  set (Wg_ := Hypergraph.W (OpenHypergraph.H g)) in *.
  set (wf_ := FiniteFunction.table (Hypergraph.w (OpenHypergraph.H f))) in *.
  set (wg_ := FiniteFunction.table (Hypergraph.w (OpenHypergraph.H g))) in *.
  assert (Lwf : length wf_ = Wf_) by reflexivity.
  assert (Lwg : length wg_ = Wg_) by reflexivity.
  apply (wf_Some _ Tsf) in Fsf. apply (wf_Some _ Ttf) in Ftf.
  apply (wf_Some _ Tsg) in Fsg. apply (wf_Some _ Ttg) in Ftg.
  fold Wf_ in Fsf, Ftf. fold Wg_ in Fsg, Ftg.
  (* the two wirings that are glued *)
  assert (Eq0 := @inject0_Ok (OpenHypergraph.t f) Wf_ Wg_ Ttf (proj2 (wf_Some _ Ttf) Ftf)).
  assert (Eq1 := @inject1_Ok (OpenHypergraph.s g) Wf_ Wg_ Tsg (proj2 (wf_Some _ Tsg) Fsg)).
  assert (Es0 := @inject0_Ok (OpenHypergraph.s f) Wf_ Wg_ Tsf (proj2 (wf_Some _ Tsf) Fsf)).
  assert (Et0 := @inject1_Ok (OpenHypergraph.t g) Wf_ Wg_ Ttg (proj2 (wf_Some _ Ttg) Ftg)).
  set (q0 := FiniteFunction.mk (Some (Wf_ + Wg_)) (FiniteFunction.table (OpenHypergraph.t f))
               (FiniteFunction.dtype (OpenHypergraph.t f))) in *.
  set (q1 := FiniteFunction.mk (Some (Wf_ + Wg_))
               (map (fun i => Wf_ + i) (FiniteFunction.table (OpenHypergraph.s g)))
               (FiniteFunction.dtype (OpenHypergraph.s g))) in *.
  assert (Len : length (FiniteFunction.table (OpenHypergraph.t f))
                = length (FiniteFunction.table (OpenHypergraph.s g))).
  { apply (f_equal (@length nat)) in Etab. now rewrite !length_map in Etab. }
  destruct (@coequalizer_spec q0 q1 (Wf_ + Wg_) (fun i => nth i (wf_ ++ wg_) 0))
    as [q [Q [Eq [Tq [HQ [Sq [Dq [Fq Cq]]]]]]]].
  { unfold FiniteFunction.source; simpl. now rewrite length_map. }
  { reflexivity. }
  { reflexivity. }
  { simpl. congruence. }
  { unfold FiniteFunction.wf; simpl.
    eapply Forall_impl; [|exact Ftf]. simpl. intros; lia. }
  { unfold FiniteFunction.wf; simpl. apply Forall_map.
    eapply Forall_impl; [|exact Fsg]. simpl. intros; lia. }
  { unfold FiniteFunction.source; simpl. intros k Hk.
    rewrite nth_map_in by lia.
    rewrite Forall_forall in Ftf, Fsg.
    rewrite app_nth1 by (rewrite Lwf; apply Ftf; now apply nth_In).
    rewrite <- Lwf, app_nth2_plus.
    apply (f_equal (fun l => nth k l 0)) in Etab.
    rewrite !nth_map_in in Etab by lia. exact Etab. }
  simpl in Dq.
  assert (Lq : length (FiniteFunction.table q) = Wf_ + Wg_) by exact Sq.
  (* the quotient of the disjoint union *)
  assert (A1 : FiniteFunction.source q = Hypergraph.W H0) by congruence.
  assert (A2 : Q <= Hypergraph.W H0) by lia.
  assert (A3 : FiniteFunction.dtype q = Hypergraph.dtype H0) by congruence.
  assert (A4 : forall i j, i < Hypergraph.W H0 -> j < Hypergraph.W H0 ->
                 nth i (FiniteFunction.table q) 0 = nth j (FiniteFunction.table q) 0 ->
                 nth i (FiniteFunction.table (Hypergraph.w H0)) 0
                 = nth j (FiniteFunction.table (Hypergraph.w H0)) 0).
  { rewrite w0, W0. exact Cq. }
  destruct (@coequalize_vertices_spec H0 q Q WH0 A1 Tq A2 Fq A3 A4)
    as [H1 [EH1 [WH1 [W1 [DH1 [Tw1 [Dw1 [Fac X1]]]]]]]].
  assert (W1' : FiniteFunction.source (Hypergraph.w H1) = Q) by exact W1.
  assert (Dw0 : FiniteFunction.dtype (Hypergraph.w H0)
                = FiniteFunction.dtype (OpenHypergraph.s f))
    by (rewrite w0'; simpl; congruence).
  assert (Tw0 : FiniteFunction.target (Hypergraph.w H0)
                = FiniteFunction.target (Hypergraph.w (OpenHypergraph.H f)))
    by (rewrite w0'; reflexivity).
  rewrite w0 in Fac.
  set (s1 := FiniteFunction.mk (Some Q)
               (map (fun i => nth i (FiniteFunction.table q) 0)
                    (FiniteFunction.table (OpenHypergraph.s f)))
               (FiniteFunction.dtype (OpenHypergraph.s f))).
  set (t1 := FiniteFunction.mk (Some Q)
               (map (fun i => nth i (FiniteFunction.table q) 0)
                    (map (fun i => Wf_ + i) (FiniteFunction.table (OpenHypergraph.t g))))
               (FiniteFunction.dtype (OpenHypergraph.t g))).
  assert (Es1 : FiniteFunction.compose
                  (FiniteFunction.mk (Some (Wf_ + Wg_)) (FiniteFunction.table (OpenHypergraph.s f))
                     (FiniteFunction.dtype (OpenHypergraph.s f))) q = Ok s1).
  { rewrite compose_Ok; simpl; [now rewrite Tq | congruence | congruence]. }
  assert (Et1 : FiniteFunction.compose
                  (FiniteFunction.mk (Some (Wf_ + Wg_))
                     (map (fun i => Wf_ + i) (FiniteFunction.table (OpenHypergraph.t g)))
                     (FiniteFunction.dtype (OpenHypergraph.t g))) q = Ok t1).
  { rewrite compose_Ok; simpl; [now rewrite Tq | congruence | congruence]. }
  assert (En : OpenHypergraph.new s1 t1 H1 = Ok (OpenHypergraph.mk s1 t1 H1)).
  { apply new_Ok; simpl; congruence. }
  exists (OpenHypergraph.mk s1 t1 H1).
  assert (Fs1 : Forall (fun i => i < length (FiniteFunction.table q))
                       (FiniteFunction.table (OpenHypergraph.s f))).
  { eapply Forall_impl; [|exact Fsf]. simpl. intros; lia. }
  assert (Ft1 : Forall (fun i => i < length (FiniteFunction.table q))
                       (map (fun i => Wf_ + i) (FiniteFunction.table (OpenHypergraph.t g)))).
  { apply Forall_map. eapply Forall_impl; [|exact Ftg]. simpl. intros; lia. }
  assert (Bq : forall l, Forall (fun i => i < length (FiniteFunction.table q)) l ->
                 Forall (fun c => c < Q) (map (fun i => nth i (FiniteFunction.table q) 0) l)).
  { intros l Fl. apply Forall_map. eapply Forall_impl; [|exact Fl]. simpl.
    intros i Hi. rewrite Forall_forall in Fq. apply Fq. now apply nth_In. }
  split.
  { unfold OpenHypergraph.compose.
    rewrite Etf, Esg. simpl. rewrite ff_eqb_refl. simpl.
    rewrite Eten. simpl. fold Wf_ Wg_. rewrite Eq0, Eq1. simpl.
    rewrite Eq. simpl. rewrite Es0. simpl. rewrite Es1. simpl.
    rewrite Et0. simpl. rewrite Et1. simpl. rewrite EH1. simpl. exact En. }
  split.
  { unfold OpenHypergraph.wf, OpenHypergraph.constructed; simpl.
    split; [exact En|]. rewrite W1.
    split; [reflexivity|]. split; [reflexivity|].
    split; [|split; [|exact WH1]]; unfold FiniteFunction.wf; simpl; now apply Bq. }
  split.
  { rewrite (source_Ok Wf). unfold OpenHypergraph.source; simpl.
    rewrite compose_Ok; simpl; [|congruence|congruence].
    rewrite (@quotient_labels _ _ _ _ Fac Fs1).
    rewrite map_nth_app_l by (now rewrite Lwf).
    now rewrite Tw1, Tw0. }
  { rewrite (target_Ok Wg). unfold OpenHypergraph.target; simpl.
    rewrite compose_Ok; simpl; [|congruence|congruence].
    rewrite (@quotient_labels _ _ _ _ Fac Ft1).
    rewrite map_map.
    rewrite (map_ext (fun i => nth (Wf_ + i) (wf_ ++ wg_) 0) (fun i => nth i wg_ 0))
      by (intros i; rewrite <- Lwf; apply app_nth2_plus).
    now rewrite Tw1, Tw0, Ew. }
Qed.

Lemma coproduct_Ok_inv (a b c : FiniteFunction.FiniteFunction) :
  FiniteFunction.coproduct a b = Ok c ->
  FiniteFunction.target a = FiniteFunction.target b
  /\ FiniteFunction.dtype a = FiniteFunction.dtype b.
Proof.
  unfold FiniteFunction.coproduct. intros E.
  apply bind_Ok_inv in E as [u1 [E1 E]].
  apply bind_Ok_inv in E as [u2 [E2 _]].
  apply require_Ok_inv in E1. apply require_Ok_inv in E2.
  apply opt_eqb_eq in E1. apply Nat.eqb_eq in E2. auto.
Qed.

(** A composite only exists for equal types over one operation alphabet. *)
Lemma compose_Ok_inv (f g h : OpenHypergraph.OpenHypergraph) :
  OpenHypergraph.compose f g = Ok h ->
  exists B,
    OpenHypergraph.target f = Ok B /\ OpenHypergraph.source g = Ok B
    /\ FiniteFunction.target (Hypergraph.x (OpenHypergraph.H f))
       = FiniteFunction.target (Hypergraph.x (OpenHypergraph.H g)).
Proof.
  unfold OpenHypergraph.compose. intros E.
  apply bind_Ok_inv in E as [ft [Etf E]].
  apply bind_Ok_inv in E as [gs [Esg E]].
  apply bind_Ok_inv in E as [u [Ec E]].
  apply require_Ok_inv in Ec. apply ff_eqb_eq in Ec. subst gs.
  apply bind_Ok_inv in E as [h0 [Eten _]].
  exists ft. split; [exact Etf|]. split; [exact Esg|].
  unfold OpenHypergraph.tensor in Eten.
  apply bind_Ok_inv in Eten as [s0 [_ Eten]].
  apply bind_Ok_inv in Eten as [t0 [_ Eten]].
  apply bind_Ok_inv in Eten as [H0 [EH _]].
  unfold Hypergraph.coproduct in EH.
  apply bind_Ok_inv in EH as [s' [_ EH]].
  apply bind_Ok_inv in EH as [t' [_ EH]].
  apply bind_Ok_inv in EH as [w' [_ EH]].
  apply bind_Ok_inv in EH as [x' [Ex _]].
  now apply coproduct_Ok_inv in Ex.
Qed.

(** C1: for open hypergraphs [f : A -> B] and [g : B -> C], every composite
    [h = f >> g] has [h.source == f.source] and [h.target == g.target]; and
    when [f.target == g.source], over one operation alphabet, the composite
    exists. *)
Theorem compose_signature (f g : OpenHypergraph.OpenHypergraph) :
  OpenHypergraph.wf f -> OpenHypergraph.wf g ->
  (forall h,
      OpenHypergraph.compose f g = Ok h ->
      OpenHypergraph.source h = OpenHypergraph.source f
      /\ OpenHypergraph.target h = OpenHypergraph.target g)
  /\ (forall B,
         OpenHypergraph.target f = Ok B -> OpenHypergraph.source g = Ok B ->
         FiniteFunction.target (Hypergraph.x (OpenHypergraph.H f))
         = FiniteFunction.target (Hypergraph.x (OpenHypergraph.H g)) ->
         exists h,
           OpenHypergraph.compose f g = Ok h
           /\ OpenHypergraph.source h = OpenHypergraph.source f
           /\ OpenHypergraph.target h = OpenHypergraph.target g).
Proof.
  intros Wf Wg. split.
  - intros h E.
    destruct (compose_Ok_inv _ _ E) as [B [Etf [Esg Sx]]].
    destruct (compose_defined Wf Wg Sx Etf Esg) as [h' [E' [_ [Es Et]]]].
    rewrite E in E'. injection E' as <-. auto.
  - intros B Etf Esg Sx.
    destruct (compose_defined Wf Wg Sx Etf Esg) as [h [E [_ [Es Et]]]].
    exists h. auto.
Qed.

(** C2: [compose(f, g)] fails with a type mismatch whenever [f.target] and
    [g.source] differ, and every result it returns comes from equal types;
    on equal types, for [f] and [g] of one computation, it succeeds and the
    result is a well-formed open hypergraph. *)
Theorem compose_type_check (f g : OpenHypergraph.OpenHypergraph) :
  (forall ft gs,
      OpenHypergraph.target f = Ok ft -> OpenHypergraph.source g = Ok gs ->
      ft <> gs -> OpenHypergraph.compose f g = Err TypeMismatch)
  /\ (forall h,
         OpenHypergraph.compose f g = Ok h ->
         exists B, OpenHypergraph.target f = Ok B /\ OpenHypergraph.source g = Ok B)
  /\ (OpenHypergraph.wf f -> OpenHypergraph.wf g ->
      FiniteFunction.target (Hypergraph.x (OpenHypergraph.H f))
      = FiniteFunction.target (Hypergraph.x (OpenHypergraph.H g)) ->
      forall B,
        OpenHypergraph.target f = Ok B -> OpenHypergraph.source g = Ok B ->
        exists h, OpenHypergraph.compose f g = Ok h /\ OpenHypergraph.wf h).
Proof.
  split; [|split].
  - intros ft gs Etf Esg N. unfold OpenHypergraph.compose.
    rewrite Etf, Esg. simpl. now rewrite (ff_eqb_neq N).
  - intros h E. unfold OpenHypergraph.compose in E.
    apply bind_Ok_inv in E as [ft [Etf E]].
    apply bind_Ok_inv in E as [gs [Esg E]].
    apply bind_Ok_inv in E as [u [Ec _]].
    apply require_Ok_inv in Ec. apply ff_eqb_eq in Ec. subst gs.
    exists ft. auto.
  - intros Wf Wg Sx B Etf Esg.
    destruct (compose_defined Wf Wg Sx Etf Esg) as [h [E [Wh _]]].
    exists h. auto.
Qed.

(** ** Blocks of an indexed coproduct *)

Lemma map_nth_seq_slice (v : list nat) (o m : nat) :
  o + m <= length v ->
  map (fun i => nth i v 0) (seq o m) = firstn m (skipn o v).
Proof.
  revert v; induction o as [|o IH]; intros v H.
  - simpl. revert v H. induction m as [|m IHm]; intros v H; [reflexivity|].
    destruct v as [|a v]; [simpl in H; lia|].
    simpl. f_equal. rewrite <- seq_shift, map_map. simpl.
    apply IHm. simpl in H. lia.
  - destruct v as [|a v]; [simpl in H; lia|].
    rewrite <- seq_shift, map_map. simpl. apply IH. simpl in H. lia.
Qed.

Lemma block_nth (s v : list nat) (k : nat) :
  k < length s ->
  nth k (IndexedCoproduct.split_blocks s v) []
  = firstn (nth k s 0) (skipn (FiniteFunction.offset s k) v).
Proof.
  revert v k; induction s as [|a s IH]; intros v k Hk; [simpl in Hk; lia|].
  destruct k as [|k]; simpl.
  - reflexivity.
  - rewrite IH by (simpl in Hk; lia).
    unfold FiniteFunction.offset. simpl. now rewrite skipn_skipn, Nat.add_comm.
Qed.

Lemma offset_bound (s : list nat) (k : nat) :
  k < length s -> FiniteFunction.offset s k + nth k s 0 <= sum_list s.
Proof.
  unfold FiniteFunction.offset.
  revert k; induction s as [|a s IH]; intros k Hk; [simpl in Hk; lia|].
  destruct k as [|k]; simpl.
  - lia.
  - simpl in Hk. specialize (IH k). lia.
Qed.

Lemma length_split_blocks (s v : list nat) :
  length (IndexedCoproduct.split_blocks s v) = length s.
Proof.
  revert v; induction s as [|a s IH]; intros v; simpl; auto.
Qed.

Lemma split_blocks_app (s1 s2 v1 v2 : list nat) :
  sum_list s1 = length v1 ->
  IndexedCoproduct.split_blocks (s1 ++ s2) (v1 ++ v2)
  = IndexedCoproduct.split_blocks s1 v1 ++ IndexedCoproduct.split_blocks s2 v2.
Proof.
  revert v1; induction s1 as [|a s1 IH]; intros v1 E; simpl in *.
  - destruct v1; [reflexivity | discriminate].
  - assert (Ha : a <= length v1) by lia.
    rewrite firstn_app, skipn_app.
    replace (a - length v1) with 0 by lia. simpl. rewrite app_nil_r.
    f_equal. apply IH. rewrite length_skipn. lia.
Qed.

Lemma split_blocks_lengths (s v : list nat) :
  sum_list s <= length v ->
  map (@length nat) (IndexedCoproduct.split_blocks s v) = s.
Proof.
  revert v; induction s as [|a s IH]; intros v H; simpl in *; [reflexivity|].
  rewrite length_firstn, Nat.min_l by lia. f_equal.
  apply IH. rewrite length_skipn. lia.
Qed.

Lemma split_blocks_concat (ls : list (list nat)) :
  IndexedCoproduct.split_blocks (map (@length nat) ls) (concat ls) = ls.
Proof.
  induction ls as [|l ls IH]; simpl; [reflexivity|].
  rewrite firstn_app, Nat.sub_diag, firstn_all. simpl. rewrite app_nil_r.
  rewrite skipn_app, Nat.sub_diag, skipn_all. simpl. now rewrite IH.
Qed.

Lemma concat_split_blocks (s v : list nat) :
  sum_list s = length v -> concat (IndexedCoproduct.split_blocks s v) = v.
Proof.
  revert v; induction s as [|a s IH]; intros v E; simpl in *.
  - destruct v; [reflexivity | discriminate].
  - rewrite IH by (rewrite length_skipn; lia). apply firstn_skipn.
Qed.

(** Reading the values at the positions of the blocks [p(0), p(1), ...] gives
    these blocks one after the other. *)
Lemma gather_blocks (s v p : list nat) :
  sum_list s <= length v ->
  Forall (fun k => k < length s) p ->
  map (fun i => nth i v 0)
      (flat_map (fun k => seq (FiniteFunction.offset s k) (nth k s 0)) p)
  = concat (map (fun k => nth k (IndexedCoproduct.split_blocks s v) []) p).
Proof.
  intros Hs Fp. induction p as [|k p IH]; simpl; [reflexivity|].
  inversion Fp; subst. rewrite map_app, IH by assumption. f_equal.
  rewrite block_nth by assumption. apply map_nth_seq_slice.
  pose proof (offset_bound s H1). lia.
Qed.

(** ** The transposition that pairs the blocks *)

Arguments FiniteFunction.transpose : simpl never.

Lemma seq_double (n : nat) :
  seq 0 (2 * n) = flat_map (fun i => [2 * i; 2 * i + 1]) (seq 0 n).
Proof.
  induction n as [|n IH]; [reflexivity|].
  replace (2 * S n) with (S (S (2 * n))) by lia.
  rewrite !seq_S, IH, flat_map_app. simpl.
  rewrite <- app_assoc. simpl. repeat f_equal; lia.
Qed.

Lemma map_flat_map_pair (g : nat -> nat) (h1 h2 : nat -> nat) (l : list nat) :
  map g (flat_map (fun i => [h1 i; h2 i]) l) = flat_map (fun i => [g (h1 i); g (h2 i)]) l.
Proof.
  induction l as [|a l IH]; simpl; [reflexivity|]. now rewrite IH.
Qed.

Lemma transpose_table (n : nat) (d : DType) :
  FiniteFunction.table (FiniteFunction.transpose 2 n d)
  = flat_map (fun i => [i; n + i]) (seq 0 n).
Proof.
  change (FiniteFunction.table (FiniteFunction.transpose 2 n d))
    with (map (fun i => (i mod 2) * n + i / 2) (seq 0 (2 * n))).
  rewrite seq_double, map_flat_map_pair.
  apply flat_map_ext. intros i.
  assert (E1 : (2 * i) mod 2 = 0)
    by (symmetry; apply Nat.mod_unique with (q := i); lia).
  assert (E2 : (2 * i) / 2 = i)
    by (symmetry; apply Nat.div_unique with (r := 0); lia).
  assert (E3 : (2 * i + 1) mod 2 = 1)
    by (symmetry; apply Nat.mod_unique with (q := i); lia).
  assert (E4 : (2 * i + 1) / 2 = i)
    by (symmetry; apply Nat.div_unique with (r := 1); lia).
  rewrite E1, E2, E3, E4. repeat f_equal; lia.
Qed.

Lemma transpose_bound (n : nat) (d : DType) :
  Forall (fun k => k < n + n) (FiniteFunction.table (FiniteFunction.transpose 2 n d)).
Proof.
  rewrite transpose_table. apply Forall_forall. intros k Hk.
  apply in_flat_map in Hk as [i [Hi Hk]]. apply in_seq in Hi.
  simpl in Hk. destruct Hk as [<-|[<-|[]]]; lia.
Qed.

Lemma target_transpose (n : nat) (d : DType) :
  FiniteFunction.target (FiniteFunction.transpose 2 n d) = Some (n + n).
Proof.
  unfold FiniteFunction.transpose. cbn [FiniteFunction.target]. f_equal. lia.
Qed.

Lemma dtype_transpose (n : nat) (d : DType) :
  FiniteFunction.dtype (FiniteFunction.transpose 2 n d) = d.
Proof. reflexivity. Qed.

Lemma concat_map_flat_pair (F : nat -> list nat) (h1 h2 : nat -> nat) (l : list nat) :
  concat (map F (flat_map (fun i => [h1 i; h2 i]) l))
  = concat (map (fun i => F (h1 i) ++ F (h2 i)) l).
Proof.
  induction l as [|a l IH]; simpl; [reflexivity|].
  now rewrite IH, app_assoc.
Qed.

Lemma paired_blocks_nth (l r : list (list nat)) :
  length l = length r ->
  map (fun i => nth i l [] ++ nth i r []) (seq 0 (length l))
  = IndexedCoproduct.paired_blocks l r.
Proof.
  revert r; induction l as [|a l IH]; intros [|b r] E; try discriminate; [reflexivity|].
  simpl. unfold IndexedCoproduct.paired_blocks. simpl. f_equal.
  rewrite <- seq_shift, map_map. apply IH. simpl in E. lia.
Qed.

(** Gathering the blocks of [l ++ r] along the transposition gives the pairs
    [l0 ++ r0, l1 ++ r1, ...] one after the other. *)
Lemma gather_transposed (l r : list (list nat)) (d : DType) :
  length l = length r ->
  concat (map (fun k => nth k (l ++ r) [])
              (FiniteFunction.table (FiniteFunction.transpose 2 (length l) d)))
  = concat (IndexedCoproduct.paired_blocks l r).
Proof.
  intros E. rewrite transpose_table, concat_map_flat_pair.
  rewrite <- (@paired_blocks_nth l r E). f_equal.
  apply map_ext_in. intros i Hi. apply in_seq in Hi.
  rewrite app_nth1 by lia. now rewrite app_nth2_plus.
Qed.

Lemma paired_blocks_lengths (l r : list (list nat)) :
  map (@length nat) (IndexedCoproduct.paired_blocks l r)
  = Optic.add_arrays (map (@length nat) l) (map (@length nat) r).
Proof.
  unfold IndexedCoproduct.paired_blocks, Optic.add_arrays.
  revert r; induction l as [|a l IH]; intros [|b r]; simpl; try reflexivity.
  rewrite length_app. f_equal. apply IH.
Qed.

Lemma length_concat_paired (l r : list (list nat)) :
  length l = length r ->
  length (concat (IndexedCoproduct.paired_blocks l r))
  = length (concat l) + length (concat r).
Proof.
  unfold IndexedCoproduct.paired_blocks.
  revert r; induction l as [|a l IH]; intros [|b r] E; try discriminate; [reflexivity|].
  simpl. rewrite !length_app, IH by (simpl in E; lia). lia.
Qed.

Lemma interleave_values (sA sB vA vB : list nat) (d : DType) :
  sum_list sA = length vA -> sum_list sB = length vB ->
  length sA = length sB ->
  map (fun i => nth i (vA ++ vB) 0)
      (flat_map (fun k => seq (FiniteFunction.offset (sA ++ sB) k) (nth k (sA ++ sB) 0))
                (FiniteFunction.table (FiniteFunction.transpose 2 (length sA) d)))
  = concat (IndexedCoproduct.paired_blocks (IndexedCoproduct.split_blocks sA vA)
                                           (IndexedCoproduct.split_blocks sB vB)).
Proof.
  intros EA EB EL.
  rewrite gather_blocks.
  - rewrite (@split_blocks_app sA sB vA vB EA).
    rewrite <- (length_split_blocks sA vA).
    apply gather_transposed. now rewrite !length_split_blocks.
  - rewrite sum_list_app, length_app. lia.
  - rewrite length_app, <- EL. apply transpose_bound.
Qed.

Lemma ic_coproduct_Ok (A B : IndexedCoproduct.IndexedCoproduct) :
  FiniteFunction.target (IndexedCoproduct.sources A)
  = FiniteFunction.target (IndexedCoproduct.sources B) ->
  FiniteFunction.dtype (IndexedCoproduct.sources A)
  = FiniteFunction.dtype (IndexedCoproduct.sources B) ->
  FiniteFunction.target (IndexedCoproduct.values A)
  = FiniteFunction.target (IndexedCoproduct.values B) ->
  FiniteFunction.dtype (IndexedCoproduct.values A)
  = FiniteFunction.dtype (IndexedCoproduct.values B) ->
  IndexedCoproduct.coproduct A B
  = Ok (IndexedCoproduct.mk
          (FiniteFunction.mk (FiniteFunction.target (IndexedCoproduct.sources A))
             (FiniteFunction.table (IndexedCoproduct.sources A)
              ++ FiniteFunction.table (IndexedCoproduct.sources B))
             (FiniteFunction.dtype (IndexedCoproduct.sources A)))
          (FiniteFunction.mk (FiniteFunction.target (IndexedCoproduct.values A))
             (FiniteFunction.table (IndexedCoproduct.values A)
              ++ FiniteFunction.table (IndexedCoproduct.values B))
             (FiniteFunction.dtype (IndexedCoproduct.values A)))).
Proof.
  intros E1 E2 E3 E4. unfold IndexedCoproduct.coproduct.
  rewrite (coproduct_Ok _ _ E1 E2). simpl.
  rewrite (coproduct_Ok _ _ E3 E4). reflexivity.
Qed.

(** The positions of the paired blocks inside [A + B], and what is read there. *)
Lemma interleaving_Ok (A B : IndexedCoproduct.IndexedCoproduct) :
  IndexedCoproduct.wf A -> IndexedCoproduct.wf B ->
  IndexedCoproduct.len A = IndexedCoproduct.len B ->
  exists inj,
    FiniteFunction.injections
      (FiniteFunction.mk (FiniteFunction.target (IndexedCoproduct.sources A))
         (FiniteFunction.table (IndexedCoproduct.sources A)
          ++ FiniteFunction.table (IndexedCoproduct.sources B))
         (FiniteFunction.dtype (IndexedCoproduct.sources A)))
      (FiniteFunction.transpose 2 (IndexedCoproduct.len A) (IndexedCoproduct.dtype A))
    = Ok inj
    /\ FiniteFunction.dtype inj = IndexedCoproduct.dtype A
    /\ FiniteFunction.source inj
       = FiniteFunction.source (IndexedCoproduct.values A)
         + FiniteFunction.source (IndexedCoproduct.values B)
    /\ FiniteFunction.compose inj
         (FiniteFunction.mk (FiniteFunction.target (IndexedCoproduct.values A))
            (FiniteFunction.table (IndexedCoproduct.values A)
             ++ FiniteFunction.table (IndexedCoproduct.values B))
            (FiniteFunction.dtype (IndexedCoproduct.values A)))
       = Ok (FiniteFunction.mk (FiniteFunction.target (IndexedCoproduct.values A))
               (concat (IndexedCoproduct.paired_blocks (IndexedCoproduct.blocks A)
                                                       (IndexedCoproduct.blocks B)))
               (IndexedCoproduct.dtype A)).
Proof.
  intros [SA [DA WA]] [SB [DB WB]] EL.
  unfold IndexedCoproduct.len, IndexedCoproduct.dtype, FiniteFunction.source in *.
  unfold FiniteFunction.injections.
  rewrite target_transpose, dtype_transpose.
  rewrite (proj2 (opt_eqb_eq _ _)).
  2:{ unfold FiniteFunction.source; cbn. rewrite length_app. f_equal. lia. }
  cbn. rewrite DA, Nat.eqb_refl. cbn.
  eexists. split; [reflexivity|]. cbn.
  split; [reflexivity|].
  assert (EV := @interleave_values _ _ _ _ (FiniteFunction.dtype (IndexedCoproduct.values A))
                  SA SB EL).
  split.
  - apply (f_equal (@length nat)) in EV. rewrite length_map in EV. rewrite EV.
    rewrite length_concat_paired by (now rewrite !length_split_blocks).
    now rewrite !concat_split_blocks.
  - rewrite compose_Ok; cbn.
    + unfold IndexedCoproduct.blocks. now rewrite EV.
    + f_equal. unfold FiniteFunction.source; cbn.
      rewrite sum_list_app, length_app. lia.
    + reflexivity.
Qed.

(** ** Block interleaving *)

(** C4: [interleave_blocks(A, B, x)] fails with a length mismatch when
    [len(A) != len(B)]; for [A] and [B] of one computation with [N] blocks each
    ([N = 0] included) it returns an open hypergraph without hyperedges whose
    source type sequence is the concatenation [A ++ B] and whose target type
    sequence is [(A0 + B0) + (A1 + B1) + ...]. *)
Theorem interleave_blocks_spec (A B : IndexedCoproduct.IndexedCoproduct)
        (x : FiniteFunction.FiniteFunction) :
  (IndexedCoproduct.len A <> IndexedCoproduct.len B ->
   Optic.interleave_blocks A B x = Err LengthMismatch)
  /\ (IndexedCoproduct.len A = IndexedCoproduct.len B ->
      IndexedCoproduct.wf A -> IndexedCoproduct.wf B ->
      IndexedCoproduct.compatible A B ->
      FiniteFunction.source x = 0 ->
      exists f,
        Optic.interleave_blocks A B x = Ok f
        /\ Hypergraph.X (OpenHypergraph.H f) = 0
        /\ IndexedCoproduct.len (Hypergraph.s (OpenHypergraph.H f)) = 0
        /\ IndexedCoproduct.len (Hypergraph.t (OpenHypergraph.H f)) = 0
        /\ OpenHypergraph.source f
           = Ok (FiniteFunction.mk (FiniteFunction.target (IndexedCoproduct.values A))
                   (FiniteFunction.table (IndexedCoproduct.values A)
                    ++ FiniteFunction.table (IndexedCoproduct.values B))
                   (IndexedCoproduct.dtype A))
        /\ OpenHypergraph.target f
           = Ok (FiniteFunction.mk (FiniteFunction.target (IndexedCoproduct.values A))
                   (concat (IndexedCoproduct.paired_blocks (IndexedCoproduct.blocks A)
                                                           (IndexedCoproduct.blocks B)))
                   (IndexedCoproduct.dtype A))).
Proof.
  unfold Optic.interleave_blocks. split.
  - intros N. apply Nat.eqb_neq in N. rewrite N. reflexivity.
  - intros EL WA WB [Cs [Cv Cd]] Ex.
    destruct (interleaving_Ok WA WB EL) as [inj [Einj [Dinj [Sinj Ecomp]]]].
    pose proof WA as [_ [DA _]]. pose proof WB as [_ [DB _]].
    unfold IndexedCoproduct.dtype in *.
    rewrite EL, Nat.eqb_refl. cbn [bind require].
    rewrite ic_coproduct_Ok by congruence.
    cbn [bind IndexedCoproduct.values IndexedCoproduct.sources IndexedCoproduct.dtype
         FiniteFunction.dtype].
    unfold IndexedCoproduct.dtype. cbn [IndexedCoproduct.values FiniteFunction.dtype].
    rewrite <- EL, Einj. cbn [bind].
    unfold OpenHypergraph.spider, Hypergraph.discrete.
    rewrite Ex. cbn [Nat.eqb bind require OpenHypergraph.dtype_or FiniteFunction.identity
                     FiniteFunction.dtype].
    rewrite new_Ok; [|cbn; congruence|rewrite Dinj; reflexivity].
    eexists. split; [reflexivity|].
    unfold OpenHypergraph.source, OpenHypergraph.target, Hypergraph.X.
    cbn [OpenHypergraph.H OpenHypergraph.s OpenHypergraph.t Hypergraph.w Hypergraph.x
         Hypergraph.s Hypergraph.t].
    split; [exact Ex|]. split; [reflexivity|]. split; [reflexivity|]. split.
    + rewrite compose_Ok; [|reflexivity|reflexivity].
      cbn [FiniteFunction.table FiniteFunction.target FiniteFunction.dtype].
      unfold FiniteFunction.source. cbn [FiniteFunction.table].
      now rewrite map_nth_seq.
    + exact Ecomp.
Qed.

(** ** Object map of the optic *)

Section OpticObjects.

Variable F_map_objects :
  FiniteFunction.FiniteFunction -> DType -> result IndexedCoproduct.IndexedCoproduct.
Variable R_map_objects :
  FiniteFunction.FiniteFunction -> DType -> result IndexedCoproduct.IndexedCoproduct.

(** Forward and reverse images with different block counts are refused. *)
Lemma map_objects_mismatch (A : FiniteFunction.FiniteFunction) (dtype : DType)
      (FA RA : IndexedCoproduct.IndexedCoproduct) :
  F_map_objects A dtype = Ok FA -> R_map_objects A dtype = Ok RA ->
  IndexedCoproduct.len FA <> IndexedCoproduct.len RA ->
  Optic.map_objects F_map_objects R_map_objects A dtype = Err StructuralMismatch.
Proof.
  intros EF ER N. unfold Optic.map_objects. rewrite EF, ER. cbn [bind].
  apply Nat.eqb_neq in N. rewrite N. reflexivity.
Qed.

(** C5: when the forward image [F(A)] and the reverse image [R(A)] have the
    same number of blocks, the optic's image of [A] has that number of
    blocks, its total size is [|F(A)| + |R(A)|], and its [i]-th block is
    [F(A)_i] followed by [R(A)_i]. *)
Theorem map_objects_spec (A : FiniteFunction.FiniteFunction) (dtype : DType)
        (FA RA : IndexedCoproduct.IndexedCoproduct) :
  F_map_objects A dtype = Ok FA -> R_map_objects A dtype = Ok RA ->
  IndexedCoproduct.wf FA -> IndexedCoproduct.wf RA ->
  IndexedCoproduct.compatible FA RA ->
  IndexedCoproduct.dtype FA = dtype ->
  IndexedCoproduct.len FA = IndexedCoproduct.len RA ->
  exists OA,
    Optic.map_objects F_map_objects R_map_objects A dtype = Ok OA
    /\ IndexedCoproduct.len OA = IndexedCoproduct.len FA
    /\ FiniteFunction.source (IndexedCoproduct.values OA)
       = FiniteFunction.source (IndexedCoproduct.values FA)
         + FiniteFunction.source (IndexedCoproduct.values RA)
    /\ IndexedCoproduct.blocks OA
       = IndexedCoproduct.paired_blocks (IndexedCoproduct.blocks FA)
                                        (IndexedCoproduct.blocks RA).
Proof.
  intros EF ER WA WB [Cs [Cv Cd]] Ed EL. subst dtype.
  destruct (interleaving_Ok WA WB EL) as [inj [Einj [Dinj [Sinj Ecomp]]]].
  pose proof WA as [SA [DA _]]. pose proof WB as [SB [DB _]].
  unfold Optic.map_objects. rewrite EF, ER. cbn [bind].
  rewrite (proj2 (Nat.eqb_eq _ _) EL). cbn [bind require].
  unfold IndexedCoproduct.dtype in Cd.
  rewrite ic_coproduct_Ok by congruence. cbn [bind].
  unfold IndexedCoproduct.map_indexes.
  cbn [IndexedCoproduct.values IndexedCoproduct.sources].
  rewrite compose_Ok.
  2:{ rewrite target_transpose. unfold IndexedCoproduct.len, FiniteFunction.source in *.
      cbn [FiniteFunction.table]. rewrite length_app. f_equal. lia. }
  2:{ rewrite dtype_transpose. unfold IndexedCoproduct.dtype. cbn. congruence. }
  cbn [bind]. rewrite Einj. cbn [bind]. rewrite Ecomp. cbn [bind].
  eexists. split; [reflexivity|].
  unfold IndexedCoproduct.len, IndexedCoproduct.blocks, FiniteFunction.source in *.
  cbn [IndexedCoproduct.values IndexedCoproduct.sources FiniteFunction.table].
  assert (LA : length (IndexedCoproduct.split_blocks
                         (FiniteFunction.table (IndexedCoproduct.sources FA))
                         (FiniteFunction.table (IndexedCoproduct.values FA)))
               = length (IndexedCoproduct.split_blocks
                           (FiniteFunction.table (IndexedCoproduct.sources RA))
                           (FiniteFunction.table (IndexedCoproduct.values RA))))
    by (now rewrite !length_split_blocks).
  split; [|split].
  - unfold Optic.add_arrays. rewrite length_map, length_combine. lia.
  - rewrite (length_concat_paired _ _ LA).
    now rewrite !concat_split_blocks.
  - rewrite <- (@split_blocks_lengths (FiniteFunction.table (IndexedCoproduct.sources FA))
                  (FiniteFunction.table (IndexedCoproduct.values FA))) at 1 by lia.
    rewrite <- (@split_blocks_lengths (FiniteFunction.table (IndexedCoproduct.sources RA))
                  (FiniteFunction.table (IndexedCoproduct.values RA))) at 1 by lia.
    rewrite <- paired_blocks_lengths. apply split_blocks_concat.
Qed.

End OpticObjects.

(** * The statements on the sample diagrams *)

Lemma sample_f_wf : OpenHypergraph.wf Samples.f.
Proof.
  unfold OpenHypergraph.wf, OpenHypergraph.constructed, Hypergraph.wf,
    IndexedCoproduct.wf, FiniteFunction.wf.
  cbn. repeat split; repeat constructor.
Defined.

Lemma sample_g_wf : OpenHypergraph.wf Samples.g.
Proof.
  unfold OpenHypergraph.wf, OpenHypergraph.constructed, Hypergraph.wf,
    IndexedCoproduct.wf, FiniteFunction.wf.
  cbn. repeat split; repeat constructor.
Defined.

Lemma sample_A_wf : IndexedCoproduct.wf Samples.A.
Proof.
  unfold IndexedCoproduct.wf, FiniteFunction.wf. cbn. repeat split; repeat constructor.
Defined.

Lemma sample_B_wf : IndexedCoproduct.wf Samples.B.
Proof.
  unfold IndexedCoproduct.wf, FiniteFunction.wf. cbn. repeat split; repeat constructor.
Defined.

Lemma dagger_involution_witness :
  exists g,
    OpenHypergraph.dagger Samples.f = Ok g
    /\ OpenHypergraph.s g = OpenHypergraph.t Samples.f
    /\ OpenHypergraph.t g = OpenHypergraph.s Samples.f
    /\ OpenHypergraph.H g = OpenHypergraph.H Samples.f
    /\ OpenHypergraph.dagger g = Ok Samples.f.
Proof.
  apply (@dagger_involution Samples.f). reflexivity.
Defined.

Lemma identity_spec_witness :
  OpenHypergraph.identity Samples.a Samples.one_op Samples.int64 = Err InvalidArgument
  /\ exists H0,
      Hypergraph.discrete Samples.a Samples.no_ops Samples.int64 = Ok H0
      /\ Hypergraph.w H0 = Samples.a
      /\ Hypergraph.X H0 = 0
      /\ IndexedCoproduct.len (Hypergraph.s H0) = 0
      /\ IndexedCoproduct.len (Hypergraph.t H0) = 0
      /\ OpenHypergraph.identity Samples.a Samples.no_ops Samples.int64
         = Ok (OpenHypergraph.mk
                 (FiniteFunction.identity (FiniteFunction.source Samples.a) Samples.int64)
                 (FiniteFunction.identity (FiniteFunction.source Samples.a) Samples.int64)
                 H0).
Proof.
  split.
  - apply (proj1 (identity_spec Samples.a Samples.one_op Samples.int64)).
    vm_compute. intros E. discriminate E.
  - apply (proj2 (identity_spec Samples.a Samples.no_ops Samples.int64)).
    reflexivity.
Defined.

Lemma twist_spec_witness :
  OpenHypergraph.twist Samples.a Samples.b Samples.one_op Samples.int64
  = Err InvalidArgument
  /\ exists f,
      OpenHypergraph.twist Samples.a Samples.b Samples.no_ops Samples.int64 = Ok f
      /\ Hypergraph.X (OpenHypergraph.H f) = 0
      /\ IndexedCoproduct.len (Hypergraph.s (OpenHypergraph.H f)) = 0
      /\ IndexedCoproduct.len (Hypergraph.t (OpenHypergraph.H f)) = 0
      /\ OpenHypergraph.source f = FiniteFunction.coproduct Samples.a Samples.b
      /\ OpenHypergraph.target f = FiniteFunction.coproduct Samples.b Samples.a
      /\ FiniteFunction.source (OpenHypergraph.s f)
         = FiniteFunction.source Samples.a + FiniteFunction.source Samples.b
      /\ Hypergraph.W (OpenHypergraph.H f)
         = FiniteFunction.source Samples.a + FiniteFunction.source Samples.b
      /\ FiniteFunction.table (OpenHypergraph.t f)
         = seq 0 (FiniteFunction.source Samples.a + FiniteFunction.source Samples.b)
      /\ (forall i, i < FiniteFunction.source Samples.a ->
            nth i (FiniteFunction.table (OpenHypergraph.s f)) 0
            = nth (FiniteFunction.source Samples.b + i)
                  (FiniteFunction.table (OpenHypergraph.t f)) 0)
      /\ (forall j, j < FiniteFunction.source Samples.b ->
            nth (FiniteFunction.source Samples.a + j)
                (FiniteFunction.table (OpenHypergraph.s f)) 0
            = nth j (FiniteFunction.table (OpenHypergraph.t f)) 0).
Proof.
  split.
  - apply (proj1 (twist_spec Samples.a Samples.b Samples.one_op Samples.int64)).
    vm_compute. intros E. discriminate E.
  - apply (proj2 (twist_spec Samples.a Samples.b Samples.no_ops Samples.int64));
      reflexivity.
Defined.

Lemma singleton_spec_witness :
  OpenHypergraph.singleton Samples.int64 Samples.no_ops Samples.a Samples.b None
  = Err ArityMismatch
  /\ OpenHypergraph.singleton Samples.int64 Samples.one_op Samples.a Samples.c' None
     = Err ArityMismatch
  /\ exists f,
      OpenHypergraph.singleton Samples.int64 Samples.one_op Samples.a Samples.b None = Ok f
      /\ Hypergraph.x (OpenHypergraph.H f) = Samples.one_op
      /\ Hypergraph.X (OpenHypergraph.H f) = 1
      /\ IndexedCoproduct.len (Hypergraph.s (OpenHypergraph.H f)) = 1
      /\ IndexedCoproduct.len (Hypergraph.t (OpenHypergraph.H f)) = 1
      /\ FiniteFunction.source (OpenHypergraph.s f) = FiniteFunction.source Samples.a
      /\ FiniteFunction.source (OpenHypergraph.t f) = FiniteFunction.source Samples.b
      /\ IndexedCoproduct.blocks (Hypergraph.s (OpenHypergraph.H f))
         = [FiniteFunction.table (OpenHypergraph.s f)]
      /\ IndexedCoproduct.blocks (Hypergraph.t (OpenHypergraph.H f))
         = [FiniteFunction.table (OpenHypergraph.t f)].
Proof.
  split; [|split].
  - apply (proj1 (singleton_spec Samples.int64 Samples.no_ops Samples.a Samples.b None)).
    left. vm_compute. intros E. discriminate E.
  - apply (proj1 (singleton_spec Samples.int64 Samples.one_op Samples.a Samples.c' None)).
    right. vm_compute. intros E. discriminate E.
  - apply (proj2 (singleton_spec Samples.int64 Samples.one_op Samples.a Samples.b None));
      reflexivity.
Defined.

Lemma half_spider_width_slip_witness :
  OpenHypergraph.half_spider Samples.int64 Samples.s32 Samples.w32 Samples.x32
    (Some Samples.int32) = Err DtypeMismatch
  /\ exists f,
      half_spider_as_specified Samples.s32 Samples.w32 Samples.x32 (Some Samples.int32)
      = Ok f
      /\ OpenHypergraph.t f
         = FiniteFunction.identity (FiniteFunction.source Samples.w32)
             (OpenHypergraph.dtype_or (Some Samples.int32) Samples.s32).
Proof.
  apply (@half_spider_width_slip Samples.int64 Samples.s32 Samples.w32 Samples.x32
           (Some Samples.int32)).
  - reflexivity.
  - reflexivity.
  - vm_compute. intros E. discriminate E.
Defined.

Lemma tensor_spec_witness :
  (exists e, OpenHypergraph.tensor Samples.f Samples.k = Err e)
  /\ exists h,
      OpenHypergraph.tensor Samples.f Samples.g = Ok h
      /\ FiniteFunction.tensor (OpenHypergraph.s Samples.f) (OpenHypergraph.s Samples.g)
         = Ok (OpenHypergraph.s h)
      /\ FiniteFunction.tensor (OpenHypergraph.t Samples.f) (OpenHypergraph.t Samples.g)
         = Ok (OpenHypergraph.t h)
      /\ Hypergraph.coproduct (OpenHypergraph.H Samples.f) (OpenHypergraph.H Samples.g)
         = Ok (OpenHypergraph.H h)
      /\ Hypergraph.W (OpenHypergraph.H h)
         = Hypergraph.W (OpenHypergraph.H Samples.f) + Hypergraph.W (OpenHypergraph.H Samples.g)
      /\ FiniteFunction.table (Hypergraph.w (OpenHypergraph.H h))
         = FiniteFunction.table (Hypergraph.w (OpenHypergraph.H Samples.f))
           ++ FiniteFunction.table (Hypergraph.w (OpenHypergraph.H Samples.g))
      /\ OpenHypergraph.wf h.
Proof.
  split.
  - apply (proj1 (tensor_spec Samples.f Samples.k)).
    unfold OpenHypergraph.same_signature. vm_compute.
    intros [_ [E _]]. discriminate E.
  - apply (proj2 (tensor_spec Samples.f Samples.g) sample_f_wf sample_g_wf).
    unfold OpenHypergraph.same_signature. repeat split; reflexivity.
Defined.

Lemma compose_signature_witness :
  (OpenHypergraph.source Samples.fg = OpenHypergraph.source Samples.f
   /\ OpenHypergraph.target Samples.fg = OpenHypergraph.target Samples.g)
  /\ exists h,
      OpenHypergraph.compose Samples.f Samples.g = Ok h
      /\ OpenHypergraph.source h = OpenHypergraph.source Samples.f
      /\ OpenHypergraph.target h = OpenHypergraph.target Samples.g.
Proof.
  split.
  - apply (proj1 (@compose_signature Samples.f Samples.g sample_f_wf sample_g_wf)
             Samples.fg).
    reflexivity.
  - apply (proj2 (@compose_signature Samples.f Samples.g sample_f_wf sample_g_wf)
             Samples.b);
      reflexivity.
Defined.

Lemma compose_type_check_witness :
  OpenHypergraph.compose Samples.g Samples.f = Err TypeMismatch
  /\ (exists B, OpenHypergraph.target Samples.f = Ok B /\ OpenHypergraph.source Samples.g = Ok B)
  /\ (exists h, OpenHypergraph.compose Samples.f Samples.g = Ok h /\ OpenHypergraph.wf h).
Proof.
  split; [|split].
  - apply (proj1 (compose_type_check Samples.g Samples.f) Samples.c Samples.a).
    + reflexivity.
    + reflexivity.
    + intros E. discriminate E.
  - apply (proj1 (proj2 (compose_type_check Samples.f Samples.g)) Samples.fg).
    reflexivity.
  - apply (proj2 (proj2 (compose_type_check Samples.f Samples.g))
             sample_f_wf sample_g_wf eq_refl Samples.b);
      reflexivity.
Defined.

Lemma sample_E_wf : IndexedCoproduct.wf Samples.E.
Proof.
  unfold IndexedCoproduct.wf, FiniteFunction.wf. cbn. repeat split; repeat constructor.
Defined.

Lemma interleave_blocks_spec_witness :
  Optic.interleave_blocks Samples.A Samples.C Samples.no_ops = Err LengthMismatch
  /\ (exists f,
        Optic.interleave_blocks Samples.A Samples.B Samples.no_ops = Ok f
        /\ Hypergraph.X (OpenHypergraph.H f) = 0
        /\ IndexedCoproduct.len (Hypergraph.s (OpenHypergraph.H f)) = 0
        /\ IndexedCoproduct.len (Hypergraph.t (OpenHypergraph.H f)) = 0
        /\ OpenHypergraph.source f
           = Ok (FiniteFunction.mk (FiniteFunction.target (IndexedCoproduct.values Samples.A))
                   (FiniteFunction.table (IndexedCoproduct.values Samples.A)
                    ++ FiniteFunction.table (IndexedCoproduct.values Samples.B))
                   (IndexedCoproduct.dtype Samples.A))
        /\ OpenHypergraph.target f
           = Ok (FiniteFunction.mk (FiniteFunction.target (IndexedCoproduct.values Samples.A))
                   (concat (IndexedCoproduct.paired_blocks
                              (IndexedCoproduct.blocks Samples.A)
                              (IndexedCoproduct.blocks Samples.B)))
                   (IndexedCoproduct.dtype Samples.A)))
  /\ (exists f,
        Optic.interleave_blocks Samples.E Samples.E Samples.no_ops = Ok f
        /\ Hypergraph.X (OpenHypergraph.H f) = 0
        /\ IndexedCoproduct.len (Hypergraph.s (OpenHypergraph.H f)) = 0
        /\ IndexedCoproduct.len (Hypergraph.t (OpenHypergraph.H f)) = 0
        /\ OpenHypergraph.source f
           = Ok (FiniteFunction.mk (FiniteFunction.target (IndexedCoproduct.values Samples.E))
                   (FiniteFunction.table (IndexedCoproduct.values Samples.E)
                    ++ FiniteFunction.table (IndexedCoproduct.values Samples.E))
                   (IndexedCoproduct.dtype Samples.E))
        /\ OpenHypergraph.target f
           = Ok (FiniteFunction.mk (FiniteFunction.target (IndexedCoproduct.values Samples.E))
                   (concat (IndexedCoproduct.paired_blocks
                              (IndexedCoproduct.blocks Samples.E)
                              (IndexedCoproduct.blocks Samples.E)))
                   (IndexedCoproduct.dtype Samples.E))).
Proof.
  split; [|split].
  - apply (proj1 (interleave_blocks_spec Samples.A Samples.C Samples.no_ops)).
    vm_compute. intros E. discriminate E.
  - apply (proj2 (interleave_blocks_spec Samples.A Samples.B Samples.no_ops)).
    + reflexivity.
    + exact sample_A_wf.
    + exact sample_B_wf.
    + unfold IndexedCoproduct.compatible. repeat split; reflexivity.
    + reflexivity.
  - apply (proj2 (interleave_blocks_spec Samples.E Samples.E Samples.no_ops)).
    + reflexivity.
    + exact sample_E_wf.
    + exact sample_E_wf.
    + unfold IndexedCoproduct.compatible. repeat split; reflexivity.
    + reflexivity.
Defined.

Lemma map_objects_spec_witness :
  exists OA,
    Optic.map_objects (fun _ _ => Ok Samples.A) (fun _ _ => Ok Samples.B)
      Samples.a Samples.int64 = Ok OA
    /\ IndexedCoproduct.len OA = IndexedCoproduct.len Samples.A
    /\ FiniteFunction.source (IndexedCoproduct.values OA)
       = FiniteFunction.source (IndexedCoproduct.values Samples.A)
         + FiniteFunction.source (IndexedCoproduct.values Samples.B)
    /\ IndexedCoproduct.blocks OA
       = IndexedCoproduct.paired_blocks (IndexedCoproduct.blocks Samples.A)
                                        (IndexedCoproduct.blocks Samples.B).
Proof.
  apply (@map_objects_spec (fun _ _ => Ok Samples.A) (fun _ _ => Ok Samples.B)
           Samples.a Samples.int64 Samples.A Samples.B).
  - reflexivity.
  - reflexivity.
  - exact sample_A_wf.
  - exact sample_B_wf.
  - unfold IndexedCoproduct.compatible. repeat split; reflexivity.
  - reflexivity.
  - reflexivity.
Defined.

(** * Further properties of the composition algebra *)

(** ** Inversion of the array operations *)

Lemma ff_compose_inv (f g h : FiniteFunction.FiniteFunction) :
  FiniteFunction.compose f g = Ok h ->
  FiniteFunction.target f = Some (FiniteFunction.source g)
  /\ FiniteFunction.dtype f = FiniteFunction.dtype g
  /\ h = FiniteFunction.mk (FiniteFunction.target g)
           (map (fun i => nth i (FiniteFunction.table g) 0) (FiniteFunction.table f))
           (FiniteFunction.dtype f).
Proof.
  unfold FiniteFunction.compose. intros E.
  apply bind_Ok_inv in E as [u1 [E1 E]]. apply require_Ok_inv in E1.
  apply bind_Ok_inv in E as [u2 [E2 E]]. apply require_Ok_inv in E2.
  apply opt_eqb_eq in E1. apply Nat.eqb_eq in E2. injection E as <-. auto.
Qed.

Lemma ff_coproduct_inv (a b c : FiniteFunction.FiniteFunction) :
  FiniteFunction.coproduct a b = Ok c ->
  FiniteFunction.target a = FiniteFunction.target b
  /\ FiniteFunction.dtype a = FiniteFunction.dtype b
  /\ c = FiniteFunction.mk (FiniteFunction.target a)
           (FiniteFunction.table a ++ FiniteFunction.table b) (FiniteFunction.dtype a).
Proof.
  intros E. destruct (coproduct_Ok_inv _ _ E) as [Et Ed].
  rewrite (coproduct_Ok _ _ Et Ed) in E. injection E as <-. auto.
Qed.

Lemma ff_tensor_inv (f g h : FiniteFunction.FiniteFunction) :
  FiniteFunction.tensor f g = Ok h ->
  exists m k,
    FiniteFunction.target f = Some m /\ FiniteFunction.target g = Some k
    /\ FiniteFunction.dtype f = FiniteFunction.dtype g
    /\ h = FiniteFunction.mk (Some (m + k))
             (FiniteFunction.table f ++ map (fun i => i + m) (FiniteFunction.table g))
             (FiniteFunction.dtype f).
Proof.
  unfold FiniteFunction.tensor. intros E.
  destruct (FiniteFunction.target f) as [m|]; [|discriminate].
  destruct (FiniteFunction.target g) as [k|]; [|discriminate].
  apply bind_Ok_inv in E as [u [E1 E]]. apply require_Ok_inv in E1.
  apply Nat.eqb_eq in E1. injection E as <-.
  exists m, k. auto.
Qed.

Lemma ic_tensor_inv (A B C : IndexedCoproduct.IndexedCoproduct) :
  IndexedCoproduct.tensor A B = Ok C ->
  exists so va,
    FiniteFunction.coproduct (IndexedCoproduct.sources A) (IndexedCoproduct.sources B) = Ok so
    /\ FiniteFunction.tensor (IndexedCoproduct.values A) (IndexedCoproduct.values B) = Ok va
    /\ C = IndexedCoproduct.mk so va.
Proof.
  unfold IndexedCoproduct.tensor. intros E.
  apply bind_Ok_inv in E as [so [E1 E]].
  apply bind_Ok_inv in E as [va [E2 E]]. injection E as <-.
  exists so, va. auto.
Qed.

Lemma hg_coproduct_inv (G K H0 : Hypergraph.Hypergraph) :
  Hypergraph.coproduct G K = Ok H0 ->
  exists s' t' w' x',
    IndexedCoproduct.tensor (Hypergraph.s G) (Hypergraph.s K) = Ok s'
    /\ IndexedCoproduct.tensor (Hypergraph.t G) (Hypergraph.t K) = Ok t'
    /\ FiniteFunction.coproduct (Hypergraph.w G) (Hypergraph.w K) = Ok w'
    /\ FiniteFunction.coproduct (Hypergraph.x G) (Hypergraph.x K) = Ok x'
    /\ H0 = Hypergraph.mk s' t' w' x'.
Proof.
  unfold Hypergraph.coproduct. intros E.
  apply bind_Ok_inv in E as [s' [E1 E]].
  apply bind_Ok_inv in E as [t' [E2 E]].
  apply bind_Ok_inv in E as [w' [E3 E]].
  apply bind_Ok_inv in E as [x' [E4 E]]. injection E as <-.
  exists s', t', w', x'. auto.
Qed.

Lemma oh_tensor_inv (f g h : OpenHypergraph.OpenHypergraph) :
  OpenHypergraph.tensor f g = Ok h ->
  FiniteFunction.tensor (OpenHypergraph.s f) (OpenHypergraph.s g) = Ok (OpenHypergraph.s h)
  /\ FiniteFunction.tensor (OpenHypergraph.t f) (OpenHypergraph.t g) = Ok (OpenHypergraph.t h)
  /\ Hypergraph.coproduct (OpenHypergraph.H f) (OpenHypergraph.H g) = Ok (OpenHypergraph.H h)
  /\ OpenHypergraph.constructed h.
Proof.
  unfold OpenHypergraph.tensor. intros E.
  apply bind_Ok_inv in E as [s0 [E1 E]].
  apply bind_Ok_inv in E as [t0 [E2 E]].
  apply bind_Ok_inv in E as [H0 [E3 E]].
  pose proof E as C. apply new_Ok_inv in E as [-> _]. simpl. auto.
Qed.

Lemma ff_eta_eq (f : FiniteFunction.FiniteFunction) (m : option nat) (l : list nat)
      (d : DType) :
  FiniteFunction.target f = m -> FiniteFunction.table f = l ->
  FiniteFunction.dtype f = d -> FiniteFunction.mk m l d = f.
Proof. intros <- <- <-. apply ff_eta. Qed.

Lemma map_add_0 (l : list nat) : map (fun i => i + 0) l = l.
Proof.
  rewrite (map_ext (fun i => i + 0) (fun i => i)) by (intros; lia). apply map_id.
Qed.

(** ** The unit *)

(** X1: [unit(w, x, dtype)] is refused unless [w] and [x] are both empty,
    and on empty [w] and [x] it returns what [identity(w, x, dtype)]
    returns: the unit is the identity on no wire. *)
Theorem unit_is_empty_identity (w x : FiniteFunction.FiniteFunction) (dtype : DType) :
  (FiniteFunction.source w <> 0 \/ FiniteFunction.source x <> 0 ->
   OpenHypergraph.unit w x dtype = Err InvalidArgument)
  /\ (FiniteFunction.source w = 0 -> FiniteFunction.source x = 0 ->
      exists u,
        OpenHypergraph.unit w x dtype = Ok u
        /\ OpenHypergraph.identity w x dtype = Ok u).
Proof.
  unfold OpenHypergraph.unit, OpenHypergraph.identity, Hypergraph.discrete,
    Hypergraph.empty, FiniteFunction.identity, FiniteFunction.initial.
  split.
  - intros [N|N]; apply Nat.eqb_neq in N; rewrite N; [reflexivity|].
    destruct (FiniteFunction.source w =? 0); reflexivity.
  - intros Ew Ex. rewrite Ew, Ex. simpl.
    rewrite new_Ok by reflexivity. eexists. split; reflexivity.
Qed.

Lemma unit_of_Ok (f : OpenHypergraph.OpenHypergraph) :
  OpenHypergraph.unit_of f
  = Ok (OpenHypergraph.mk
          (FiniteFunction.initial (Some 0) (FiniteFunction.dtype (OpenHypergraph.s f)))
          (FiniteFunction.initial (Some 0) (FiniteFunction.dtype (OpenHypergraph.s f)))
          (Hypergraph.empty
             (FiniteFunction.to_initial (Hypergraph.w (OpenHypergraph.H f)))
             (FiniteFunction.to_initial (Hypergraph.x (OpenHypergraph.H f)))
             (FiniteFunction.dtype (OpenHypergraph.s f)))).
Proof.
  unfold OpenHypergraph.unit_of, OpenHypergraph.unit. simpl.
  apply new_Ok; reflexivity.
Qed.

(** X2: [unit_of] never fails; its result has no wire, no hyperedge and empty
    interfaces, and the signature of [self]; for a well-formed [self] it is a
    well-formed open hypergraph of the same computation. *)
Theorem unit_of_spec (f : OpenHypergraph.OpenHypergraph) :
  exists u,
    OpenHypergraph.unit_of f = Ok u
    /\ OpenHypergraph.signature u = OpenHypergraph.signature f
    /\ Hypergraph.W (OpenHypergraph.H u) = 0
    /\ Hypergraph.X (OpenHypergraph.H u) = 0
    /\ FiniteFunction.source (OpenHypergraph.s u) = 0
    /\ FiniteFunction.source (OpenHypergraph.t u) = 0
    /\ (OpenHypergraph.wf f ->
        OpenHypergraph.wf u /\ OpenHypergraph.same_signature u f).
Proof.
  eexists. split; [apply unit_of_Ok|].
  split; [reflexivity|]. split; [reflexivity|]. split; [reflexivity|].
  split; [reflexivity|]. split; [reflexivity|].
  intros Wf. destruct (wf_dtypes Wf) as [_ [_ [_ [_ [_ [_ [Dw Dx]]]]]]].
  unfold OpenHypergraph.dtype in *.
  split.
  - unfold OpenHypergraph.wf, OpenHypergraph.constructed, Hypergraph.wf,
      IndexedCoproduct.wf, FiniteFunction.wf, Hypergraph.dtype, IndexedCoproduct.dtype.
    simpl. split; [apply new_Ok; reflexivity|].
    destruct (FiniteFunction.target (Hypergraph.w (OpenHypergraph.H f)));
      destruct (FiniteFunction.target (Hypergraph.x (OpenHypergraph.H f)));
      repeat split; auto.
  - unfold OpenHypergraph.same_signature, OpenHypergraph.dtype. simpl. auto.
Qed.

(** X3: the unit is neutral for the tensor on both sides: for a well-formed
    [f], [unit_of(f) @ f] and [f @ unit_of(f)] are [f] itself. *)
Theorem tensor_unit (f : OpenHypergraph.OpenHypergraph) :
  OpenHypergraph.wf f ->
  exists u,
    OpenHypergraph.unit_of f = Ok u
    /\ OpenHypergraph.tensor u f = Ok f
    /\ OpenHypergraph.tensor f u = Ok f.
Proof.
  intros Wf. eexists. split; [apply unit_of_Ok|].
  destruct (wf_dtypes Wf) as [Dt [DH [Dvs [Dss [Dvt [Dst [Dw Dx]]]]]]].
  destruct Wf as [C [Ts [Tt [_ [_ WH]]]]].
  destruct WH as [_ [_ [_ [_ [Tvs [Tvt [Tss [Tst _]]]]]]]].
  unfold OpenHypergraph.dtype, Hypergraph.dtype, IndexedCoproduct.dtype, Hypergraph.W,
    FiniteFunction.source in *.
  destruct f as [s t [[ss vs] [st vt] w x]]. simpl in *.
  destruct s as [sT sL sD], t as [tT tL tD], ss as [ssT ssL ssD], vs as [vsT vsL vsD],
    st as [stT stL stD], vt as [vtT vtL vtD], w as [wT wL wD], x as [xT xL xD].
  simpl in *. subst.
  unfold OpenHypergraph.tensor, Hypergraph.coproduct, Hypergraph.empty,
    IndexedCoproduct.tensor, IndexedCoproduct.initial, FiniteFunction.tensor,
    FiniteFunction.coproduct, FiniteFunction.to_initial, FiniteFunction.initial.
  simpl. rewrite !opt_eqb_refl, !Nat.eqb_refl. simpl.
  rewrite !map_add_0, !app_nil_r, !Nat.add_0_r.
  split; apply new_Ok; reflexivity.
Qed.

(** ** Dagger, tensor and identity *)

Lemma dagger_Ok (f : OpenHypergraph.OpenHypergraph) :
  OpenHypergraph.constructed f ->
  OpenHypergraph.dagger f
  = Ok (OpenHypergraph.mk (OpenHypergraph.t f) (OpenHypergraph.s f) (OpenHypergraph.H f)).
Proof.
  intros C. destruct (constructed_dtypes C) as [E1 E2].
  unfold OpenHypergraph.dagger. apply new_Ok; congruence.
Qed.

(** X4: the dagger exchanges the source and the target type of an open
    hypergraph, keeps its signature, and keeps it well-formed. *)
Theorem dagger_exchanges (f : OpenHypergraph.OpenHypergraph) :
  OpenHypergraph.constructed f ->
  exists g,
    OpenHypergraph.dagger f = Ok g
    /\ OpenHypergraph.source g = OpenHypergraph.target f
    /\ OpenHypergraph.target g = OpenHypergraph.source f
    /\ OpenHypergraph.signature g = OpenHypergraph.signature f
    /\ (OpenHypergraph.wf f -> OpenHypergraph.wf g).
Proof.
  intros C. eexists. split; [apply (dagger_Ok C)|].
  split; [reflexivity|]. split; [reflexivity|]. split; [reflexivity|].
  intros [_ [Ts [Tt [Fs [Ft WH]]]]].
  unfold OpenHypergraph.wf, OpenHypergraph.constructed. simpl.
  split; [exact (dagger_Ok C)|]. auto.
Qed.

(** X5: the dagger distributes over the tensor: whenever [f @ g] is defined,
    its dagger is [f.dagger() @ g.dagger()]. *)
Theorem dagger_tensor (f g h : OpenHypergraph.OpenHypergraph) :
  OpenHypergraph.constructed f -> OpenHypergraph.constructed g ->
  OpenHypergraph.tensor f g = Ok h ->
  exists fd gd hd,
    OpenHypergraph.dagger f = Ok fd
    /\ OpenHypergraph.dagger g = Ok gd
    /\ OpenHypergraph.dagger h = Ok hd
    /\ OpenHypergraph.tensor fd gd = Ok hd.
Proof.
  intros Cf Cg E.
  destruct (oh_tensor_inv _ _ E) as [Es [Et [EH Ch]]].
  exists (OpenHypergraph.mk (OpenHypergraph.t f) (OpenHypergraph.s f) (OpenHypergraph.H f)),
         (OpenHypergraph.mk (OpenHypergraph.t g) (OpenHypergraph.s g) (OpenHypergraph.H g)),
         (OpenHypergraph.mk (OpenHypergraph.t h) (OpenHypergraph.s h) (OpenHypergraph.H h)).
  split; [exact (dagger_Ok Cf)|]. split; [exact (dagger_Ok Cg)|].
  split; [exact (dagger_Ok Ch)|].
  unfold OpenHypergraph.tensor. simpl. rewrite Et, Es, EH. simpl.
  exact (dagger_Ok Ch).
Qed.

(** X6: the tensor adds the types: for well-formed [f] and [g] of one
    computation, the source type of [f @ g] is [f.source + g.source] and its
    target type is [f.target + g.target]. *)
Theorem tensor_signature (f g : OpenHypergraph.OpenHypergraph) :
  OpenHypergraph.wf f -> OpenHypergraph.wf g ->
  OpenHypergraph.same_signature f g ->
  exists h,
    OpenHypergraph.tensor f g = Ok h
    /\ OpenHypergraph.source h
       = (A <- OpenHypergraph.source f ;; B <- OpenHypergraph.source g ;;
          FiniteFunction.coproduct A B)
    /\ OpenHypergraph.target h
       = (A <- OpenHypergraph.target f ;; B <- OpenHypergraph.target g ;;
          FiniteFunction.coproduct A B).
Proof.
  intros Wf Wg Sig.
  destruct (tensor_defined Wf Wg Sig) as [s0 [t0 [H0 [Es [Et [EH [E [W0 [w0 Wh]]]]]]]]].
  exists (OpenHypergraph.mk s0 t0 H0). split; [exact E|].
  rewrite (source_Ok Wh), (target_Ok Wh), (source_Ok Wf), (source_Ok Wg),
    (target_Ok Wf), (target_Ok Wg).
  cbn [bind OpenHypergraph.s OpenHypergraph.t OpenHypergraph.H].
  destruct Sig as [Sd [Sw Sx]].
  destruct (wf_dtypes Wf) as [Dtf _]. destruct (wf_dtypes Wg) as [Dtg _].
  pose proof Wf as [_ [Tsf [Ttf [Fsf [Ftf _]]]]].
  pose proof Wg as [_ [Tsg [Ttg [Fsg [Ftg _]]]]].
  unfold OpenHypergraph.dtype in *.
  apply (wf_Some _ Tsf) in Fsf. apply (wf_Some _ Ttf) in Ftf.
  apply (wf_Some _ Tsg) in Fsg. apply (wf_Some _ Ttg) in Ftg.
  destruct (ff_tensor_inv _ _ Es) as [m [k [Em [Ek [_ ->]]]]].
  destruct (ff_tensor_inv _ _ Et) as [m' [k' [Em' [Ek' [_ ->]]]]].
  rewrite Tsf in Em. injection Em as <-. rewrite Ttf in Em'. injection Em' as <-.
  destruct (hg_coproduct_inv _ _ EH) as [s' [t' [w' [x' [_ [_ [Ew [_ ->]]]]]]]].
  destruct (ff_coproduct_inv _ _ Ew) as [_ [_ ->]].
  cbn [Hypergraph.w FiniteFunction.table FiniteFunction.target FiniteFunction.dtype].
  assert (L : forall l : list nat,
             Forall (fun i => i < Hypergraph.W (OpenHypergraph.H g)) l ->
             map (fun i => nth i (FiniteFunction.table (Hypergraph.w (OpenHypergraph.H f))
                                  ++ FiniteFunction.table (Hypergraph.w (OpenHypergraph.H g))) 0)
                 (map (fun i => i + Hypergraph.W (OpenHypergraph.H f)) l)
             = map (fun i => nth i (FiniteFunction.table (Hypergraph.w (OpenHypergraph.H g))) 0) l).
  { intros l _. rewrite map_map. apply map_ext. intros i.
    rewrite Nat.add_comm. apply app_nth2_plus. }
  split.
  - rewrite coproduct_Ok by (simpl; congruence). simpl.
    rewrite map_app, map_nth_app_l by exact Fsf. now rewrite (L _ Fsg).
  - rewrite coproduct_Ok by (simpl; congruence). simpl.
    rewrite map_app, map_nth_app_l by exact Ftf. now rewrite (L _ Ftg).
Qed.

(** X7: [identity(w, x, dtype)] on well-formed labels of the width of the call
    is a well-formed open hypergraph of type [w -> w], and it is its own
    dagger. *)
Theorem identity_typed (w x : FiniteFunction.FiniteFunction) (dtype : DType) :
  FiniteFunction.source x = 0 ->
  FiniteFunction.wf w ->
  FiniteFunction.dtype w = dtype -> FiniteFunction.dtype x = dtype ->
  exists i,
    OpenHypergraph.identity w x dtype = Ok i
    /\ OpenHypergraph.wf i
    /\ OpenHypergraph.source i = Ok w
    /\ OpenHypergraph.target i = Ok w
    /\ OpenHypergraph.dagger i = Ok i.
Proof.
  intros Ex Fw Dw Dx.
  assert (N : OpenHypergraph.new (FiniteFunction.identity (FiniteFunction.source w) dtype)
                (FiniteFunction.identity (FiniteFunction.source w) dtype)
                (Hypergraph.mk (IndexedCoproduct.initial (FiniteFunction.source w) dtype)
                               (IndexedCoproduct.initial (FiniteFunction.source w) dtype) w x)
              = Ok (OpenHypergraph.mk _ _ _)) by (apply new_Ok; reflexivity).
  assert (S : OpenHypergraph.source
                (OpenHypergraph.mk (FiniteFunction.identity (FiniteFunction.source w) dtype)
                   (FiniteFunction.identity (FiniteFunction.source w) dtype)
                   (Hypergraph.mk (IndexedCoproduct.initial (FiniteFunction.source w) dtype)
                      (IndexedCoproduct.initial (FiniteFunction.source w) dtype) w x))
              = Ok w).
  { unfold OpenHypergraph.source. simpl. rewrite compose_Ok; simpl; [|reflexivity|congruence].
    unfold FiniteFunction.source. rewrite map_nth_seq. rewrite <- Dw. now rewrite ff_eta. }
  eexists. split.
  { unfold OpenHypergraph.identity, Hypergraph.discrete. rewrite Ex. simpl. exact N. }
  split; [|split; [exact S|split; [exact S|exact N]]].
  unfold OpenHypergraph.wf, OpenHypergraph.constructed. simpl.
  split; [exact N|]. split; [reflexivity|]. split; [reflexivity|].
  assert (Fi : FiniteFunction.wf (FiniteFunction.identity (FiniteFunction.source w) dtype)).
  { unfold FiniteFunction.wf. simpl. apply Forall_forall. intros i Hi.
    apply in_seq in Hi. lia. }
  split; [exact Fi|]. split; [exact Fi|].
  unfold Hypergraph.wf, IndexedCoproduct.wf, Hypergraph.X, Hypergraph.W, Hypergraph.dtype,
    IndexedCoproduct.dtype, IndexedCoproduct.len, FiniteFunction.wf. simpl.
  unfold FiniteFunction.source in Ex.
  repeat split; auto.
  destruct x as [xT xL xD]. simpl in *. destruct xL; [|discriminate].
  destruct xT; constructor.
Qed.

(** ** Spiders *)

(** X8: [spider] has exactly two guards, the empty [x] and the equal widths
    of [__post_init__]: a non-empty [x] is refused, then interfaces whose
    widths differ from one another or from the width of the call are
    refused, and every other call returns, whatever [s], [t] and [w] are (it
    is not checked that [s] and [t] map into the wires [w]).  What it returns
    carries [s], [t], [w] and [x] as they were given, on [len(w)] wires and
    without hyperedges. *)
Theorem spider_checks (s t w x : FiniteFunction.FiniteFunction) (dtype : option DType) :
  (FiniteFunction.source x <> 0 ->
   OpenHypergraph.spider s t w x dtype = Err InvalidArgument)
  /\ (FiniteFunction.source x = 0 ->
      FiniteFunction.dtype s <> FiniteFunction.dtype t
      \/ FiniteFunction.dtype t <> OpenHypergraph.dtype_or dtype s ->
      OpenHypergraph.spider s t w x dtype = Err DtypeMismatch)
  /\ (FiniteFunction.source x = 0 ->
      FiniteFunction.dtype s = FiniteFunction.dtype t ->
      FiniteFunction.dtype t = OpenHypergraph.dtype_or dtype s ->
      exists f,
        OpenHypergraph.spider s t w x dtype = Ok f
        /\ OpenHypergraph.s f = s /\ OpenHypergraph.t f = t
        /\ Hypergraph.w (OpenHypergraph.H f) = w
        /\ Hypergraph.x (OpenHypergraph.H f) = x
        /\ Hypergraph.W (OpenHypergraph.H f) = FiniteFunction.source w
        /\ Hypergraph.X (OpenHypergraph.H f) = 0
        /\ IndexedCoproduct.len (Hypergraph.s (OpenHypergraph.H f)) = 0
        /\ IndexedCoproduct.len (Hypergraph.t (OpenHypergraph.H f)) = 0).
Proof.
  unfold OpenHypergraph.spider, Hypergraph.discrete. split; [|split].
  - intros N. apply Nat.eqb_neq in N. rewrite N. reflexivity.
  - intros E N. rewrite E. simpl. apply new_Err. exact N.
  - intros E Dst Dt. rewrite E. simpl.
    rewrite new_Ok by assumption.
    eexists. split; [reflexivity|]. simpl.
    do 4 (split; [reflexivity|]). split; [reflexivity|].
    split; [exact E|]. split; reflexivity.
Qed.

(** X9: [half_spider] is defined exactly when [x] is empty and both the width
    of [s] and the width of the call are the default width; its [t] is the
    identity on [len(w)], and over labels [w] of the default width its target
    type is [w]. *)
Theorem half_spider_defined (DTYPE : DType) (s w x : FiniteFunction.FiniteFunction)
        (dtype : option DType) :
  ((exists f, OpenHypergraph.half_spider DTYPE s w x dtype = Ok f)
   <-> FiniteFunction.source x = 0
       /\ FiniteFunction.dtype s = DTYPE
       /\ OpenHypergraph.dtype_or dtype s = DTYPE)
  /\ (forall f,
         OpenHypergraph.half_spider DTYPE s w x dtype = Ok f ->
         OpenHypergraph.s f = s
         /\ OpenHypergraph.t f = FiniteFunction.identity (FiniteFunction.source w) DTYPE
         /\ (FiniteFunction.dtype w = DTYPE -> OpenHypergraph.target f = Ok w)).
Proof.
  assert (Inv : forall f,
             OpenHypergraph.half_spider DTYPE s w x dtype = Ok f ->
             FiniteFunction.source x = 0
             /\ FiniteFunction.dtype s = DTYPE
             /\ OpenHypergraph.dtype_or dtype s = DTYPE
             /\ f = OpenHypergraph.mk s
                      (FiniteFunction.identity (FiniteFunction.source w) DTYPE)
                      (Hypergraph.mk
                         (IndexedCoproduct.initial (FiniteFunction.source w)
                                                   (OpenHypergraph.dtype_or dtype s))
                         (IndexedCoproduct.initial (FiniteFunction.source w)
                                                   (OpenHypergraph.dtype_or dtype s))
                         w x)).
  { intros f E. rewrite half_spider_unfold in E.
    unfold OpenHypergraph.spider, Hypergraph.discrete in E.
    apply bind_Ok_inv in E as [H0 [E0 E]].
    apply bind_Ok_inv in E0 as [u [Ex E0]]. apply require_Ok_inv in Ex.
    apply Nat.eqb_eq in Ex. injection E0 as <-.
    apply new_Ok_inv in E as [-> [D1 D2]]. simpl in D1, D2.
    unfold Hypergraph.dtype, IndexedCoproduct.dtype in D2. simpl in D2.
    repeat split; congruence. }
  split; [split|].
  - intros [f E]. destruct (Inv f E) as [Ex [Ds [Dd _]]]. auto.
  - intros [Ex [Ds Dd]]. rewrite half_spider_unfold.
    unfold OpenHypergraph.spider, Hypergraph.discrete. rewrite Ex. simpl.
    eexists. apply new_Ok; simpl; [exact Ds|].
    unfold Hypergraph.dtype, IndexedCoproduct.dtype. simpl. congruence.
  - intros f E. destruct (Inv f E) as [Ex [Ds [Dd ->]]]. simpl.
    split; [reflexivity|]. split; [reflexivity|].
    intros Dw. unfold OpenHypergraph.target. simpl.
    rewrite compose_Ok; simpl; [|reflexivity|congruence].
    unfold FiniteFunction.source. rewrite map_nth_seq, <- Dw. now rewrite ff_eta.
Qed.

(** ** Operations as open hypergraphs *)

Lemma inj0_wf (a b : nat) (d : DType) : FiniteFunction.wf (FiniteFunction.inj0 a b d).
Proof.
  unfold FiniteFunction.wf. simpl. apply Forall_forall. intros i Hi.
  apply in_seq in Hi. lia.
Qed.

Lemma inj1_wf (a b : nat) (d : DType) : FiniteFunction.wf (FiniteFunction.inj1 a b d).
Proof.
  unfold FiniteFunction.wf. simpl. apply Forall_forall. intros i Hi.
  apply in_seq in Hi. lia.
Qed.

Lemma map_split_blocks (g : nat -> nat) (s l : list nat) :
  map (map g) (IndexedCoproduct.split_blocks s l)
  = IndexedCoproduct.split_blocks s (map g l).
Proof.
  revert l; induction s as [|k s IH]; intros l; simpl; [reflexivity|].
  now rewrite IH, firstn_map, skipn_map.
Qed.

(** X10: [singleton(x, a, b, dtype)] on well-formed labels of the width that
    is passed to the arrays is a well-formed open hypergraph of type [a -> b]
    whose hyperedge reads the wires of types [a] and writes those of types
    [b]. *)
Theorem singleton_typed (DTYPE : DType) (x a b : FiniteFunction.FiniteFunction)
        (dtype : option DType) :
  FiniteFunction.source x = 1 ->
  FiniteFunction.target a = FiniteFunction.target b ->
  FiniteFunction.wf a -> FiniteFunction.wf b -> FiniteFunction.wf x ->
  FiniteFunction.dtype a = OpenHypergraph.width DTYPE dtype ->
  FiniteFunction.dtype b = OpenHypergraph.width DTYPE dtype ->
  FiniteFunction.dtype x = OpenHypergraph.width DTYPE dtype ->
  exists f,
    OpenHypergraph.singleton DTYPE x a b dtype = Ok f
    /\ OpenHypergraph.wf f
    /\ OpenHypergraph.source f = Ok a
    /\ OpenHypergraph.target f = Ok b
    /\ map (map (fun i => nth i (FiniteFunction.table (Hypergraph.w (OpenHypergraph.H f))) 0))
           (IndexedCoproduct.blocks (Hypergraph.s (OpenHypergraph.H f)))
       = [FiniteFunction.table a]
    /\ map (map (fun i => nth i (FiniteFunction.table (Hypergraph.w (OpenHypergraph.H f))) 0))
           (IndexedCoproduct.blocks (Hypergraph.t (OpenHypergraph.H f)))
       = [FiniteFunction.table b].
Proof.
  intros Ex Et Fa Fb Fx Da Db Dx.
  set (d := OpenHypergraph.width DTYPE dtype) in *.
  set (la := FiniteFunction.source a). set (lb := FiniteFunction.source b).
  set (s0 := FiniteFunction.inj0 la lb d). set (t0 := FiniteFunction.inj1 la lb d).
  set (ab := FiniteFunction.mk (FiniteFunction.target a)
               (FiniteFunction.table a ++ FiniteFunction.table b) (FiniteFunction.dtype a)).
  set (H0 := Hypergraph.mk (IndexedCoproduct.singleton s0 d) (IndexedCoproduct.singleton t0 d)
               ab x).
  assert (N : OpenHypergraph.new s0 t0 H0 = Ok (OpenHypergraph.mk s0 t0 H0))
    by (apply new_Ok; reflexivity).
  assert (E : OpenHypergraph.singleton DTYPE x a b dtype = Ok (OpenHypergraph.mk s0 t0 H0)).
  { unfold OpenHypergraph.singleton. rewrite Ex, Et, opt_eqb_refl. simpl.
    rewrite coproduct_Ok by congruence. simpl. exact N. }
  assert (Lab : FiniteFunction.source ab = la + lb).
  { unfold FiniteFunction.source, ab. simpl. apply length_app. }
  assert (Wab : FiniteFunction.wf ab) by (apply coproduct_table_wf; assumption).
  assert (Wf : OpenHypergraph.wf (OpenHypergraph.mk s0 t0 H0)).
  { unfold OpenHypergraph.wf, OpenHypergraph.constructed. simpl.
    split; [exact N|]. unfold Hypergraph.W. simpl. rewrite Lab.
    split; [reflexivity|]. split; [reflexivity|].
    split; [apply inj0_wf|]. split; [apply inj1_wf|].
    unfold Hypergraph.wf, IndexedCoproduct.wf, Hypergraph.X, Hypergraph.W, Hypergraph.dtype,
      IndexedCoproduct.dtype, IndexedCoproduct.len. simpl. rewrite Lab.
    unfold FiniteFunction.source. simpl. rewrite !length_seq, !Nat.add_0_r.
    unfold FiniteFunction.source in Ex.
    repeat split; try assumption; try reflexivity; try congruence.
    - apply inj0_wf.
    - apply inj1_wf. }
  exists (OpenHypergraph.mk s0 t0 H0). split; [exact E|]. split; [exact Wf|].
  rewrite (source_Ok Wf), (target_Ok Wf). simpl.
  unfold IndexedCoproduct.blocks. simpl. subst s0 t0 la lb.
  unfold FiniteFunction.source. simpl.
  rewrite !length_seq.
  rewrite !firstn_all2 by (rewrite length_seq; lia).
  rewrite map_nth_seq_app_l, map_nth_seq_app.
  split; [|split; [|split; reflexivity]].
  - f_equal. apply ff_eta_eq; auto.
  - f_equal. apply ff_eta_eq; auto.
Qed.

(** X11: [tensor_operations(x, a, b, dtype)] refuses [a] and [b] over
    different alphabets or widths, then operation lists of other lengths
    than [x]; on well-formed arguments of the width of the call it is a
    well-formed open hypergraph of type [a.values -> b.values] with the
    hyperedges [x], the [i]-th of which reads wires of the types of the
    [i]-th block of [a] and writes wires of the types of the [i]-th block of
    [b]. *)
Theorem tensor_operations_spec (x : FiniteFunction.FiniteFunction)
        (a b : IndexedCoproduct.IndexedCoproduct) (dtype : DType) :
  (FiniteFunction.target (IndexedCoproduct.values b)
   <> FiniteFunction.target (IndexedCoproduct.values a)
   \/ FiniteFunction.dtype (IndexedCoproduct.values b)
      <> FiniteFunction.dtype (IndexedCoproduct.values a) ->
   OpenHypergraph.tensor_operations x a b dtype = Err TypeMismatch)
  /\ (FiniteFunction.target (IndexedCoproduct.values b)
      = FiniteFunction.target (IndexedCoproduct.values a) ->
      FiniteFunction.dtype (IndexedCoproduct.values b)
      = FiniteFunction.dtype (IndexedCoproduct.values a) ->
      FiniteFunction.source x <> IndexedCoproduct.len a
      \/ FiniteFunction.source x <> IndexedCoproduct.len b ->
      OpenHypergraph.tensor_operations x a b dtype = Err LengthMismatch)
  /\ (IndexedCoproduct.wf a -> IndexedCoproduct.wf b ->
      IndexedCoproduct.compatible a b ->
      FiniteFunction.target (IndexedCoproduct.sources a) = None ->
      IndexedCoproduct.dtype a = dtype ->
      FiniteFunction.wf x -> FiniteFunction.dtype x = dtype ->
      FiniteFunction.source x = IndexedCoproduct.len a ->
      FiniteFunction.source x = IndexedCoproduct.len b ->
      exists f,
        OpenHypergraph.tensor_operations x a b dtype = Ok f
        /\ OpenHypergraph.wf f
        /\ Hypergraph.x (OpenHypergraph.H f) = x
        /\ OpenHypergraph.source f = Ok (IndexedCoproduct.values a)
        /\ OpenHypergraph.target f = Ok (IndexedCoproduct.values b)
        /\ map (map (fun i => nth i (FiniteFunction.table (Hypergraph.w (OpenHypergraph.H f))) 0))
               (IndexedCoproduct.blocks (Hypergraph.s (OpenHypergraph.H f)))
           = IndexedCoproduct.blocks a
        /\ map (map (fun i => nth i (FiniteFunction.table (Hypergraph.w (OpenHypergraph.H f))) 0))
               (IndexedCoproduct.blocks (Hypergraph.t (OpenHypergraph.H f)))
           = IndexedCoproduct.blocks b).
Proof.
  split; [|split].
  - intros N. unfold OpenHypergraph.tensor_operations.
    destruct N as [N|N].
    + destruct (opt_eqb (FiniteFunction.target (IndexedCoproduct.values b))
                        (FiniteFunction.target (IndexedCoproduct.values a))) eqn:E;
        [|reflexivity].
      apply opt_eqb_eq in E. contradiction.
    + apply Nat.eqb_neq in N. rewrite N, andb_false_r. reflexivity.
  - intros Et Ed N. unfold OpenHypergraph.tensor_operations.
    rewrite Et, Ed, opt_eqb_refl, Nat.eqb_refl. simpl.
    destruct N as [N|N]; apply Nat.eqb_neq in N; rewrite N;
      [|rewrite andb_false_r]; reflexivity.
  - intros Wa Wb [Cs [Cv Cd]] Sa Da Fx Dx La Lb.
    pose proof Wa as [SA [DA FA]]. pose proof Wb as [SB [DB FB]].
    unfold IndexedCoproduct.dtype in *.
    set (va := IndexedCoproduct.values a) in *. set (vb := IndexedCoproduct.values b) in *.
    set (na := FiniteFunction.source va) in *. set (nb := FiniteFunction.source vb) in *.
    set (s0 := FiniteFunction.inj0 na nb dtype). set (t0 := FiniteFunction.inj1 na nb dtype).
    set (ab := FiniteFunction.mk (FiniteFunction.target va)
                 (FiniteFunction.table va ++ FiniteFunction.table vb) (FiniteFunction.dtype va)).
    set (H0 := Hypergraph.mk (IndexedCoproduct.mk (IndexedCoproduct.sources a) s0)
                             (IndexedCoproduct.mk (IndexedCoproduct.sources b) t0) ab x).
    assert (N : OpenHypergraph.new s0 t0 H0 = Ok (OpenHypergraph.mk s0 t0 H0))
      by (apply new_Ok; reflexivity).
    assert (E : OpenHypergraph.tensor_operations x a b dtype
                = Ok (OpenHypergraph.mk s0 t0 H0)).
    { unfold OpenHypergraph.tensor_operations. fold va vb.
      rewrite <- Cv, <- Cd, opt_eqb_refl, Nat.eqb_refl, <- La, <- Lb, Nat.eqb_refl. simpl.
      rewrite coproduct_Ok by congruence. simpl. exact N. }
    assert (Lab : FiniteFunction.source ab = na + nb).
    { unfold FiniteFunction.source, ab. simpl. apply length_app. }
    assert (Wab : FiniteFunction.wf ab) by (apply coproduct_table_wf; assumption).
    assert (Wf : OpenHypergraph.wf (OpenHypergraph.mk s0 t0 H0)).
    { unfold OpenHypergraph.wf, OpenHypergraph.constructed. simpl.
      split; [exact N|]. unfold Hypergraph.W. simpl. rewrite Lab.
      split; [reflexivity|]. split; [reflexivity|].
      split; [apply inj0_wf|]. split; [apply inj1_wf|].
      unfold Hypergraph.wf, IndexedCoproduct.wf, Hypergraph.X, Hypergraph.W, Hypergraph.dtype,
        IndexedCoproduct.dtype, IndexedCoproduct.len in *. simpl. rewrite Lab.
      unfold FiniteFunction.source at 1 2. simpl. rewrite !length_seq.
      repeat split; try assumption; try reflexivity; try congruence.
      - apply inj0_wf.
      - apply inj1_wf. }
    exists (OpenHypergraph.mk s0 t0 H0). split; [exact E|]. split; [exact Wf|].
    split; [reflexivity|].
    rewrite (source_Ok Wf), (target_Ok Wf). simpl.
    unfold IndexedCoproduct.blocks. simpl. rewrite !map_split_blocks.
    unfold na, nb, FiniteFunction.source.
    rewrite map_nth_seq_app_l, map_nth_seq_app.
    split; [|split; [|split; reflexivity]].
    + f_equal. apply ff_eta_eq; auto.
    + f_equal. apply ff_eta_eq; auto. congruence.
Qed.

(** X12: [tensor_operations] on one-block lists is [singleton]: for every
    [x], [a], [b] and width [d], either call returns an open hypergraph
    exactly when the other does, and it is the same one. *)
Theorem tensor_operations_singleton (DTYPE : DType)
        (x a b : FiniteFunction.FiniteFunction) (d : DType) (f : OpenHypergraph.OpenHypergraph) :
  OpenHypergraph.tensor_operations x (IndexedCoproduct.singleton a d)
                                   (IndexedCoproduct.singleton b d) d = Ok f
  <-> OpenHypergraph.singleton DTYPE x a b (Some d) = Ok f.
Proof.
  unfold OpenHypergraph.tensor_operations, OpenHypergraph.singleton,
    IndexedCoproduct.singleton, IndexedCoproduct.len, OpenHypergraph.width.
  cbn [IndexedCoproduct.values IndexedCoproduct.sources FiniteFunction.table
       FiniteFunction.source length].
  assert (L0 : forall n m, FiniteFunction.source (FiniteFunction.inj0 n m d) = n)
    by (intros; unfold FiniteFunction.source; simpl; apply length_seq).
  assert (L1 : forall n m, FiniteFunction.source (FiniteFunction.inj1 n m d) = m)
    by (intros; unfold FiniteFunction.source; simpl; apply length_seq).
  fold (FiniteFunction.source a) (FiniteFunction.source b) (FiniteFunction.source x).
  rewrite L0, L1, andb_diag.
  destruct (FiniteFunction.source x =? 1) eqn:Ex.
  - destruct (opt_eqb (FiniteFunction.target a) (FiniteFunction.target b)) eqn:Et.
    + apply opt_eqb_eq in Et. rewrite Et, opt_eqb_refl.
      destruct (FiniteFunction.dtype b =? FiniteFunction.dtype a) eqn:Ed.
      * simpl. reflexivity.
      * simpl. apply Nat.eqb_neq in Ed.
        unfold FiniteFunction.coproduct. rewrite Et, opt_eqb_refl. simpl.
        destruct (FiniteFunction.dtype a =? FiniteFunction.dtype b) eqn:Ed'.
        -- apply Nat.eqb_eq in Ed'. congruence.
        -- simpl. split; discriminate.
    + assert (Et' : opt_eqb (FiniteFunction.target b) (FiniteFunction.target a) = false).
      { destruct (opt_eqb (FiniteFunction.target b) (FiniteFunction.target a)) eqn:E';
          [|reflexivity].
        apply opt_eqb_eq in E'. rewrite E', opt_eqb_refl in Et. discriminate. }
      rewrite Et'. simpl. split; discriminate.
  - simpl.
    destruct (opt_eqb (FiniteFunction.target b) (FiniteFunction.target a)
              && (FiniteFunction.dtype b =? FiniteFunction.dtype a)); simpl;
      split; discriminate.
Qed.

(** ** Composition as a quotient of the tensor *)

Lemma universal_inv (q f u : FiniteFunction.FiniteFunction) :
  FiniteFunction.universal q f = Ok u ->
  exists Q,
    FiniteFunction.target q = Some Q
    /\ FiniteFunction.source u = Q
    /\ FiniteFunction.target u = FiniteFunction.target f
    /\ FiniteFunction.dtype u = FiniteFunction.dtype f.
Proof.
  unfold FiniteFunction.universal. intros E.
  destruct (FiniteFunction.target q) as [Q|]; [|discriminate].
  apply bind_Ok_inv in E as [u1 [_ E]].
  apply bind_Ok_inv in E as [u2 [_ E]]. injection E as <-.
  exists Q. unfold FiniteFunction.source. simpl.
  rewrite length_scatter, repeat_length. auto.
Qed.

Lemma map_values_inv (A A' : IndexedCoproduct.IndexedCoproduct)
      (q : FiniteFunction.FiniteFunction) :
  IndexedCoproduct.map_values A q = Ok A' ->
  IndexedCoproduct.sources A' = IndexedCoproduct.sources A
  /\ FiniteFunction.table (IndexedCoproduct.values A')
     = map (fun i => nth i (FiniteFunction.table q) 0)
           (FiniteFunction.table (IndexedCoproduct.values A)).
Proof.
  unfold IndexedCoproduct.map_values. intros E.
  apply bind_Ok_inv in E as [va [E1 E]]. injection E as <-.
  apply ff_compose_inv in E1 as [_ [_ ->]]. auto.
Qed.

Lemma coequalize_vertices_inv (G H1 : Hypergraph.Hypergraph)
      (q : FiniteFunction.FiniteFunction) :
  Hypergraph.coequalize_vertices G q = Ok H1 ->
  exists s' t',
    FiniteFunction.universal q (Hypergraph.w G) = Ok (Hypergraph.w H1)
    /\ FiniteFunction.compose q (Hypergraph.w H1) = Ok (Hypergraph.w G)
    /\ IndexedCoproduct.map_values (Hypergraph.s G) q = Ok s'
    /\ IndexedCoproduct.map_values (Hypergraph.t G) q = Ok t'
    /\ H1 = Hypergraph.mk s' t' (Hypergraph.w H1) (Hypergraph.x G).
Proof.
  unfold Hypergraph.coequalize_vertices. intros E.
  apply bind_Ok_inv in E as [u1 [_ E]].
  apply bind_Ok_inv in E as [u [Eu E]].
  apply bind_Ok_inv in E as [qu [Eqm E]].
  apply bind_Ok_inv in E as [u2 [Ec E]]. apply require_Ok_inv in Ec.
  apply ff_eqb_eq in Ec. subst qu.
  apply bind_Ok_inv in E as [s' [Es E]].
  apply bind_Ok_inv in E as [t' [Et E]]. injection E as <-.
  exists s', t'. simpl. auto.
Qed.

(** Every step of a successful [compose], in the order of the source. *)
Lemma compose_inv (f g h : OpenHypergraph.OpenHypergraph) :
  OpenHypergraph.compose f g = Ok h ->
  exists h0 q0 q1 q s0 t0,
    OpenHypergraph.tensor f g = Ok h0
    /\ FiniteFunction.inject0 (OpenHypergraph.t f) (Hypergraph.W (OpenHypergraph.H g)) = Ok q0
    /\ FiniteFunction.inject1 (OpenHypergraph.s g) (Hypergraph.W (OpenHypergraph.H f)) = Ok q1
    /\ FiniteFunction.coequalizer q0 q1 = Ok q
    /\ FiniteFunction.inject0 (OpenHypergraph.s f) (Hypergraph.W (OpenHypergraph.H g)) = Ok s0
    /\ FiniteFunction.compose s0 q = Ok (OpenHypergraph.s h)
    /\ FiniteFunction.inject1 (OpenHypergraph.t g) (Hypergraph.W (OpenHypergraph.H f)) = Ok t0
    /\ FiniteFunction.compose t0 q = Ok (OpenHypergraph.t h)
    /\ Hypergraph.coequalize_vertices (OpenHypergraph.H h0) q = Ok (OpenHypergraph.H h)
    /\ OpenHypergraph.constructed h.
Proof.
  unfold OpenHypergraph.compose. intros E.
  apply bind_Ok_inv in E as [ft [_ E]].
  apply bind_Ok_inv in E as [gs [_ E]].
  apply bind_Ok_inv in E as [u [_ E]].
  apply bind_Ok_inv in E as [h0 [E0 E]].
  apply bind_Ok_inv in E as [q0 [E1 E]].
  apply bind_Ok_inv in E as [q1 [E2 E]].
  apply bind_Ok_inv in E as [q [E3 E]].
  apply bind_Ok_inv in E as [s0 [E4 E]].
  apply bind_Ok_inv in E as [s1 [E5 E]].
  apply bind_Ok_inv in E as [t0 [E6 E]].
  apply bind_Ok_inv in E as [t1 [E7 E]].
  apply bind_Ok_inv in E as [H1 [E8 E]].
  pose proof E as C. apply new_Ok_inv in E as [-> _].
  exists h0, q0, q1, q, s0, t0. simpl. repeat (split; [assumption|]). exact C.
Qed.

Lemma filter_seq_ge (p : nat -> bool) (a n x : nat) :
  In x (filter p (seq a n)) -> a <= x.
Proof.
  intros Hin. apply filter_In in Hin as [Hin _]. apply in_seq in Hin. lia.
Qed.

Lemma rank_below (l : list nat) (v : nat) :
  (forall x, In x l -> v <= x) -> FiniteFunction.rank l v = 0.
Proof.
  unfold FiniteFunction.rank. induction l as [|a l IH]; intros Hl; [reflexivity|].
  simpl. assert (Ha : (a <? v) = false) by (apply Nat.ltb_ge, Hl; now left).
  rewrite Ha. apply IH. intros x Hx. apply Hl. now right.
Qed.

(** In the increasing list of the roots, the rank of a root is its position. *)
Lemma rank_nth_filter_seq (p : nat -> bool) (n a c : nat) :
  c < length (filter p (seq a n)) ->
  FiniteFunction.rank (filter p (seq a n)) (nth c (filter p (seq a n)) 0) = c.
Proof.
  revert a c; induction n as [|n IH]; intros a c Hc; simpl in *; [lia|].
  destruct (p a) eqn:Pa; [|now apply IH].
  simpl in Hc. destruct c as [|c]; simpl.
  - unfold FiniteFunction.rank. simpl. rewrite Nat.ltb_irrefl.
    apply rank_below. intros x Hx. apply filter_seq_ge in Hx. lia.
  - assert (Hc' : c < length (filter p (seq (S a) n))) by lia.
    pose proof (nth_In _ 0 Hc') as Hin. apply filter_seq_ge in Hin.
    unfold FiniteFunction.rank. simpl.
    rewrite (proj2 (Nat.ltb_lt _ _)) by lia. simpl. f_equal.
    now apply IH.
Qed.

Lemma coequalizer_bound (f g q : FiniteFunction.FiniteFunction) :
  FiniteFunction.wf f -> FiniteFunction.wf g ->
  FiniteFunction.coequalizer f g = Ok q ->
  exists n Q,
    FiniteFunction.target f = Some n
    /\ FiniteFunction.target q = Some Q
    /\ FiniteFunction.source q = n
    /\ Q <= n
    /\ Forall (fun c => c < Q) (FiniteFunction.table q)
    /\ forall c, c < Q -> exists i, i < n /\ nth i (FiniteFunction.table q) 0 = c.
Proof.
  intros Wf Wg E. pose proof E as E0. unfold FiniteFunction.coequalizer in E.
  apply bind_Ok_inv in E as [u1 [E1 E]]. apply require_Ok_inv in E1.
  apply Nat.eqb_eq in E1.
  destruct (FiniteFunction.target f) as [n|] eqn:Tf; [|discriminate].
  apply bind_Ok_inv in E as [u2 [E2 E]]. apply require_Ok_inv in E2.
  apply opt_eqb_eq in E2.
  apply bind_Ok_inv in E as [u3 [E3 E]]. apply require_Ok_inv in E3.
  apply Nat.eqb_eq in E3.
  destruct (@coequalizer_spec f g n (fun _ => 0) E1 Tf E2 E3 Wf Wg)
    as [q' [Q [Eq [Tq [HQ [Sq [_ [Fq _]]]]]]]]; [reflexivity|].
  rewrite E0 in Eq. injection Eq as <-.
  exists n, Q. split; [reflexivity|]. do 4 (split; [assumption|]).
  injection E as E. rewrite <- E in Tq |- *. simpl in Tq |- *.
  injection Tq as <-.
  set (lab := FiniteFunction.components n
                (combine (FiniteFunction.table f) (FiniteFunction.table g))) in *.
  assert (Llab : length lab = n).
  { unfold lab, FiniteFunction.components. now rewrite length_fold_merge, length_seq. }
  intros c Hc.
  pose proof (nth_In _ 0 Hc) as Hin.
  unfold FiniteFunction.roots in Hin at 2. apply filter_In in Hin as [Hr Hroot].
  apply in_seq in Hr. apply Nat.eqb_eq in Hroot.
  exists (nth c (FiniteFunction.roots lab) 0). split; [lia|].
  rewrite nth_map_in by lia. rewrite Hroot.
  unfold FiniteFunction.roots. apply rank_nth_filter_seq. exact Hc.
Qed.

(** X13: a composite [h = f >> g] of well-formed open hypergraphs is the
    tensor of [f] and [g] with wires renamed by one map [q] from the
    [W f + W g] wires of the tensor onto the wires of [h] (every wire of
    [h] is the image of a wire of [f] or of [g]): the interfaces and
    every hyperedge of [h] are those of [f] and of [g] (shifted by [W f])
    read through [q], the [k]-th target wire of [f] and the [k]-th source
    wire of [g] are one wire of [h], [q] keeps the wire labels, and the
    hyperedges are those of [f] followed by those of [g], none merged or
    dropped. *)
Theorem compose_glues (f g h : OpenHypergraph.OpenHypergraph) :
  OpenHypergraph.wf f -> OpenHypergraph.wf g ->
  OpenHypergraph.compose f g = Ok h ->
  let Wf := Hypergraph.W (OpenHypergraph.H f) in
  let Wg := Hypergraph.W (OpenHypergraph.H g) in
  let Hf := OpenHypergraph.H f in
  let Hg := OpenHypergraph.H g in
  let Hh := OpenHypergraph.H h in
  exists q : list nat,
    length q = Wf + Wg
    /\ Forall (fun c => c < Hypergraph.W Hh) q
    /\ (forall c, c < Hypergraph.W Hh -> exists i, i < Wf + Wg /\ nth i q 0 = c)
    /\ Hypergraph.W Hh <= Wf + Wg
    /\ FiniteFunction.table (OpenHypergraph.s h)
       = map (fun i => nth i q 0) (FiniteFunction.table (OpenHypergraph.s f))
    /\ FiniteFunction.table (OpenHypergraph.t h)
       = map (fun i => nth (Wf + i) q 0) (FiniteFunction.table (OpenHypergraph.t g))
    /\ map (fun i => nth i q 0) (FiniteFunction.table (OpenHypergraph.t f))
       = map (fun i => nth (Wf + i) q 0) (FiniteFunction.table (OpenHypergraph.s g))
    /\ map (fun c => nth c (FiniteFunction.table (Hypergraph.w Hh)) 0) q
       = FiniteFunction.table (Hypergraph.w Hf) ++ FiniteFunction.table (Hypergraph.w Hg)
    /\ FiniteFunction.table (IndexedCoproduct.values (Hypergraph.s Hh))
       = map (fun i => nth i q 0)
             (FiniteFunction.table (IndexedCoproduct.values (Hypergraph.s Hf)))
         ++ map (fun i => nth (Wf + i) q 0)
                (FiniteFunction.table (IndexedCoproduct.values (Hypergraph.s Hg)))
    /\ FiniteFunction.table (IndexedCoproduct.values (Hypergraph.t Hh))
       = map (fun i => nth i q 0)
             (FiniteFunction.table (IndexedCoproduct.values (Hypergraph.t Hf)))
         ++ map (fun i => nth (Wf + i) q 0)
                (FiniteFunction.table (IndexedCoproduct.values (Hypergraph.t Hg)))
    /\ FiniteFunction.table (IndexedCoproduct.sources (Hypergraph.s Hh))
       = FiniteFunction.table (IndexedCoproduct.sources (Hypergraph.s Hf))
         ++ FiniteFunction.table (IndexedCoproduct.sources (Hypergraph.s Hg))
    /\ FiniteFunction.table (IndexedCoproduct.sources (Hypergraph.t Hh))
       = FiniteFunction.table (IndexedCoproduct.sources (Hypergraph.t Hf))
         ++ FiniteFunction.table (IndexedCoproduct.sources (Hypergraph.t Hg))
    /\ FiniteFunction.table (Hypergraph.x Hh)
       = FiniteFunction.table (Hypergraph.x Hf) ++ FiniteFunction.table (Hypergraph.x Hg).
Proof.
  intros Wff Wfg E Wf Wg Hf Hg Hh. subst Hf Hg Hh.
  destruct (compose_inv _ _ E)
    as [h0 [q0 [q1 [q [s0 [t0 [E0 [E1 [E2 [E3 [E4 [E5 [E6 [E7 [E8 _]]]]]]]]]]]]]]].
  pose proof Wff as [_ [Tsf [Ttf [Fsf [Ftf WHf]]]]].
  pose proof Wfg as [_ [Tsg [Ttg [Fsg [Ftg WHg]]]]].
  fold Wf in Tsf, Ttf. fold Wg in Tsg, Ttg. fold Wf Wg in E1, E2, E4, E6.
  rewrite (@inject0_Ok _ Wf Wg Ttf Ftf) in E1. injection E1 as <-.
  rewrite (@inject1_Ok _ Wf Wg Tsg Fsg) in E2. injection E2 as <-.
  rewrite (@inject0_Ok _ Wf Wg Tsf Fsf) in E4. injection E4 as <-.
  rewrite (@inject1_Ok _ Wf Wg Ttg Ftg) in E6. injection E6 as <-.
  apply (wf_Some _ Tsf) in Fsf. apply (wf_Some _ Ttf) in Ftf.
  apply (wf_Some _ Tsg) in Fsg. apply (wf_Some _ Ttg) in Ftg.
  match type of E3 with FiniteFunction.coequalizer ?a ?b = _ =>
    set (q0 := a) in *; set (q1 := b) in * end.
  assert (Wq0 : FiniteFunction.wf q0).
  { unfold FiniteFunction.wf; simpl.
    eapply Forall_impl; [|exact Ftf]. simpl. intros; lia. }
  assert (Wq1 : FiniteFunction.wf q1).
  { unfold FiniteFunction.wf; simpl. apply Forall_map.
    eapply Forall_impl; [|exact Fsg]. simpl. intros; lia. }
  destruct (@coequalizer_bound _ _ _ Wq0 Wq1 E3) as [n [Q [Tn [Tq [Sq [HQ [Fq Onto]]]]]]].
  simpl in Tn. injection Tn as <-.
  destruct (@coequalizer_glues _ _ _ Wq0 Wq1 E3) as [fq [G0 G1]].
  apply ff_compose_inv in G0 as [_ [_ G0]]. apply ff_compose_inv in G1 as [_ [_ G1]].
  rewrite G0 in G1. injection G1 as G1 _. simpl in G1. rewrite map_map in G1.
  apply ff_compose_inv in E5 as [_ [_ E5]]. apply ff_compose_inv in E7 as [_ [_ E7]].
  apply (f_equal FiniteFunction.table) in E5, E7. simpl in E5, E7.
  rewrite map_map in E7.
  destruct (coequalize_vertices_inv _ _ E8) as [s' [t' [Eu [Eqm [Es' [Et' EH]]]]]].
  apply universal_inv in Eu as [Q' [Tq' [Su _]]].
  rewrite Tq in Tq'. injection Tq' as <-.
  apply ff_compose_inv in Eqm as [_ [_ Eqm]].
  apply (f_equal FiniteFunction.table) in Eqm. simpl in Eqm.
  apply map_values_inv in Es' as [Ss' Vs']. apply map_values_inv in Et' as [St' Vt'].
  apply oh_tensor_inv in E0 as [_ [_ [E0 _]]].
  apply hg_coproduct_inv in E0 as [s2 [t2 [w2 [x2 [Es2 [Et2 [Ew2 [Ex2 EH0]]]]]]]].
  apply ic_tensor_inv in Es2 as [so1 [va1 [Eso1 [Eva1 ->]]]].
  apply ic_tensor_inv in Et2 as [so2 [va2 [Eso2 [Eva2 ->]]]].
  apply ff_coproduct_inv in Eso1 as [_ [_ ->]]. apply ff_coproduct_inv in Eso2 as [_ [_ ->]].
  apply ff_coproduct_inv in Ew2 as [_ [_ ->]]. apply ff_coproduct_inv in Ex2 as [_ [_ ->]].
  apply ff_tensor_inv in Eva1 as [m1 [k1 [Tm1 [_ [_ ->]]]]].
  apply ff_tensor_inv in Eva2 as [m2 [k2 [Tm2 [_ [_ ->]]]]].
  pose proof WHf as [_ [_ [_ [_ [Vsf [Vtf _]]]]]].
  rewrite Vsf in Tm1. rewrite Vtf in Tm2.
  injection Tm1 as <-. injection Tm2 as <-. fold Wf in Vs', Vt'.
  rewrite EH0 in Vs', Vt', Ss', St', EH, Eqm. simpl in Vs', Vt', Ss', St', EH, Eqm.
  assert (WQ : Hypergraph.W (OpenHypergraph.H h) = Q) by exact Su.
  exists (FiniteFunction.table q).
  split; [exact Sq|]. split; [now rewrite WQ|]. split; [now rewrite WQ|].
  split; [now rewrite WQ|].
  split; [exact E5|]. split.
  { rewrite E7. apply map_ext. reflexivity. }
  split; [exact G1|]. split; [symmetry; exact Eqm|].
  rewrite EH. simpl.
  rewrite Vs', Vt', Ss', St'. simpl. rewrite !map_app, !map_map.
  repeat split; f_equal; apply map_ext; intros i; f_equal; lia.
Qed.

(** X14: tensor and composition stay inside one signature: the result has
    the label alphabets of both arguments. *)
Theorem signature_preserved (f g h : OpenHypergraph.OpenHypergraph) :
  OpenHypergraph.tensor f g = Ok h \/ OpenHypergraph.compose f g = Ok h ->
  OpenHypergraph.signature h = OpenHypergraph.signature f
  /\ OpenHypergraph.signature h = OpenHypergraph.signature g.
Proof.
  assert (T : forall h0, OpenHypergraph.tensor f g = Ok h0 ->
                OpenHypergraph.signature h0 = OpenHypergraph.signature f
                /\ OpenHypergraph.signature h0 = OpenHypergraph.signature g).
  { intros h0 E0.
    apply oh_tensor_inv in E0 as [_ [_ [E0 _]]].
    apply hg_coproduct_inv in E0 as [s2 [t2 [w2 [x2 [_ [_ [Ew2 [Ex2 EH0]]]]]]]].
    apply ff_coproduct_inv in Ew2 as [Tw [Dw ->]].
    apply ff_coproduct_inv in Ex2 as [Tx [Dx ->]].
    unfold OpenHypergraph.signature, FiniteFunction.to_initial. rewrite EH0. simpl.
    rewrite <- Tw, <- Dw, <- Tx, <- Dx. auto. }
  intros [E|E]; [now apply T|].
  destruct (compose_inv _ _ E) as [h0 [q0 [q1 [q [s0 [t0 [E0 [_ [_ [_ [_ [_ [_ [_ [E8 _]]]]]]]]]]]]]]].
  destruct (T _ E0) as [S1 S2]. rewrite <- S1, <- S2.
  destruct (coequalize_vertices_inv _ _ E8) as [s' [t' [Eu [_ [_ [_ EH]]]]]].
  apply universal_inv in Eu as [Q [_ [_ [Tu Du]]]].
  assert (S : OpenHypergraph.signature h = OpenHypergraph.signature h0).
  { unfold OpenHypergraph.signature, FiniteFunction.to_initial.
    rewrite EH. simpl. now rewrite Tu, Du. }
  auto.
Qed.

(** ** Rewirings: open hypergraphs without hyperedges *)

Lemma empty_wf (x : FiniteFunction.FiniteFunction) :
  FiniteFunction.source x = 0 -> FiniteFunction.wf x.
Proof.
  unfold FiniteFunction.source, FiniteFunction.wf. intros E.
  destruct (FiniteFunction.table x); [|discriminate].
  destruct (FiniteFunction.target x); constructor.
Qed.

Lemma discrete_open_wf (s t w x : FiniteFunction.FiniteFunction) (d : DType) :
  FiniteFunction.source x = 0 ->
  FiniteFunction.target s = Some (FiniteFunction.source w) ->
  FiniteFunction.target t = Some (FiniteFunction.source w) ->
  FiniteFunction.wf s -> FiniteFunction.wf t -> FiniteFunction.wf w ->
  FiniteFunction.dtype s = d -> FiniteFunction.dtype t = d ->
  FiniteFunction.dtype w = d -> FiniteFunction.dtype x = d ->
  OpenHypergraph.wf
    (OpenHypergraph.mk s t
       (Hypergraph.mk (IndexedCoproduct.initial (FiniteFunction.source w) d)
                      (IndexedCoproduct.initial (FiniteFunction.source w) d) w x)).
Proof.
  intros Ex Ts Tt Fs Ft Fw Ds Dt Dw Dx.
  unfold OpenHypergraph.wf, OpenHypergraph.constructed. simpl.
  split; [apply new_Ok; [congruence | exact Dt]|].
  split; [exact Ts|]. split; [exact Tt|]. split; [exact Fs|]. split; [exact Ft|].
  unfold Hypergraph.wf, IndexedCoproduct.wf, Hypergraph.X, Hypergraph.W, Hypergraph.dtype,
    IndexedCoproduct.dtype, IndexedCoproduct.len. simpl.
  pose proof (empty_wf _ Ex) as Fx.
  unfold FiniteFunction.source at 1 2 3 4. simpl.
  repeat split; auto; constructor.
Qed.

Lemma perm_flat_pair (f g : nat -> nat) (l : list nat) :
  Permutation (flat_map (fun i => [f i; g i]) l) (map f l ++ map g l).
Proof.
  induction l as [|a l IH]; simpl; [constructor|].
  constructor. now apply Permutation_cons_app.
Qed.

Lemma map_add_seq (a b n : nat) : map (fun i => a + i) (seq b n) = seq (a + b) n.
Proof.
  revert b; induction n as [|n IH]; intros b; simpl; [reflexivity|].
  f_equal. rewrite IH. f_equal. lia.
Qed.

Lemma transpose_perm (n : nat) (d : DType) :
  Permutation (FiniteFunction.table (FiniteFunction.transpose 2 n d)) (seq 0 (n + n)).
Proof.
  rewrite transpose_table.
  eapply Permutation_trans; [apply perm_flat_pair|].
  rewrite map_id, seq_app, map_add_seq, Nat.add_0_r. apply Permutation_refl.
Qed.

Lemma flat_seq_offsets (s : list nat) (o : nat) :
  flat_map (fun k => seq (o + FiniteFunction.offset s k) (nth k s 0)) (seq 0 (length s))
  = seq o (sum_list s).
Proof.
  revert o; induction s as [|a s IH]; intros o; [reflexivity|].
  cbn [length]. rewrite <- cons_seq. cbn [flat_map].
  unfold FiniteFunction.offset at 1. cbn [firstn nth].
  rewrite <- seq_shift, flat_map_concat_map, map_map, <- flat_map_concat_map.
  rewrite (flat_map_ext _ (fun k => seq ((o + a) + FiniteFunction.offset s k) (nth k s 0))).
  - rewrite IH. unfold sum_list. simpl.
    change (fold_right Nat.add 0 s) with (sum_list s).
    rewrite Nat.add_0_r. symmetry. apply seq_app.
  - intros k. unfold FiniteFunction.offset. cbn [firstn nth]. unfold sum_list. simpl.
    f_equal. lia.
Qed.

(** X15: [twist(a, b, x)] on well-formed labels is a well-formed open
    hypergraph whose wires are labelled [b + a] (not [a + b]), whose target
    map is the identity and whose source map is the permutation that sends
    position [i] of [a] to wire [len(b) + i] and position [j] of [b] to wire
    [j]. *)
Theorem twist_rewires (a b x : FiniteFunction.FiniteFunction) (dtype : DType) :
  FiniteFunction.source x = 0 ->
  FiniteFunction.target a = FiniteFunction.target b ->
  FiniteFunction.wf a -> FiniteFunction.wf b ->
  FiniteFunction.dtype a = dtype -> FiniteFunction.dtype b = dtype ->
  FiniteFunction.dtype x = dtype ->
  let la := FiniteFunction.source a in
  let lb := FiniteFunction.source b in
  exists f,
    OpenHypergraph.twist a b x dtype = Ok f
    /\ OpenHypergraph.wf f
    /\ FiniteFunction.table (Hypergraph.w (OpenHypergraph.H f))
       = FiniteFunction.table b ++ FiniteFunction.table a
    /\ FiniteFunction.table (OpenHypergraph.t f) = seq 0 (la + lb)
    /\ Permutation (FiniteFunction.table (OpenHypergraph.s f)) (seq 0 (la + lb))
    /\ (forall i, i < la -> nth i (FiniteFunction.table (OpenHypergraph.s f)) 0 = lb + i)
    /\ (forall j, j < lb -> nth (la + j) (FiniteFunction.table (OpenHypergraph.s f)) 0 = j).
Proof.
  intros Ex Et Fa Fb Da Db Dx la lb.
  set (ba := FiniteFunction.mk (FiniteFunction.target b)
               (FiniteFunction.table b ++ FiniteFunction.table a) (FiniteFunction.dtype b)).
  assert (Lba : FiniteFunction.source ba = la + lb).
  { unfold FiniteFunction.source, ba, la, lb. simpl. rewrite length_app.
    unfold FiniteFunction.source. lia. }
  assert (E : OpenHypergraph.twist a b x dtype
              = Ok (OpenHypergraph.mk (FiniteFunction.twist la lb dtype)
                      (FiniteFunction.identity (la + lb) dtype)
                      (Hypergraph.mk (IndexedCoproduct.initial (FiniteFunction.source ba) dtype)
                         (IndexedCoproduct.initial (FiniteFunction.source ba) dtype) ba x))).
  { unfold OpenHypergraph.twist, Hypergraph.discrete. rewrite Ex.
    rewrite coproduct_Ok by congruence. simpl. apply new_Ok; reflexivity. }
  assert (P : Permutation (seq lb la ++ seq 0 lb) (seq 0 (la + lb))).
  { eapply Permutation_trans; [apply Permutation_app_comm|].
    rewrite (Nat.add_comm la lb), seq_app. apply Permutation_refl. }
  eexists. split; [exact E|]. split.
  { apply discrete_open_wf; simpl; try congruence.
    - unfold FiniteFunction.wf. simpl. apply Forall_forall. intros i Hi.
      apply (Permutation_in _ P), in_seq in Hi. lia.
    - unfold FiniteFunction.wf. simpl. apply Forall_forall. intros i Hi.
      apply in_seq in Hi. lia.
    - apply coproduct_table_wf; auto. }
  simpl. split; [reflexivity|]. split; [reflexivity|]. split; [exact P|]. split.
  - intros i Hi. rewrite app_nth1 by (rewrite length_seq; exact Hi).
    apply seq_nth. exact Hi.
  - intros j Hj.
    replace (la + j) with (length (seq lb la) + j) by (now rewrite length_seq).
    rewrite app_nth2_plus. apply seq_nth. exact Hj.
Qed.

(** X16: [interleave_blocks(A, B, x)] on well-formed [A] and [B] of one
    computation is a well-formed rewiring of the [|A| + |B|] wires of
    [A + B]: the source map is the identity and the target map is a
    permutation, so every wire occurs exactly once in each interface. *)
Theorem interleave_blocks_rewires (A B : IndexedCoproduct.IndexedCoproduct)
        (x : FiniteFunction.FiniteFunction) :
  IndexedCoproduct.len A = IndexedCoproduct.len B ->
  IndexedCoproduct.wf A -> IndexedCoproduct.wf B ->
  IndexedCoproduct.compatible A B ->
  FiniteFunction.source x = 0 ->
  FiniteFunction.dtype x = IndexedCoproduct.dtype A ->
  let n := FiniteFunction.source (IndexedCoproduct.values A)
           + FiniteFunction.source (IndexedCoproduct.values B) in
  exists f,
    Optic.interleave_blocks A B x = Ok f
    /\ OpenHypergraph.wf f
    /\ Hypergraph.W (OpenHypergraph.H f) = n
    /\ FiniteFunction.table (OpenHypergraph.s f) = seq 0 n
    /\ Permutation (FiniteFunction.table (OpenHypergraph.t f)) (seq 0 n)
    /\ NoDup (FiniteFunction.table (OpenHypergraph.t f)).
Proof.
  intros EL WA WB [Cs [Cv Cd]] Ex Dx n.
  pose proof WA as [SA [DA FA]]. pose proof WB as [SB [DB FB]].
  unfold IndexedCoproduct.dtype in *.
  set (sAB := FiniteFunction.mk (FiniteFunction.target (IndexedCoproduct.sources A))
                (FiniteFunction.table (IndexedCoproduct.sources A)
                 ++ FiniteFunction.table (IndexedCoproduct.sources B))
                (FiniteFunction.dtype (IndexedCoproduct.sources A))).
  set (vAB := FiniteFunction.mk (FiniteFunction.target (IndexedCoproduct.values A))
                (FiniteFunction.table (IndexedCoproduct.values A)
                 ++ FiniteFunction.table (IndexedCoproduct.values B))
                (FiniteFunction.dtype (IndexedCoproduct.values A))).
  set (d := FiniteFunction.dtype (IndexedCoproduct.values A)) in *.
  set (p := FiniteFunction.transpose 2 (IndexedCoproduct.len A) d).
  set (inj := FiniteFunction.mk (Some (sum_list (FiniteFunction.table sAB)))
                (flat_map (fun k => seq (FiniteFunction.offset (FiniteFunction.table sAB) k)
                                        (nth k (FiniteFunction.table sAB) 0))
                          (FiniteFunction.table p)) d).
  assert (Ln : FiniteFunction.source vAB = n).
  { unfold FiniteFunction.source, vAB, n. simpl. apply length_app. }
  assert (LsAB : length (FiniteFunction.table sAB)
                 = IndexedCoproduct.len A + IndexedCoproduct.len A).
  { unfold sAB. simpl. rewrite length_app. rewrite EL at 2. reflexivity. }
  assert (Sn : sum_list (FiniteFunction.table sAB) = n).
  { unfold sAB, n. simpl. rewrite sum_list_app. congruence. }
  assert (Einj : FiniteFunction.injections sAB p = Ok inj).
  { unfold FiniteFunction.injections, p.
    rewrite target_transpose, dtype_transpose.
    unfold FiniteFunction.source. rewrite LsAB.
    replace (2 * IndexedCoproduct.len A)
      with (IndexedCoproduct.len A + IndexedCoproduct.len A) by lia.
    rewrite opt_eqb_refl.
    replace (FiniteFunction.dtype sAB) with d by (unfold sAB; simpl; congruence).
    rewrite Nat.eqb_refl. reflexivity. }
  assert (E : Optic.interleave_blocks A B x
              = Ok (OpenHypergraph.mk (FiniteFunction.identity (FiniteFunction.source vAB) d) inj
                      (Hypergraph.mk (IndexedCoproduct.initial (FiniteFunction.source vAB) d)
                         (IndexedCoproduct.initial (FiniteFunction.source vAB) d) vAB x))).
  { unfold Optic.interleave_blocks.
    rewrite EL, Nat.eqb_refl. cbn [bind require].
    rewrite ic_coproduct_Ok by (unfold d in *; congruence). fold d. fold sAB vAB.
    cbn [bind IndexedCoproduct.values IndexedCoproduct.sources].
    unfold IndexedCoproduct.dtype. cbn [IndexedCoproduct.values].
    change (FiniteFunction.dtype vAB) with d.
    rewrite <- EL. fold p. rewrite Einj. cbn [bind].
    unfold OpenHypergraph.spider, Hypergraph.discrete.
    rewrite Ex. cbn [Nat.eqb bind require OpenHypergraph.dtype_or FiniteFunction.identity
                     FiniteFunction.dtype].
    apply new_Ok; reflexivity. }
  assert (P : Permutation (FiniteFunction.table inj) (seq 0 n)).
  { unfold inj. cbn [FiniteFunction.table].
    eapply Permutation_trans.
    - apply Permutation_flat_map. apply transpose_perm.
    - rewrite <- LsAB, <- Sn.
      rewrite <- (flat_seq_offsets (FiniteFunction.table sAB) 0). apply Permutation_refl. }
  eexists. split; [exact E|].
  cbn [OpenHypergraph.s OpenHypergraph.t OpenHypergraph.H].
  split; [|split; [exact Ln|split; [now rewrite Ln|split; [exact P|]]]].
  - apply discrete_open_wf; try reflexivity; try assumption.
    + unfold inj. cbn [FiniteFunction.target]. now rewrite Sn, Ln.
    + unfold FiniteFunction.wf. simpl. apply Forall_forall. intros i Hi.
      apply in_seq in Hi. lia.
    + unfold FiniteFunction.wf. cbn [FiniteFunction.target inj]. rewrite Sn.
      apply Forall_forall. intros i Hi.
      apply (Permutation_in _ P), in_seq in Hi. lia.
    + apply coproduct_table_wf; auto.
  - apply (Permutation_NoDup (Permutation_sym P)). apply seq_NoDup.
Qed.

(** ** The optic's image of an object is well formed *)

Lemma sum_add_arrays (l r : list nat) :
  length l = length r ->
  sum_list (Optic.add_arrays l r) = sum_list l + sum_list r.
Proof.
  unfold Optic.add_arrays, sum_list.
  revert r; induction l as [|a l IH]; intros [|b r] E; try discriminate; [reflexivity|].
  simpl. rewrite IH by (simpl in E; lia). lia.
Qed.

Lemma perm_concat_paired (l r : list (list nat)) :
  length l = length r ->
  Permutation (concat (IndexedCoproduct.paired_blocks l r)) (concat l ++ concat r).
Proof.
  unfold IndexedCoproduct.paired_blocks.
  revert r; induction l as [|a l IH]; intros [|b r] E; try discriminate; [constructor|].
  simpl. rewrite <- !app_assoc. apply Permutation_app_head.
  eapply Permutation_trans.
  - apply Permutation_app_head. apply IH. simpl in E. lia.
  - rewrite !app_assoc. apply Permutation_app_tail. apply Permutation_app_comm.
Qed.

Section OpticInvariant.

Variable F_map_objects :
  FiniteFunction.FiniteFunction -> DType -> result IndexedCoproduct.IndexedCoproduct.
Variable R_map_objects :
  FiniteFunction.FiniteFunction -> DType -> result IndexedCoproduct.IndexedCoproduct.

(** X17: when the forward and the reverse image of [A] are well formed, of
    one computation and have one number of blocks, [map_objects(A)] is a
    well-formed indexed coproduct again: its block sizes add up to the length
    of its values, which are the values of [F(A)] and [R(A)] rearranged,
    none lost and none repeated, over the codomain of [F(A)]. *)
Theorem map_objects_wf (A : FiniteFunction.FiniteFunction) (dtype : DType)
        (FA RA : IndexedCoproduct.IndexedCoproduct) :
  F_map_objects A dtype = Ok FA -> R_map_objects A dtype = Ok RA ->
  IndexedCoproduct.wf FA -> IndexedCoproduct.wf RA ->
  IndexedCoproduct.compatible FA RA ->
  IndexedCoproduct.dtype FA = dtype ->
  IndexedCoproduct.len FA = IndexedCoproduct.len RA ->
  exists OA,
    Optic.map_objects F_map_objects R_map_objects A dtype = Ok OA
    /\ IndexedCoproduct.wf OA
    /\ IndexedCoproduct.dtype OA = dtype
    /\ FiniteFunction.target (IndexedCoproduct.values OA)
       = FiniteFunction.target (IndexedCoproduct.values FA)
    /\ Permutation (FiniteFunction.table (IndexedCoproduct.values OA))
                   (FiniteFunction.table (IndexedCoproduct.values FA)
                    ++ FiniteFunction.table (IndexedCoproduct.values RA)).
Proof.
  intros EF ER WA WB [Cs [Cv Cd]] Ed EL. subst dtype.
  destruct (interleaving_Ok WA WB EL) as [inj [Einj [Dinj [Sinj Ecomp]]]].
  pose proof WA as [SA [DA FA']]. pose proof WB as [SB [DB FB']].
  set (OA := IndexedCoproduct.mk
               (FiniteFunction.mk None
                  (Optic.add_arrays (FiniteFunction.table (IndexedCoproduct.sources FA))
                                    (FiniteFunction.table (IndexedCoproduct.sources RA)))
                  (IndexedCoproduct.dtype FA))
               (FiniteFunction.mk (FiniteFunction.target (IndexedCoproduct.values FA))
                  (concat (IndexedCoproduct.paired_blocks (IndexedCoproduct.blocks FA)
                                                          (IndexedCoproduct.blocks RA)))
                  (IndexedCoproduct.dtype FA))).
  assert (E : Optic.map_objects F_map_objects R_map_objects A (IndexedCoproduct.dtype FA)
              = Ok OA).
  { unfold Optic.map_objects. rewrite EF, ER. cbn [bind].
    rewrite (proj2 (Nat.eqb_eq _ _) EL). cbn [bind require].
    unfold IndexedCoproduct.dtype in Cd.
    rewrite ic_coproduct_Ok by congruence. cbn [bind].
    unfold IndexedCoproduct.map_indexes.
    cbn [IndexedCoproduct.values IndexedCoproduct.sources].
    rewrite compose_Ok.
    2:{ rewrite target_transpose. unfold IndexedCoproduct.len, FiniteFunction.source in *.
        cbn [FiniteFunction.table]. rewrite length_app. f_equal. lia. }
    2:{ rewrite dtype_transpose. unfold IndexedCoproduct.dtype. cbn. congruence. }
    cbn [bind]. rewrite Einj. cbn [bind]. rewrite Ecomp. cbn [bind]. reflexivity. }
  assert (LB : length (IndexedCoproduct.blocks FA) = length (IndexedCoproduct.blocks RA)).
  { unfold IndexedCoproduct.blocks. rewrite !length_split_blocks. exact EL. }
  assert (P : Permutation
                (concat (IndexedCoproduct.paired_blocks (IndexedCoproduct.blocks FA)
                                                        (IndexedCoproduct.blocks RA)))
                (FiniteFunction.table (IndexedCoproduct.values FA)
                 ++ FiniteFunction.table (IndexedCoproduct.values RA))).
  { eapply Permutation_trans; [apply (perm_concat_paired _ _ LB)|].
    unfold IndexedCoproduct.blocks. rewrite !concat_split_blocks by assumption.
    apply Permutation_refl. }
  exists OA. split; [exact E|]. split; [|split; [reflexivity|split; [reflexivity|exact P]]].
  unfold IndexedCoproduct.wf, OA. cbn [IndexedCoproduct.sources IndexedCoproduct.values
    FiniteFunction.table FiniteFunction.dtype]. split; [|split; [reflexivity|]].
  - rewrite sum_add_arrays by exact EL.
    unfold FiniteFunction.source. cbn [FiniteFunction.table].
    rewrite (Permutation_length P), length_app. unfold FiniteFunction.source in SA, SB.
    congruence.
  - unfold FiniteFunction.wf in *. cbn [FiniteFunction.target FiniteFunction.table].
    rewrite <- Cv in FB'.
    destruct (FiniteFunction.target (IndexedCoproduct.values FA)); [|exact I].
    apply Forall_forall. intros i Hi. apply (Permutation_in _ P) in Hi.
    apply in_app_or in Hi. rewrite Forall_forall in FA', FB'.
    destruct Hi as [Hi|Hi]; auto.
Qed.

End OpticInvariant.

(** ** The tensor is strictly associative *)

Lemma ff_coproduct_assoc (a b c h : FiniteFunction.FiniteFunction) :
  (exists ab, FiniteFunction.coproduct a b = Ok ab /\ FiniteFunction.coproduct ab c = Ok h)
  <-> (exists bc, FiniteFunction.coproduct b c = Ok bc /\ FiniteFunction.coproduct a bc = Ok h).
Proof.
  split.
  - intros [ab [E1 E2]].
    apply ff_coproduct_inv in E1 as [T1 [D1 ->]].
    apply ff_coproduct_inv in E2 as [T2 [D2 ->]]. simpl in *.
    eexists. split; [apply coproduct_Ok; congruence|].
    rewrite coproduct_Ok by (simpl; congruence). simpl. now rewrite app_assoc.
  - intros [bc [E1 E2]].
    apply ff_coproduct_inv in E1 as [T1 [D1 ->]].
    apply ff_coproduct_inv in E2 as [T2 [D2 ->]]. simpl in *.
    eexists. split; [apply coproduct_Ok; congruence|].
    rewrite coproduct_Ok by (simpl; congruence). simpl. now rewrite app_assoc.
Qed.

Lemma ff_tensor_assoc (a b c h : FiniteFunction.FiniteFunction) :
  (exists ab, FiniteFunction.tensor a b = Ok ab /\ FiniteFunction.tensor ab c = Ok h)
  <-> (exists bc, FiniteFunction.tensor b c = Ok bc /\ FiniteFunction.tensor a bc = Ok h).
Proof.
  assert (M : forall m k l, map (fun i => i + (m + k)) l
                            = map (fun i => i + m) (map (fun i => i + k) l)).
  { intros. rewrite map_map. apply map_ext. intros; lia. }
  split.
  - intros [ab [E1 E2]].
    apply ff_tensor_inv in E1 as [m [k [Ta [Tb [D1 ->]]]]].
    apply ff_tensor_inv in E2 as [mk' [j [Tab [Tc [D2 ->]]]]]. simpl in *.
    injection Tab as <-.
    eexists. split; [apply (tensor_Ok _ _ Tb Tc); congruence|].
    rewrite (@tensor_Ok _ _ m (k + j)) by (simpl; congruence). simpl.
    now rewrite Nat.add_assoc, map_app, <- app_assoc, M.
  - intros [bc [E1 E2]].
    apply ff_tensor_inv in E1 as [k [j [Tb [Tc [D1 ->]]]]].
    apply ff_tensor_inv in E2 as [m [kj [Ta [Tbc [D2 ->]]]]]. simpl in *.
    injection Tbc as <-.
    eexists. split; [apply (tensor_Ok _ _ Ta Tb); congruence|].
    rewrite (@tensor_Ok _ _ (m + k) j) by (simpl; congruence). simpl.
    now rewrite Nat.add_assoc, map_app, <- app_assoc, M.
Qed.

Lemma ic_tensor_intro (A B : IndexedCoproduct.IndexedCoproduct)
      (so va : FiniteFunction.FiniteFunction) :
  FiniteFunction.coproduct (IndexedCoproduct.sources A) (IndexedCoproduct.sources B) = Ok so ->
  FiniteFunction.tensor (IndexedCoproduct.values A) (IndexedCoproduct.values B) = Ok va ->
  IndexedCoproduct.tensor A B = Ok (IndexedCoproduct.mk so va).
Proof.
  intros E1 E2. unfold IndexedCoproduct.tensor. now rewrite E1, E2.
Qed.

Lemma ic_tensor_assoc (A B C D : IndexedCoproduct.IndexedCoproduct) :
  (exists AB, IndexedCoproduct.tensor A B = Ok AB /\ IndexedCoproduct.tensor AB C = Ok D)
  <-> (exists BC, IndexedCoproduct.tensor B C = Ok BC /\ IndexedCoproduct.tensor A BC = Ok D).
Proof.
  split.
  - intros [AB [E1 E2]].
    apply ic_tensor_inv in E1 as [so1 [va1 [S1 [V1 ->]]]].
    apply ic_tensor_inv in E2 as [so2 [va2 [S2 [V2 ->]]]]. simpl in *.
    destruct (proj1 (ff_coproduct_assoc _ _ _ _) (ex_intro _ so1 (conj S1 S2)))
      as [so [S3 S4]].
    destruct (proj1 (ff_tensor_assoc _ _ _ _) (ex_intro _ va1 (conj V1 V2)))
      as [va [V3 V4]].
    exists (IndexedCoproduct.mk so va).
    split; apply ic_tensor_intro; assumption.
  - intros [BC [E1 E2]].
    apply ic_tensor_inv in E1 as [so1 [va1 [S1 [V1 ->]]]].
    apply ic_tensor_inv in E2 as [so2 [va2 [S2 [V2 ->]]]]. simpl in *.
    destruct (proj2 (ff_coproduct_assoc _ _ _ _) (ex_intro _ so1 (conj S1 S2)))
      as [so [S3 S4]].
    destruct (proj2 (ff_tensor_assoc _ _ _ _) (ex_intro _ va1 (conj V1 V2)))
      as [va [V3 V4]].
    exists (IndexedCoproduct.mk so va).
    split; apply ic_tensor_intro; assumption.
Qed.

Lemma hg_coproduct_intro (G K : Hypergraph.Hypergraph)
      (s' t' : IndexedCoproduct.IndexedCoproduct) (w' x' : FiniteFunction.FiniteFunction) :
  IndexedCoproduct.tensor (Hypergraph.s G) (Hypergraph.s K) = Ok s' ->
  IndexedCoproduct.tensor (Hypergraph.t G) (Hypergraph.t K) = Ok t' ->
  FiniteFunction.coproduct (Hypergraph.w G) (Hypergraph.w K) = Ok w' ->
  FiniteFunction.coproduct (Hypergraph.x G) (Hypergraph.x K) = Ok x' ->
  Hypergraph.coproduct G K = Ok (Hypergraph.mk s' t' w' x').
Proof.
  intros E1 E2 E3 E4. unfold Hypergraph.coproduct. now rewrite E1, E2, E3, E4.
Qed.

Lemma hg_coproduct_assoc (G K L M : Hypergraph.Hypergraph) :
  (exists GK, Hypergraph.coproduct G K = Ok GK /\ Hypergraph.coproduct GK L = Ok M)
  <-> (exists KL, Hypergraph.coproduct K L = Ok KL /\ Hypergraph.coproduct G KL = Ok M).
Proof.
  split.
  - intros [GK [E1 E2]].
    apply hg_coproduct_inv in E1 as [s1 [t1 [w1 [x1 [S1 [T1 [W1 [X1 ->]]]]]]]].
    apply hg_coproduct_inv in E2 as [s2 [t2 [w2 [x2 [S2 [T2 [W2 [X2 ->]]]]]]]]. simpl in *.
    destruct (proj1 (ic_tensor_assoc _ _ _ _) (ex_intro _ s1 (conj S1 S2))) as [s3 [S3 S4]].
    destruct (proj1 (ic_tensor_assoc _ _ _ _) (ex_intro _ t1 (conj T1 T2))) as [t3 [T3 T4]].
    destruct (proj1 (ff_coproduct_assoc _ _ _ _) (ex_intro _ w1 (conj W1 W2))) as [w3 [W3 W4]].
    destruct (proj1 (ff_coproduct_assoc _ _ _ _) (ex_intro _ x1 (conj X1 X2))) as [x3 [X3 X4]].
    exists (Hypergraph.mk s3 t3 w3 x3).
    split; apply hg_coproduct_intro; assumption.
  - intros [KL [E1 E2]].
    apply hg_coproduct_inv in E1 as [s1 [t1 [w1 [x1 [S1 [T1 [W1 [X1 ->]]]]]]]].
    apply hg_coproduct_inv in E2 as [s2 [t2 [w2 [x2 [S2 [T2 [W2 [X2 ->]]]]]]]]. simpl in *.
    destruct (proj2 (ic_tensor_assoc _ _ _ _) (ex_intro _ s1 (conj S1 S2))) as [s3 [S3 S4]].
    destruct (proj2 (ic_tensor_assoc _ _ _ _) (ex_intro _ t1 (conj T1 T2))) as [t3 [T3 T4]].
    destruct (proj2 (ff_coproduct_assoc _ _ _ _) (ex_intro _ w1 (conj W1 W2))) as [w3 [W3 W4]].
    destruct (proj2 (ff_coproduct_assoc _ _ _ _) (ex_intro _ x1 (conj X1 X2))) as [x3 [X3 X4]].
    exists (Hypergraph.mk s3 t3 w3 x3).
    split; apply hg_coproduct_intro; assumption.
Qed.

Lemma ff_tensor_dtype (a b c : FiniteFunction.FiniteFunction) :
  FiniteFunction.tensor a b = Ok c ->
  FiniteFunction.dtype c = FiniteFunction.dtype a
  /\ FiniteFunction.dtype c = FiniteFunction.dtype b.
Proof.
  intros E. apply ff_tensor_inv in E as [m [k [_ [_ [D ->]]]]]. simpl. auto.
Qed.

Lemma hg_coproduct_dtype (G K M : Hypergraph.Hypergraph) :
  Hypergraph.coproduct G K = Ok M ->
  Hypergraph.dtype M = Hypergraph.dtype G /\ Hypergraph.dtype M = Hypergraph.dtype K.
Proof.
  intros E. apply hg_coproduct_inv in E as [s1 [t1 [w1 [x1 [S1 [_ [_ [_ ->]]]]]]]].
  apply ic_tensor_inv in S1 as [so [va [_ [V ->]]]].
  apply ff_tensor_dtype in V. exact V.
Qed.

Lemma oh_tensor_intro (f g h : OpenHypergraph.OpenHypergraph)
      (s0 t0 : FiniteFunction.FiniteFunction) (H0 : Hypergraph.Hypergraph) :
  FiniteFunction.tensor (OpenHypergraph.s f) (OpenHypergraph.s g) = Ok s0 ->
  FiniteFunction.tensor (OpenHypergraph.t f) (OpenHypergraph.t g) = Ok t0 ->
  Hypergraph.coproduct (OpenHypergraph.H f) (OpenHypergraph.H g) = Ok H0 ->
  OpenHypergraph.new s0 t0 H0 = Ok h ->
  OpenHypergraph.tensor f g = Ok h.
Proof.
  intros E1 E2 E3 E4. unfold OpenHypergraph.tensor. now rewrite E1, E2, E3.
Qed.

(** X18: the tensor is strictly associative: [(f @ g) @ k] returns an open
    hypergraph exactly when [f @ (g @ k)] does, and then the two are equal,
    whatever [f], [g] and [k] are. *)
Theorem tensor_assoc (f g k h : OpenHypergraph.OpenHypergraph) :
  (exists fg, OpenHypergraph.tensor f g = Ok fg /\ OpenHypergraph.tensor fg k = Ok h)
  <-> (exists gk, OpenHypergraph.tensor g k = Ok gk /\ OpenHypergraph.tensor f gk = Ok h).
Proof.
  split.
  - intros [fg [E1 E2]].
    apply oh_tensor_inv in E1 as [S1 [T1 [H1 C1]]].
    apply oh_tensor_inv in E2 as [S2 [T2 [H2 C2]]].
    destruct (proj1 (ff_tensor_assoc _ _ _ _) (ex_intro _ _ (conj S1 S2))) as [s3 [S3 S4]].
    destruct (proj1 (ff_tensor_assoc _ _ _ _) (ex_intro _ _ (conj T1 T2))) as [t3 [T3 T4]].
    destruct (proj1 (hg_coproduct_assoc _ _ _ _) (ex_intro _ _ (conj H1 H2))) as [H3 [H4 H5]].
    destruct (constructed_dtypes C2) as [D1 D2].
    destruct (ff_tensor_dtype _ _ S4) as [_ Ds]. destruct (ff_tensor_dtype _ _ T4) as [_ Dt].
    destruct (hg_coproduct_dtype _ _ H5) as [_ DH].
    exists (OpenHypergraph.mk s3 t3 H3). split.
    + apply (oh_tensor_intro _ _ S3 T3 H4). apply new_Ok; congruence.
    + apply (@oh_tensor_intro f (OpenHypergraph.mk s3 t3 H3) h _ _ _ S4 T4 H5). exact C2.
  - intros [gk [E1 E2]].
    apply oh_tensor_inv in E1 as [S1 [T1 [H1 C1]]].
    apply oh_tensor_inv in E2 as [S2 [T2 [H2 C2]]].
    destruct (proj2 (ff_tensor_assoc _ _ _ _) (ex_intro _ _ (conj S1 S2))) as [s3 [S3 S4]].
    destruct (proj2 (ff_tensor_assoc _ _ _ _) (ex_intro _ _ (conj T1 T2))) as [t3 [T3 T4]].
    destruct (proj2 (hg_coproduct_assoc _ _ _ _) (ex_intro _ _ (conj H1 H2))) as [H3 [H4 H5]].
    destruct (constructed_dtypes C2) as [D1 D2].
    destruct (ff_tensor_dtype _ _ S4) as [Ds _]. destruct (ff_tensor_dtype _ _ T4) as [Dt _].
    destruct (hg_coproduct_dtype _ _ H5) as [DH _].
    exists (OpenHypergraph.mk s3 t3 H3). split.
    + apply (oh_tensor_intro _ _ S3 T3 H4). apply new_Ok; congruence.
    + apply (@oh_tensor_intro (OpenHypergraph.mk s3 t3 H3) k h _ _ _ S4 T4 H5). exact C2.
Qed.

(** X19: the tensor of two identities is the identity on the coproduct of
    their wire labels: [identity(w1, x1) @ identity(w2, x2)] equals
    [identity(w1 + w2, x1 + x2)]. *)
Theorem tensor_identity (w1 x1 w2 x2 w x : FiniteFunction.FiniteFunction) (dtype : DType)
        (i1 i2 : OpenHypergraph.OpenHypergraph) :
  OpenHypergraph.identity w1 x1 dtype = Ok i1 ->
  OpenHypergraph.identity w2 x2 dtype = Ok i2 ->
  FiniteFunction.coproduct w1 w2 = Ok w ->
  FiniteFunction.coproduct x1 x2 = Ok x ->
  exists i,
    OpenHypergraph.identity w x dtype = Ok i /\ OpenHypergraph.tensor i1 i2 = Ok i.
Proof.
  intros E1 E2 Ew Ex.
  assert (I : forall w0 x0 i0, OpenHypergraph.identity w0 x0 dtype = Ok i0 ->
                FiniteFunction.source x0 = 0
                /\ i0 = OpenHypergraph.mk
                          (FiniteFunction.identity (FiniteFunction.source w0) dtype)
                          (FiniteFunction.identity (FiniteFunction.source w0) dtype)
                          (Hypergraph.mk
                             (IndexedCoproduct.initial (FiniteFunction.source w0) dtype)
                             (IndexedCoproduct.initial (FiniteFunction.source w0) dtype)
                             w0 x0)).
  { intros w0 x0 i0 E. unfold OpenHypergraph.identity, Hypergraph.discrete in E.
    apply bind_Ok_inv in E as [u [Ec E]]. apply require_Ok_inv in Ec.
    rewrite Ec in E. simpl in E. apply new_Ok_inv in E as [-> _].
    apply Nat.eqb_eq in Ec. auto. }
  apply I in E1 as [X1 ->]. apply I in E2 as [X2 ->].
  pose proof Ew as Ew'. pose proof Ex as Ex'.
  apply ff_coproduct_inv in Ew' as [_ [_ Ew']]. apply ff_coproduct_inv in Ex' as [_ [_ Ex']].
  assert (Lw : FiniteFunction.source w = FiniteFunction.source w1 + FiniteFunction.source w2).
  { rewrite Ew'. unfold FiniteFunction.source. simpl. apply length_app. }
  assert (Lx : FiniteFunction.source x = 0).
  { rewrite Ex'. unfold FiniteFunction.source in *. simpl. rewrite length_app. lia. }
  assert (Ei : OpenHypergraph.identity w x dtype
               = Ok (OpenHypergraph.mk
                       (FiniteFunction.identity (FiniteFunction.source w) dtype)
                       (FiniteFunction.identity (FiniteFunction.source w) dtype)
                       (Hypergraph.mk
                          (IndexedCoproduct.initial (FiniteFunction.source w) dtype)
                          (IndexedCoproduct.initial (FiniteFunction.source w) dtype) w x))).
  { unfold OpenHypergraph.identity, Hypergraph.discrete. rewrite Lx. simpl.
    apply new_Ok; reflexivity. }
  eexists. split; [exact Ei|].
  assert (Es : FiniteFunction.tensor
                 (FiniteFunction.identity (FiniteFunction.source w1) dtype)
                 (FiniteFunction.identity (FiniteFunction.source w2) dtype)
               = Ok (FiniteFunction.identity (FiniteFunction.source w) dtype)).
  { unfold FiniteFunction.tensor, FiniteFunction.identity. simpl.
    rewrite Nat.eqb_refl. simpl. rewrite Lw, seq_app. simpl.
    assert (M : map (fun i => i + FiniteFunction.source w1) (seq 0 (FiniteFunction.source w2))
                = seq (FiniteFunction.source w1) (FiniteFunction.source w2)).
    { rewrite (map_ext _ (fun i => FiniteFunction.source w1 + i)) by (intros; lia).
      rewrite map_add_seq. f_equal. lia. }
    now rewrite M. }
  eapply oh_tensor_intro; [exact Es | exact Es | | apply new_Ok; reflexivity].
  cbn [OpenHypergraph.H].
  assert (Ec : IndexedCoproduct.tensor
                 (IndexedCoproduct.initial (FiniteFunction.source w1) dtype)
                 (IndexedCoproduct.initial (FiniteFunction.source w2) dtype)
               = Ok (IndexedCoproduct.initial (FiniteFunction.source w) dtype)).
  { unfold IndexedCoproduct.tensor, IndexedCoproduct.initial, FiniteFunction.initial,
      FiniteFunction.coproduct, FiniteFunction.tensor. simpl.
    rewrite !Nat.eqb_refl. simpl. now rewrite Lw. }
  apply hg_coproduct_intro; assumption.
Qed.

(** * The further properties on the sample diagrams *)

Lemma sample_a_wf : FiniteFunction.wf Samples.a.
Proof. unfold FiniteFunction.wf. cbn. repeat constructor. Defined.

Lemma sample_b_wf : FiniteFunction.wf Samples.b.
Proof. unfold FiniteFunction.wf. cbn. repeat constructor. Defined.

Lemma sample_one_op_wf : FiniteFunction.wf Samples.one_op.
Proof. unfold FiniteFunction.wf. cbn. repeat constructor. Defined.

Lemma sample_AB_compatible : IndexedCoproduct.compatible Samples.A Samples.B.
Proof. unfold IndexedCoproduct.compatible. repeat split; reflexivity. Defined.

Lemma unit_is_empty_identity_witness :
  OpenHypergraph.unit Samples.a Samples.no_ops Samples.int64 = Err InvalidArgument
  /\ OpenHypergraph.unit Samples.nothing Samples.one_op Samples.int64 = Err InvalidArgument
  /\ exists u,
      OpenHypergraph.unit Samples.nothing Samples.no_ops Samples.int64 = Ok u
      /\ OpenHypergraph.identity Samples.nothing Samples.no_ops Samples.int64 = Ok u.
Proof.
  split; [|split].
  - apply (proj1 (unit_is_empty_identity Samples.a Samples.no_ops Samples.int64)).
    left. vm_compute. intros E. discriminate E.
  - apply (proj1 (unit_is_empty_identity Samples.nothing Samples.one_op Samples.int64)).
    right. vm_compute. intros E. discriminate E.
  - apply (proj2 (unit_is_empty_identity Samples.nothing Samples.no_ops Samples.int64));
      reflexivity.
Defined.

Lemma unit_of_spec_witness :
  exists u,
    OpenHypergraph.unit_of Samples.f = Ok u
    /\ OpenHypergraph.signature u = OpenHypergraph.signature Samples.f
    /\ Hypergraph.W (OpenHypergraph.H u) = 0
    /\ OpenHypergraph.wf u
    /\ OpenHypergraph.same_signature u Samples.f.
Proof.
  destruct (unit_of_spec Samples.f) as [u [E [S [W0 [_ [_ [_ Wu]]]]]]].
  exists u. split; [exact E|]. split; [exact S|]. split; [exact W0|].
  exact (Wu sample_f_wf).
Defined.

Lemma tensor_unit_witness :
  exists u,
    OpenHypergraph.unit_of Samples.f = Ok u
    /\ OpenHypergraph.tensor u Samples.f = Ok Samples.f
    /\ OpenHypergraph.tensor Samples.f u = Ok Samples.f.
Proof.
  apply (@tensor_unit Samples.f). exact sample_f_wf.
Defined.

Lemma dagger_exchanges_witness :
  exists g,
    OpenHypergraph.dagger Samples.f = Ok g
    /\ OpenHypergraph.source g = OpenHypergraph.target Samples.f
    /\ OpenHypergraph.target g = OpenHypergraph.source Samples.f
    /\ OpenHypergraph.signature g = OpenHypergraph.signature Samples.f
    /\ OpenHypergraph.wf g.
Proof.
  destruct (@dagger_exchanges Samples.f eq_refl) as [g [E [S [T [Sg Wg]]]]].
  exists g. split; [exact E|]. split; [exact S|]. split; [exact T|].
  split; [exact Sg|]. exact (Wg sample_f_wf).
Defined.

Lemma dagger_tensor_witness :
  exists h fd gd hd,
    OpenHypergraph.tensor Samples.f Samples.g = Ok h
    /\ OpenHypergraph.dagger Samples.f = Ok fd
    /\ OpenHypergraph.dagger Samples.g = Ok gd
    /\ OpenHypergraph.dagger h = Ok hd
    /\ OpenHypergraph.tensor fd gd = Ok hd.
Proof.
  assert (E : exists h, OpenHypergraph.tensor Samples.f Samples.g = Ok h)
    by (eexists; reflexivity).
  destruct E as [h E].
  destruct (@dagger_tensor Samples.f Samples.g h eq_refl eq_refl E)
    as [fd [gd [hd [E1 [E2 [E3 E4]]]]]].
  exists h, fd, gd, hd. split; [exact E|]. split; [exact E1|]. split; [exact E2|].
  split; [exact E3 | exact E4].
Defined.

Lemma tensor_signature_witness :
  exists h,
    OpenHypergraph.tensor Samples.f Samples.g = Ok h
    /\ OpenHypergraph.source h
       = (A <- OpenHypergraph.source Samples.f ;; B <- OpenHypergraph.source Samples.g ;;
          FiniteFunction.coproduct A B)
    /\ OpenHypergraph.target h
       = (A <- OpenHypergraph.target Samples.f ;; B <- OpenHypergraph.target Samples.g ;;
          FiniteFunction.coproduct A B).
Proof.
  apply (@tensor_signature Samples.f Samples.g sample_f_wf sample_g_wf).
  unfold OpenHypergraph.same_signature. split; [reflexivity|]. split; reflexivity.
Defined.

Lemma identity_typed_witness :
  exists i,
    OpenHypergraph.identity Samples.a Samples.no_ops Samples.int64 = Ok i
    /\ OpenHypergraph.wf i
    /\ OpenHypergraph.source i = Ok Samples.a
    /\ OpenHypergraph.target i = Ok Samples.a
    /\ OpenHypergraph.dagger i = Ok i.
Proof.
  apply (@identity_typed Samples.a Samples.no_ops Samples.int64).
  - reflexivity.
  - exact sample_a_wf.
  - reflexivity.
  - reflexivity.
Defined.

Lemma spider_checks_witness :
  OpenHypergraph.spider Samples.c Samples.c Samples.a Samples.one_op None
  = Err InvalidArgument
  /\ OpenHypergraph.spider Samples.s32 Samples.c Samples.a Samples.no_ops None
     = Err DtypeMismatch
  /\ exists f,
      OpenHypergraph.spider Samples.a Samples.b Samples.c Samples.no_ops None = Ok f
      /\ OpenHypergraph.s f = Samples.a /\ OpenHypergraph.t f = Samples.b
      /\ Hypergraph.w (OpenHypergraph.H f) = Samples.c
      /\ Hypergraph.x (OpenHypergraph.H f) = Samples.no_ops
      /\ Hypergraph.W (OpenHypergraph.H f) = FiniteFunction.source Samples.c
      /\ Hypergraph.X (OpenHypergraph.H f) = 0
      /\ IndexedCoproduct.len (Hypergraph.s (OpenHypergraph.H f)) = 0
      /\ IndexedCoproduct.len (Hypergraph.t (OpenHypergraph.H f)) = 0.
Proof.
  split; [|split].
  - apply (proj1 (spider_checks Samples.c Samples.c Samples.a Samples.one_op None)).
    vm_compute. intros E. discriminate E.
  - apply (proj1 (proj2 (spider_checks Samples.s32 Samples.c Samples.a Samples.no_ops None))).
    + reflexivity.
    + left. vm_compute. intros E. discriminate E.
  - apply (proj2 (proj2 (spider_checks Samples.a Samples.b Samples.c Samples.no_ops None)));
      reflexivity.
Defined.

Lemma half_spider_defined_witness :
  exists f,
    OpenHypergraph.half_spider Samples.int64 (FiniteFunction.identity 2 Samples.int64)
      Samples.a Samples.no_ops None = Ok f
    /\ OpenHypergraph.s f = FiniteFunction.identity 2 Samples.int64
    /\ OpenHypergraph.target f = Ok Samples.a.
Proof.
  destruct (half_spider_defined Samples.int64 (FiniteFunction.identity 2 Samples.int64)
              Samples.a Samples.no_ops None) as [I P].
  destruct (proj2 I (conj eq_refl (conj eq_refl eq_refl))) as [f E].
  destruct (P f E) as [S [_ G]].
  exists f. split; [exact E|]. split; [exact S|]. exact (G eq_refl).
Defined.

Lemma singleton_typed_witness :
  exists f,
    OpenHypergraph.singleton Samples.int64 Samples.one_op Samples.a Samples.b None = Ok f
    /\ OpenHypergraph.wf f
    /\ OpenHypergraph.source f = Ok Samples.a
    /\ OpenHypergraph.target f = Ok Samples.b
    /\ map (map (fun i => nth i (FiniteFunction.table (Hypergraph.w (OpenHypergraph.H f))) 0))
           (IndexedCoproduct.blocks (Hypergraph.s (OpenHypergraph.H f)))
       = [FiniteFunction.table Samples.a]
    /\ map (map (fun i => nth i (FiniteFunction.table (Hypergraph.w (OpenHypergraph.H f))) 0))
           (IndexedCoproduct.blocks (Hypergraph.t (OpenHypergraph.H f)))
       = [FiniteFunction.table Samples.b].
Proof.
  apply (@singleton_typed Samples.int64 Samples.one_op Samples.a Samples.b None).
  - reflexivity.
  - reflexivity.
  - exact sample_a_wf.
  - exact sample_b_wf.
  - exact sample_one_op_wf.
  - reflexivity.
  - reflexivity.
  - reflexivity.
Defined.

Lemma tensor_operations_spec_witness :
  OpenHypergraph.tensor_operations Samples.one_op
    (IndexedCoproduct.singleton Samples.c Samples.int64)
    (IndexedCoproduct.singleton Samples.c' Samples.int64) Samples.int64 = Err TypeMismatch
  /\ OpenHypergraph.tensor_operations Samples.one_op Samples.A Samples.B Samples.int64
     = Err LengthMismatch
  /\ exists f,
      OpenHypergraph.tensor_operations (Samples.fn 7 [3; 4]) Samples.A Samples.B Samples.int64
      = Ok f
      /\ OpenHypergraph.wf f
      /\ Hypergraph.x (OpenHypergraph.H f) = Samples.fn 7 [3; 4]
      /\ OpenHypergraph.source f = Ok (IndexedCoproduct.values Samples.A)
      /\ OpenHypergraph.target f = Ok (IndexedCoproduct.values Samples.B)
      /\ map (map (fun i => nth i (FiniteFunction.table (Hypergraph.w (OpenHypergraph.H f))) 0))
             (IndexedCoproduct.blocks (Hypergraph.s (OpenHypergraph.H f)))
         = IndexedCoproduct.blocks Samples.A
      /\ map (map (fun i => nth i (FiniteFunction.table (Hypergraph.w (OpenHypergraph.H f))) 0))
             (IndexedCoproduct.blocks (Hypergraph.t (OpenHypergraph.H f)))
         = IndexedCoproduct.blocks Samples.B.
Proof.
  split; [|split].
  - apply (proj1 (tensor_operations_spec Samples.one_op
                    (IndexedCoproduct.singleton Samples.c Samples.int64)
                    (IndexedCoproduct.singleton Samples.c' Samples.int64) Samples.int64)).
    left. vm_compute. intros E. discriminate E.
  - apply (proj1 (proj2 (tensor_operations_spec Samples.one_op Samples.A Samples.B
                           Samples.int64))).
    + reflexivity.
    + reflexivity.
    + left. vm_compute. intros E. discriminate E.
  - apply (proj2 (proj2 (tensor_operations_spec (Samples.fn 7 [3; 4]) Samples.A Samples.B
                           Samples.int64))).
    + exact sample_A_wf.
    + exact sample_B_wf.
    + exact sample_AB_compatible.
    + reflexivity.
    + reflexivity.
    + unfold FiniteFunction.wf. cbn. repeat constructor.
    + reflexivity.
    + reflexivity.
    + reflexivity.
Defined.

Lemma tensor_operations_singleton_witness :
  exists f,
    OpenHypergraph.singleton Samples.int32 Samples.one_op Samples.a Samples.b
      (Some Samples.int64) = Ok f
    /\ OpenHypergraph.tensor_operations Samples.one_op
         (IndexedCoproduct.singleton Samples.a Samples.int64)
         (IndexedCoproduct.singleton Samples.b Samples.int64) Samples.int64 = Ok f.
Proof.
  eexists. split; [reflexivity|].
  apply (proj2 (@tensor_operations_singleton Samples.int32 Samples.one_op Samples.a Samples.b
                  Samples.int64 _)).
  reflexivity.
Defined.

Lemma compose_glues_witness :
  exists q : list nat,
    length q = 9
    /\ Forall (fun c => c < 6) q
    /\ (forall c, c < 6 -> exists i, i < 9 /\ nth i q 0 = c)
    /\ FiniteFunction.table (OpenHypergraph.s Samples.fg)
       = map (fun i => nth i q 0) (FiniteFunction.table (OpenHypergraph.s Samples.f))
    /\ FiniteFunction.table (OpenHypergraph.t Samples.fg)
       = map (fun i => nth (5 + i) q 0) (FiniteFunction.table (OpenHypergraph.t Samples.g))
    /\ map (fun i => nth i q 0) (FiniteFunction.table (OpenHypergraph.t Samples.f))
       = map (fun i => nth (5 + i) q 0) (FiniteFunction.table (OpenHypergraph.s Samples.g))
    /\ map (fun c => nth c (FiniteFunction.table (Hypergraph.w (OpenHypergraph.H Samples.fg))) 0) q
       = FiniteFunction.table (Hypergraph.w (OpenHypergraph.H Samples.f))
         ++ FiniteFunction.table (Hypergraph.w (OpenHypergraph.H Samples.g))
    /\ FiniteFunction.table (Hypergraph.x (OpenHypergraph.H Samples.fg))
       = FiniteFunction.table (Hypergraph.x (OpenHypergraph.H Samples.f))
         ++ FiniteFunction.table (Hypergraph.x (OpenHypergraph.H Samples.g)).
Proof.
  destruct (@compose_glues Samples.f Samples.g Samples.fg sample_f_wf sample_g_wf eq_refl)
    as [q [L [F [O [_ [S [T [G [Lab [_ [_ [_ [_ X]]]]]]]]]]]]].
  exists q. split; [exact L|]. split; [exact F|]. split; [exact O|].
  split; [exact S|]. split; [exact T|].
  split; [exact G|]. split; [exact Lab | exact X].
Defined.

Lemma signature_preserved_witness :
  OpenHypergraph.signature Samples.fg = OpenHypergraph.signature Samples.f
  /\ OpenHypergraph.signature Samples.fg = OpenHypergraph.signature Samples.g.
Proof.
  apply (@signature_preserved Samples.f Samples.g Samples.fg). right. reflexivity.
Defined.

Lemma twist_rewires_witness :
  exists f,
    OpenHypergraph.twist Samples.a Samples.b Samples.no_ops Samples.int64 = Ok f
    /\ OpenHypergraph.wf f
    /\ FiniteFunction.table (Hypergraph.w (OpenHypergraph.H f))
       = FiniteFunction.table Samples.b ++ FiniteFunction.table Samples.a
    /\ FiniteFunction.table (OpenHypergraph.t f) = seq 0 5
    /\ Permutation (FiniteFunction.table (OpenHypergraph.s f)) (seq 0 5).
Proof.
  destruct (@twist_rewires Samples.a Samples.b Samples.no_ops Samples.int64
              eq_refl eq_refl sample_a_wf sample_b_wf eq_refl eq_refl eq_refl)
    as [f [E [Wf [Ew [Et [P _]]]]]].
  exists f. split; [exact E|]. split; [exact Wf|]. split; [exact Ew|].
  split; [exact Et | exact P].
Defined.

Lemma interleave_blocks_rewires_witness :
  exists f,
    Optic.interleave_blocks Samples.A Samples.B Samples.no_ops = Ok f
    /\ OpenHypergraph.wf f
    /\ Hypergraph.W (OpenHypergraph.H f) = 5
    /\ FiniteFunction.table (OpenHypergraph.s f) = seq 0 5
    /\ Permutation (FiniteFunction.table (OpenHypergraph.t f)) (seq 0 5)
    /\ NoDup (FiniteFunction.table (OpenHypergraph.t f)).
Proof.
  apply (@interleave_blocks_rewires Samples.A Samples.B Samples.no_ops).
  - reflexivity.
  - exact sample_A_wf.
  - exact sample_B_wf.
  - exact sample_AB_compatible.
  - reflexivity.
  - reflexivity.
Defined.

Lemma map_objects_wf_witness :
  exists OA,
    Optic.map_objects (fun _ _ => Ok Samples.A) (fun _ _ => Ok Samples.B)
      Samples.a Samples.int64 = Ok OA
    /\ IndexedCoproduct.wf OA
    /\ IndexedCoproduct.dtype OA = Samples.int64
    /\ FiniteFunction.target (IndexedCoproduct.values OA)
       = FiniteFunction.target (IndexedCoproduct.values Samples.A)
    /\ Permutation (FiniteFunction.table (IndexedCoproduct.values OA))
                   (FiniteFunction.table (IndexedCoproduct.values Samples.A)
                    ++ FiniteFunction.table (IndexedCoproduct.values Samples.B)).
Proof.
  apply (@map_objects_wf (fun _ _ => Ok Samples.A) (fun _ _ => Ok Samples.B)
           Samples.a Samples.int64 Samples.A Samples.B).
  - reflexivity.
  - reflexivity.
  - exact sample_A_wf.
  - exact sample_B_wf.
  - exact sample_AB_compatible.
  - reflexivity.
  - reflexivity.
Defined.

Lemma tensor_assoc_witness :
  exists fg h gk,
    OpenHypergraph.tensor Samples.f Samples.g = Ok fg
    /\ OpenHypergraph.tensor fg Samples.f = Ok h
    /\ OpenHypergraph.tensor Samples.g Samples.f = Ok gk
    /\ OpenHypergraph.tensor Samples.f gk = Ok h.
Proof.
  assert (E : exists fg h,
             OpenHypergraph.tensor Samples.f Samples.g = Ok fg
             /\ OpenHypergraph.tensor fg Samples.f = Ok h)
    by (eexists; eexists; split; reflexivity).
  destruct E as [fg [h [E1 E2]]].
  destruct (proj1 (tensor_assoc Samples.f Samples.g Samples.f h)
                  (ex_intro _ fg (conj E1 E2))) as [gk [E3 E4]].
  exists fg, h, gk. split; [exact E1|]. split; [exact E2|]. split; [exact E3 | exact E4].
Defined.

Lemma tensor_identity_witness :
  exists i1 i2 i,
    OpenHypergraph.identity Samples.a Samples.no_ops Samples.int64 = Ok i1
    /\ OpenHypergraph.identity Samples.b Samples.no_ops Samples.int64 = Ok i2
    /\ OpenHypergraph.identity (Samples.fn 5 [1; 2; 3; 4; 0]) Samples.no_ops Samples.int64
       = Ok i
    /\ OpenHypergraph.tensor i1 i2 = Ok i.
Proof.
  assert (E : exists i1 i2,
             OpenHypergraph.identity Samples.a Samples.no_ops Samples.int64 = Ok i1
             /\ OpenHypergraph.identity Samples.b Samples.no_ops Samples.int64 = Ok i2)
    by (eexists; eexists; split; reflexivity).
  destruct E as [i1 [i2 [E1 E2]]].
  destruct (@tensor_identity Samples.a Samples.no_ops Samples.b Samples.no_ops
              (Samples.fn 5 [1; 2; 3; 4; 0]) Samples.no_ops Samples.int64 i1 i2
              E1 E2 eq_refl eq_refl) as [i [E3 E4]].
  exists i1, i2, i. split; [exact E1|]. split; [exact E2|]. split; [exact E3 | exact E4].
Defined.
